(** * Solar-system explorer: orbital simulation and interaction engine

    A shallow embedding of the [SolarSystem] component
    (frontend/src/app/app.ts) and the properties of its Kepler solver,
    frame transform, per-frame update, hit-proxy sizing, pointer handlers,
    camera transition and speed control.

    Numbers.  A JavaScript [number] is an IEEE-754 double.  The development
    reads every [number] as a real ([R]) and [Math.sin], [Math.cos],
    [Math.tan], [Math.sqrt], [Math.exp], [Math.min], [Math.max] as the
    functions of the same name on [R]; rounding is not modelled.  Division
    is the total division of [R].

    External collaborators.  The ray caster, the DOM and [OrbitControls]
    belong to libraries outside the repository.  A pointer handler takes the
    list of intersections the ray caster returned (nearest first) as an
    argument, and [OrbitControls.update] is a parameter of the frame
    function. *)

From Stdlib Require Import Reals Lra Lia List ZArith Bool String.
From Stdlib Require Import QArith Qreals Qround Qabs.
Import ListNotations.

Open Scope R_scope.

(* ================================================================= *)
(** ** JavaScript helpers *)

(** [x || d] on numbers: the left operand unless it is falsy (zero). *)
Definition num_or (x d : R) : R :=
  if Req_dec_T x 0 then d else x.

(** What reading a property of a plain object that stores numbers can give,
    besides [undefined]: the number under an own key, or a member that
    every plain object inherits from [Object.prototype] (a function, or an
    object for [__proto__]), which is not a number. *)
Inductive Entry : Type :=
  | numeric (x : R)
  | inherited.

(** The names of the members of [Object.prototype]. *)
Definition OBJECT_PROTOTYPE : list string :=
  [ "constructor"; "hasOwnProperty"; "isPrototypeOf"; "propertyIsEnumerable";
    "toLocaleString"; "toString"; "valueOf"; "__proto__";
    "__defineGetter__"; "__defineSetter__"; "__lookupGetter__";
    "__lookupSetter__" ]%string.

(** [x ?? d]: the left operand unless it is missing. *)
Definition nullish {A : Type} (x : option A) (d : A) : A :=
  match x with
  | Some v => v
  | None => d
  end.

(** Truthiness of an optional boolean field such as [is_oort_cloud?]. *)
Definition truthy (x : option bool) : bool :=
  match x with
  | Some true => true
  | _ => false
  end.

(** [a > b], [a <= b], [a < b], [a >= b], [a === b] as booleans. *)
Definition gtb (a b : R) : bool := if Rgt_dec a b then true else false.
Definition leb (a b : R) : bool := if Rle_dec a b then true else false.
Definition ltb (a b : R) : bool := if Rlt_dec a b then true else false.
Definition geb (a b : R) : bool := if Rge_dec a b then true else false.
Definition eqb (a b : R) : bool := if Req_dec_T a b then true else false.

(* ================================================================= *)
(** ** three.js [Vector3], the operations the component calls *)

Module Vector3.

Record t : Type := mk { x : R; y : R; z : R }.

Definition zero : t := mk 0 0 0.

Definition add (a b : t) : t := mk (x a + x b) (y a + y b) (z a + z b).
Definition sub (a b : t) : t := mk (x a - x b) (y a - y b) (z a - z b).

Definition multiplyScalar (a : t) (s : R) : t :=
  mk (x a * s) (y a * s) (z a * s).

Definition divideScalar (a : t) (s : R) : t := multiplyScalar a (1 / s).

Definition length (a : t) : R := sqrt (x a * x a + y a * y a + z a * z a).

Definition distanceTo (a b : t) : R :=
  let dx := x a - x b in
  let dy := y a - y b in
  let dz := z a - z b in
  sqrt (dx * dx + dy * dy + dz * dz).

(** [normalize] divides by [length() || 1]: the zero vector stays zero. *)
Definition normalize (a : t) : t := divideScalar a (num_or (length a) 1).

Definition addScaledVector (a v : t) (s : R) : t :=
  mk (x a + x v * s) (y a + y v * s) (z a + z v * s).

(** [lerpVectors(v1, v2, alpha)]. *)
Definition lerpVectors (v1 v2 : t) (alpha : R) : t :=
  mk (x v1 + (x v2 - x v1) * alpha)
     (y v1 + (y v2 - y v1) * alpha)
     (z v1 + (z v2 - z v1) * alpha).

End Vector3.

Definition Vec3 : Type := Vector3.t.

(* ================================================================= *)
(** ** Kepler solver, frame transform and static orbit path *)

Module Kepler.

(** The body of the [for] loop of [solveKepler], run [iters] times. *)
Fixpoint newton (iters : nat) (e meanAnomaly E : R) : R :=
  match iters with
  | O => E
  | S n =>
      newton n e meanAnomaly
        (E - (E - e * sin E - meanAnomaly) / (1 - e * cos E))
  end.

(** [solveKepler]. *)
Definition solveKepler
    (meanAnomaly a b e cosNode sinNode cosInc sinInc : R) : Vec3 :=
  let iters := if gtb e 0.9 then 15%nat else 5%nat in
  let E := newton iters e meanAnomaly meanAnomaly in
  let xOrb := a * (cos E - e) in
  let yOrb := b * sin E in
  Vector3.mk
    (cosNode * xOrb - sinNode * cosInc * yOrb)
    (sinInc * yOrb)
    (sinNode * xOrb + cosNode * cosInc * yOrb).

(** Parts of [solveKepler] by name: the iteration count, the value of the
    local [E] when the loop ends (the eccentric anomaly the solver
    returns), the orbital-plane coordinates [(xOrb, yOrb)], and the world
    point as a function of [E]. *)
Definition iters (e : R) : nat := if gtb e 0.9 then 15%nat else 5%nat.

Definition eccentricAnomaly (meanAnomaly e : R) : R :=
  newton (iters e) e meanAnomaly meanAnomaly.

Definition orbitalPlane (meanAnomaly a b e : R) : R * R :=
  let E := eccentricAnomaly meanAnomaly e in
  (a * (cos E - e), b * sin E).

Definition solverPoint (a b e cosNode sinNode cosInc sinInc E : R) : Vec3 :=
  let xOrb := a * (cos E - e) in
  let yOrb := b * sin E in
  Vector3.mk
    (cosNode * xOrb - sinNode * cosInc * yOrb)
    (sinInc * yOrb)
    (sinNode * xOrb + cosNode * cosInc * yOrb).

(** [createOrbitLine]: the vertex list [pts] of the [LineLoop]. *)
Definition createOrbitLine
    (a b e cosNode sinNode cosInc sinInc : R) : list Vec3 :=
  let N := 256%nat in
  map (fun i =>
         let E := (INR i / INR N) * PI * 2 in
         let xOrb := a * (cos E - e) in
         let yOrb := b * sin E in
         Vector3.mk
           (cosNode * xOrb - sinNode * cosInc * yOrb)
           (sinInc * yOrb)
           (sinNode * xOrb + cosNode * cosInc * yOrb))
      (seq 0 N).

(** The body of the loop of [createOrbitLine] as a function of [E]: the
    parametric point of the drawn curve. *)
Definition linePoint (a b e cosNode sinNode cosInc sinInc E : R) : Vec3 :=
  let xOrb := a * (cos E - e) in
  let yOrb := b * sin E in
  Vector3.mk
    (cosNode * xOrb - sinNode * cosInc * yOrb)
    (sinInc * yOrb)
    (sinNode * xOrb + cosNode * cosInc * yOrb).

(** Eccentricity of a planet as [buildSolarSystem] derives it from the
    record: [Math.min((planet.eccentricity ?? 0) * ECCENTRICITY_BOOST, 0.70)]. *)
Definition ECCENTRICITY_BOOST : R := 1.
Definition INCLINATION_BOOST : R := 2.

Definition planetEccentricity (eccentricity : option R) : R :=
  Rmin (nullish eccentricity 0 * ECCENTRICITY_BOOST) 0.70.

End Kepler.

(* ================================================================= *)
(** ** Simulation speed control *)

Module Speed.

(** [simulationSpeed = signal(0.25)]. *)
Definition initial : R := 0.25.

(** [v => v === 0 ? 0.125 : Math.min(v * 2, 64)]. *)
Definition increaseSpeed (v : R) : R :=
  if eqb v 0 then 0.125 else Rmin (v * 2) 64.

(** [v => v <= 0.125 ? 0 : v / 2]. *)
Definition decreaseSpeed (v : R) : R :=
  if leb v 0.125 then 0 else v / 2.

Definition resetSpeed (_ : R) : R := 0.25.

End Speed.

(* ================================================================= *)
(** ** Body records and the scene objects built from them *)

(** [Planet] of models/planet.model.ts, with the optional [is_comet] flag
    the component sets on comets.  The orbital elements are read through
    [??] in the component, so they are optional here. *)
Module Planet.

Record t : Type := mk {
  name : string;
  name_sr : string;
  radius : R;
  distance_from_sun : R;
  orbital_period : R;
  rotation_period : R;
  color : string;
  description : string;
  satellites : Z;
  notable_satellites : list string;
  is_star : bool;
  is_asteroid_belt : option bool;
  is_oort_cloud : option bool;
  is_comet : option bool;
  eccentricity : option R;
  inclination : option R;
  ascending_node : option R
}.

End Planet.

(** [PlanetObject]: a mesh is kept as the fields the frame loop writes
    (position, rotation about y, scale of the hit sphere). *)
Module PlanetObject.

Record t : Type := mk {
  planet : Planet.t;            (* mesh.userData.planet *)
  mesh_position : Vec3;
  mesh_rotation_y : R;
  hitMesh_position : Vec3;
  hitMesh_scale : R;
  visualRadius : Entry;         (* VISUAL_SIZES[planet.name] ?? 1 *)
  speed : R;
  meanAnomaly : R;
  rotationDir : R;
  a : R;
  b : R;
  e : R;
  cosNode : R;
  sinNode : R;
  cosInc : R;
  sinInc : R;
  ring_position : option Vec3   (* ring?: Saturn only *)
}.

End PlanetObject.

Module CometObject.

Record t : Type := mk {
  planet : Planet.t;
  mesh_position : Vec3;
  mesh_rotation_y : R;
  hitMesh_position : Vec3;
  hitMesh_scale : R;
  tail_end : Vec3;              (* vertex 1 of tailGeo *)
  tailLine_position : Vec3;
  perihelionVis : R;
  speed : R;
  meanAnomaly : R;
  a : R;
  b : R;
  e : R;
  cosNode : R;
  sinNode : R;
  cosInc : R;
  sinInc : R
}.

End CometObject.

(** [MoonObject].  [parentPlanetObj] is a reference to a [PlanetObject]
    shared with [planetObjects]; it is kept as the index of that object in
    [planetObjects], so a moon reads the position its parent has now. *)
Module MoonObject.

Record t : Type := mk {
  mesh_position : Vec3;
  orbitLine_position : Vec3;
  orbitRadius : R;
  speed : R;
  angle : R;
  cosInc : R;
  sinInc : R;
  parentPlanetObj : nat
}.

End MoonObject.

(** The camera transition [_zoomAnim]. *)
Module ZoomAnim.

Record t : Type := mk {
  fromCam : Vec3;
  toCam : Vec3;
  fromTarget : Vec3;
  toTarget : Vec3;
  t_ : R                        (* progress 0 -> 1, field [t] *)
}.

End ZoomAnim.

Module Scene.

Definition HIT_RADIUS : R := 5.
Definition HIT_PX : R := 30.

Definition VISUAL_SIZES : list (string * R) :=
  [ ("Sun"%string, 1.8); ("Mercury"%string, 0.7); ("Venus"%string, 1.1);
    ("Earth"%string, 1.2); ("Mars"%string, 0.9); ("Jupiter"%string, 3.2);
    ("Saturn"%string, 2.8); ("Uranus"%string, 2.2); ("Neptune"%string, 2.1) ].

(** [VISUAL_SIZES[name]]: the number under an own key; for a name that is
    not a key, the member of that name inherited from [Object.prototype]
    if there is one, and [undefined] otherwise. *)
Fixpoint lookup (tbl : list (string * R)) (key : string) : option Entry :=
  match tbl with
  | [] =>
      if existsb (String.eqb key) OBJECT_PROTOTYPE then Some inherited
      else None
  | (k, v) :: rest =>
      if String.eqb k key then Some (numeric v) else lookup rest key
  end.

Definition ASTEROID_BELT_PLANET : Planet.t :=
  Planet.mk "Asteroid Belt" "Asteroidni pojas" 0 2.7 0 0 "#aa9966"
    "Asteroidni pojas je region između orbita Marsa i Jupitera koji sadrži veliki broj asteroida, patuljastih planeta i manjih tela. Nastao je u ranom Solarnom sistemu kada je gravitacija Jupitera sprečila formiranje pune planete. Ukupna masa pojasa iznosi svega oko 4% mase Meseca."
    0 [] false (Some true) None None (Some 0) (Some 0) (Some 0).

Definition OORT_CLOUD_PLANET : Planet.t :=
  Planet.mk "Oort Cloud" "Ortov oblak" 0 50000 0 0 "#aaccff"
    "Ortov oblak je hipotetička sferična ljuska koja okružuje Solarni sistem i proteže se do pola udaljenosti do najbliže zvezde. Smatra se da je izvor dugoperiodičnih kometa. Nikada nije direktno posmatran — njegovo postojanje se zaključuje iz putanja kometa."
    0 [] false None (Some true) None (Some 0) (Some 0) (Some 0).

(** The camera and the part of [OrbitControls] the component reads and
    writes.  [Internal] stands for the private (damping) state of the
    controls. *)
Record Camera : Type := mkCamera {
  position : Vec3;
  fov : R
}.

Record Controls (Internal : Type) : Type := mkControls {
  enabled : bool;
  target : Vec3;
  minDistance : R;
  maxDistance : R;
  internal : Internal
}.

Arguments mkControls {Internal}.
Arguments enabled {Internal}.
Arguments target {Internal}.
Arguments minDistance {Internal}.
Arguments maxDistance {Internal}.
Arguments internal {Internal}.

(** Mutable state of the component. *)
Record State (Internal : Type) : Type := mkState {
  simulationSpeed : R;
  hoveredPlanet : option (string * string);   (* { name, color } *)
  camera : Camera;
  controls : Controls Internal;
  clientHeight : Z;                           (* canvas.clientHeight *)
  planetObjects : list PlanetObject.t;
  cometObjects : list CometObject.t;
  moonObjects : list MoonObject.t;
  zoomAnim : option ZoomAnim.t;
  sunHitMesh_scale : option R;                (* sunHitMesh?.scale *)
  asteroidBelt_rotation_y : option R;         (* asteroidBelt?.rotation.y *)
  hitRing_scale : R;                          (* belt ring proxy *)
  oortSphere_scale : R                        (* Oort-cloud sphere proxy *)
}.

Arguments mkState {Internal}.
Arguments simulationSpeed {Internal}.
Arguments hoveredPlanet {Internal}.
Arguments camera {Internal}.
Arguments controls {Internal}.
Arguments clientHeight {Internal}.
Arguments planetObjects {Internal}.
Arguments cometObjects {Internal}.
Arguments moonObjects {Internal}.
Arguments zoomAnim {Internal}.
Arguments sunHitMesh_scale {Internal}.
Arguments asteroidBelt_rotation_y {Internal}.
Arguments hitRing_scale {Internal}.
Arguments oortSphere_scale {Internal}.

(** World radius of a sphere proxy: geometry radius times uniform scale. *)
Definition proxyWorldRadius (scale : R) : R := HIT_RADIUS * scale.

Definition keplerToWorld (obj : PlanetObject.t) : Vec3 :=
  Kepler.solveKepler
    (PlanetObject.meanAnomaly obj) (PlanetObject.a obj) (PlanetObject.b obj)
    (PlanetObject.e obj) (PlanetObject.cosNode obj) (PlanetObject.sinNode obj)
    (PlanetObject.cosInc obj) (PlanetObject.sinInc obj).

Definition keplerCometToWorld (obj : CometObject.t) : Vec3 :=
  Kepler.solveKepler
    (CometObject.meanAnomaly obj) (CometObject.a obj) (CometObject.b obj)
    (CometObject.e obj) (CometObject.cosNode obj) (CometObject.sinNode obj)
    (CometObject.cosInc obj) (CometObject.sinInc obj).

(** ** One frame: [animate] *)

(** [canvas.clientHeight / 2 || 1]. *)
Definition halfH_of (clientHeight : Z) : R := num_or (IZR clientHeight / 2) 1.

(** [Math.tan((this.camera.fov * Math.PI) / 360)]. *)
Definition tanHalfFov_of (fov : R) : R := tan ((fov * PI) / 360).

(** [(HIT_PX / halfH) * dist * tanHalfFov]. *)
Definition hitWorldR (halfH dist tanHalfFov : R) : R :=
  (HIT_PX / halfH) * dist * tanHalfFov.

(** Body of the loop over [planetObjects]. *)
Definition animatePlanet
    (speed halfH tanHalfFov : R) (cameraPos : Vec3)
    (obj : PlanetObject.t) : PlanetObject.t :=
  let meanAnomaly := PlanetObject.meanAnomaly obj + PlanetObject.speed obj * speed in
  let pos :=
    Kepler.solveKepler meanAnomaly (PlanetObject.a obj) (PlanetObject.b obj)
      (PlanetObject.e obj) (PlanetObject.cosNode obj) (PlanetObject.sinNode obj)
      (PlanetObject.cosInc obj) (PlanetObject.sinInc obj) in
  let dist := Vector3.distanceTo cameraPos pos in
  let hitR := hitWorldR halfH dist tanHalfFov in
  PlanetObject.mk
    (PlanetObject.planet obj)
    pos
    (PlanetObject.mesh_rotation_y obj + PlanetObject.rotationDir obj * 0.005)
    pos
    (hitR / HIT_RADIUS)
    (PlanetObject.visualRadius obj)
    (PlanetObject.speed obj)
    meanAnomaly
    (PlanetObject.rotationDir obj)
    (PlanetObject.a obj) (PlanetObject.b obj) (PlanetObject.e obj)
    (PlanetObject.cosNode obj) (PlanetObject.sinNode obj)
    (PlanetObject.cosInc obj) (PlanetObject.sinInc obj)
    (match PlanetObject.ring_position obj with
     | Some _ => Some pos
     | None => None
     end).

(** The [if (this.sunHitMesh)] block: the Sun proxy sits at the origin. *)
Definition animateSun
    (halfH tanHalfFov : R) (cameraPos : Vec3) (sun : option R) : option R :=
  match sun with
  | Some _ =>
      let sunDist := Vector3.distanceTo cameraPos (Vector3.mk 0 0 0) in
      let sunHitR := hitWorldR halfH sunDist tanHalfFov in
      Some (sunHitR / HIT_RADIUS)
  | None => None
  end.

(** Body of the loop over [moonObjects]; [planets] is [planetObjects] as the
    planet loop of the same frame left it.  A reference cannot dangle in the
    component; for an index outside the list the moon is left as it is. *)
Definition animateMoon
    (speed : R) (planets : list PlanetObject.t)
    (obj : MoonObject.t) : MoonObject.t :=
  match nth_error planets (MoonObject.parentPlanetObj obj) with
  | Some parent =>
      let angle := MoonObject.angle obj + MoonObject.speed obj * speed in
      let pp := PlanetObject.mesh_position parent in
      let x := cos angle * MoonObject.orbitRadius obj in
      let zOrb := sin angle * MoonObject.orbitRadius obj in
      MoonObject.mk
        (Vector3.mk (Vector3.x pp + x)
                    (Vector3.y pp + MoonObject.sinInc obj * zOrb)
                    (Vector3.z pp + MoonObject.cosInc obj * zOrb))
        pp
        (MoonObject.orbitRadius obj)
        (MoonObject.speed obj)
        angle
        (MoonObject.cosInc obj) (MoonObject.sinInc obj)
        (MoonObject.parentPlanetObj obj)
  | None => obj
  end.

(** Body of the loop over [cometObjects]. *)
Definition animateComet
    (speed halfH tanHalfFov : R) (cameraPos : Vec3)
    (obj : CometObject.t) : CometObject.t :=
  let meanAnomaly := CometObject.meanAnomaly obj + CometObject.speed obj * speed in
  let pos :=
    Kepler.solveKepler meanAnomaly (CometObject.a obj) (CometObject.b obj)
      (CometObject.e obj) (CometObject.cosNode obj) (CometObject.sinNode obj)
      (CometObject.cosInc obj) (CometObject.sinInc obj) in
  let cometDist := Vector3.distanceTo cameraPos pos in
  let cometHitR := hitWorldR halfH cometDist tanHalfFov in
  let distFromSun := Vector3.length pos in
  let tailLength := 55 * exp (- distFromSun / (3 * CometObject.perihelionVis obj)) in
  let antiSolar := Vector3.multiplyScalar (Vector3.normalize pos) tailLength in
  CometObject.mk
    (CometObject.planet obj)
    pos
    (CometObject.mesh_rotation_y obj + 0.003)
    pos
    (cometHitR / HIT_RADIUS)
    antiSolar
    pos
    (CometObject.perihelionVis obj)
    (CometObject.speed obj)
    meanAnomaly
    (CometObject.a obj) (CometObject.b obj) (CometObject.e obj)
    (CometObject.cosNode obj) (CometObject.sinNode obj)
    (CometObject.cosInc obj) (CometObject.sinInc obj).

(** The progress update [Math.min(a.t + 0.04, 1)] and the easing curve. *)
Definition advance (t : R) : R := Rmin (t + 0.04) 1.

Definition ease (t : R) : R :=
  if ltb t 0.5 then 4 * t ^ 3 else 1 - (-2 * t + 2) ^ 3 / 2.

Section Frame.

Context {Internal : Type}.

(** [this.controls.update()], a method of the external [OrbitControls]. *)
Variable controls_update :
  Camera -> Controls Internal -> Camera * Controls Internal.

(** The [if (this._zoomAnim)] block. *)
Definition animateZoom
    (cam : Camera) (ctl : Controls Internal) (anim : option ZoomAnim.t)
    : Camera * Controls Internal * option ZoomAnim.t :=
  match anim with
  | Some a =>
      let t := advance (ZoomAnim.t_ a) in
      let k := ease t in
      let cam' :=
        mkCamera (Vector3.lerpVectors (ZoomAnim.fromCam a) (ZoomAnim.toCam a) k)
                 (fov cam) in
      let tgt :=
        Vector3.lerpVectors (ZoomAnim.fromTarget a) (ZoomAnim.toTarget a) k in
      if geb t 1
      then (cam',
            mkControls true tgt (minDistance ctl) (maxDistance ctl) (internal ctl),
            None)
      else (cam',
            mkControls (enabled ctl) tgt (minDistance ctl) (maxDistance ctl)
                       (internal ctl),
            Some (ZoomAnim.mk (ZoomAnim.fromCam a) (ZoomAnim.toCam a)
                              (ZoomAnim.fromTarget a) (ZoomAnim.toTarget a) t))
  | None => (cam, ctl, None)
  end.

Definition animate (s : State Internal) : State Internal :=
  let speed := simulationSpeed s in
  let halfH := halfH_of (clientHeight s) in
  let tanHalfFov := tanHalfFov_of (fov (camera s)) in
  let cameraPos := position (camera s) in
  let planets := map (animatePlanet speed halfH tanHalfFov cameraPos) (planetObjects s) in
  let sun := animateSun halfH tanHalfFov cameraPos (sunHitMesh_scale s) in
  let moons := map (animateMoon speed planets) (moonObjects s) in
  let comets := map (animateComet speed halfH tanHalfFov cameraPos) (cometObjects s) in
  let belt :=
    match asteroidBelt_rotation_y s with
    | Some r => Some (r - 0.00008 * speed)
    | None => None
    end in
  let '(cam1, ctl1, anim) := animateZoom (camera s) (controls s) (zoomAnim s) in
  let '(cam2, ctl2) := controls_update cam1 ctl1 in
  mkState speed (hoveredPlanet s) cam2 ctl2 (clientHeight s)
          planets comets moons anim sun belt
          (hitRing_scale s) (oortSphere_scale s).

End Frame.

End Scene.

(* ================================================================= *)
(** ** Pointer and camera handlers *)

Module Interaction.

Import Scene.

(** What the component emits through its two outputs. *)
Inductive Signal : Type :=
  | planetSelected (p : Planet.t)
  | closeInfo.

(** The object of a ray intersection: a member of [hitMeshes], seen through
    the fields the handlers read ([userData] and [position]). *)
Record HitObject : Type := mkHit {
  userData_planet : option Planet.t;
  userData_glowMesh : bool;
  userData_isAsteroidBelt : bool;
  hit_position : Vec3
}.

(** The proxy [createOortCloudHitSphere] registers: no glow, at the origin. *)
Definition oortProxy : HitObject :=
  mkHit (Some OORT_CLOUD_PLANET) false false (Vector3.mk 0 0 0).

Section Handlers.

Context {Internal : Type}.

Definition setHovered
    (h : option (string * string)) (s : State Internal) : State Internal :=
  mkState (simulationSpeed s) h (camera s) (controls s) (clientHeight s)
          (planetObjects s) (cometObjects s) (moonObjects s) (zoomAnim s)
          (sunHitMesh_scale s) (asteroidBelt_rotation_y s)
          (hitRing_scale s) (oortSphere_scale s).

(** [onControlsStart]: the listener of the [start] event of OrbitControls. *)
Definition onControlsStart (s : State Internal)
    : State Internal * list Signal :=
  match hoveredPlanet s with
  | Some _ => (setHovered None s, [])
  | None => (s, [])
  end.

(** [onCanvasZoom]: the listener of the canvas [wheel] event. *)
Definition onCanvasZoom (s : State Internal)
    : State Internal * list Signal :=
  (s, [closeInfo]).

(** [onCanvasTouchStart]: the listener of the canvas [touchstart] event;
    [touches] is [e.touches.length]. *)
Definition onCanvasTouchStart (touches : nat) (s : State Internal)
    : State Internal * list Signal :=
  if (2 <=? touches)%nat then (s, [closeInfo]) else (s, []).

(** [onCanvasClick]; [hits] is the result of [intersectObjects]. *)
Definition onCanvasClick (hits : list HitObject) (s : State Internal)
    : State Internal * list Signal :=
  match hits with
  | h :: _ =>
      match userData_planet h with
      | Some planet =>
          if truthy (Planet.is_oort_cloud planet)
             && leb (Vector3.length (position (camera s))) 1800
          then (s, [])
          else (s, [planetSelected planet])
      | None => (s, [])
      end
  | [] => (s, [])
  end.

(** The zoom distance chosen by [onCanvasDblClick]; [None] stands for NaN.
    For a name that reads an inherited member, [visR] is a function or an
    object, [visR * 8] is NaN and so is [Math.max] of it. *)
Definition zoomDistOf (planet : Planet.t) (minDist : R) : option R :=
  if truthy (Planet.is_asteroid_belt planet) then Some 120
  else if truthy (Planet.is_comet planet) then Some 20
  else
    let visR := nullish (lookup VISUAL_SIZES (Planet.name planet)) (numeric 2) in
    match visR with
    | numeric v => Some (Rmax (v * 8) (minDist + 5))
    | inherited => None
    end.

(** [onCanvasDblClick]: the state it leaves and the signals it emits.
    With a zoom distance that is NaN every coordinate of [toCam] is NaN;
    the state holds real coordinates only, so that one state is given as
    [None].  The signals are emitted all the same. *)
Definition onCanvasDblClick (hits : list HitObject) (s : State Internal)
    : option (State Internal) * list Signal :=
  match hits with
  | [] => (Some s, [])
  | h :: _ =>
      match userData_planet h with
      | None => (Some s, [])
      | Some planet =>
          if truthy (Planet.is_oort_cloud planet) then (Some s, [])
          else
            let targetPos := hit_position h in
            match zoomDistOf planet (minDistance (controls s)) with
            | Some zoomDist =>
                let dir :=
                  Vector3.normalize
                    (Vector3.sub (position (camera s)) targetPos) in
                let toCam := Vector3.addScaledVector targetPos dir zoomDist in
                let ctl := controls s in
                (Some
                   (mkState (simulationSpeed s) None (camera s)
                      (mkControls false (target ctl) (minDistance ctl)
                                  (maxDistance ctl) (internal ctl))
                      (clientHeight s)
                      (planetObjects s) (cometObjects s) (moonObjects s)
                      (Some (ZoomAnim.mk (position (camera s)) toCam
                                         (target ctl) targetPos 0))
                      (sunHitMesh_scale s) (asteroidBelt_rotation_y s)
                      (hitRing_scale s) (oortSphere_scale s)),
                 [closeInfo])
            | None => (None, [closeInfo])
            end
      end
  end.

(** A fact about the external ray caster, which hands the handlers their
    hits.  A body's proxy is a sphere with a front-side material, centred
    on the proxy's position.  A ray that starts at that position meets the
    sphere only from behind, where the faces are culled, and a proxy
    scaled to 0 has no surface: an intersection with a body's proxy is
    never for a ray whose origin, the camera, is at the proxy's position. *)
Definition rayReaches (origin : Vec3) (h : HitObject) : Prop :=
  hit_position h <> origin.

(** The events that start a camera manipulation, each with the listener
    the component registers for it. *)
Inductive CameraStart : Type :=
  | ControlsStart                 (* OrbitControls [start]: rotate, pan, zoom *)
  | CanvasWheel                   (* canvas [wheel] *)
  | CanvasTouchStart (touches : nat).  (* canvas [touchstart] *)

Definition onCameraStart (ev : CameraStart) (s : State Internal)
    : State Internal * list Signal :=
  match ev with
  | ControlsStart => onControlsStart s
  | CanvasWheel => onCanvasZoom s
  | CanvasTouchStart n => onCanvasTouchStart n s
  end.

End Handlers.

End Interaction.

(* ================================================================= *)
(** ** Building the scene objects *)

Module Build.

Import Scene.

(** [getOrbitRadius]: 1 AU = 35 visual units. *)
Definition getOrbitRadius (distanceAU : R) : R := distanceAU * 35.

(** Body of the loop of [buildSolarSystem] for a body that is not the star.
    [startM] is the value of [Math.random() * Math.PI * 2]. *)
Definition newPlanetObject (planet : Planet.t) (startM : R) : PlanetObject.t :=
  let visualRadius :=
    nullish (lookup VISUAL_SIZES (Planet.name planet)) (numeric 1) in
  let a := getOrbitRadius (Planet.distance_from_sun planet) in
  let e := Kepler.planetEccentricity (Planet.eccentricity planet) in
  let b := a * sqrt (1 - e * e) in
  let incDeg := nullish (Planet.inclination planet) 0 * Kepler.INCLINATION_BOOST in
  let incRad := (incDeg * PI) / 180 in
  let nodeRad := (nullish (Planet.ascending_node planet) 0 * PI) / 180 in
  let cosNode := cos nodeRad in
  let sinNode := sin nodeRad in
  let cosInc := cos incRad in
  let sinInc := sin incRad in
  let speed := (365.25 / Planet.orbital_period planet) * 0.006 in
  let rotationDir := if ltb (Planet.rotation_period planet) 0 then -1 else 1 in
  let initPos := Kepler.solveKepler startM a b e cosNode sinNode cosInc sinInc in
  PlanetObject.mk planet initPos 0 initPos 1
    visualRadius speed startM rotationDir
    a b e cosNode sinNode cosInc sinInc
    (if String.eqb (Planet.name planet) "Saturn"
     then Some (Vector3.mk 0 0 0) else None).

(** An entry of [COMET_DEFS]. *)
Record CometDef : Type := mkCometDef {
  cd_name : string;
  cd_nameSr : string;
  cd_color : string;
  cd_description : string;
  cd_a : R;
  cd_e : R;
  cd_inc : R;
  cd_node : R;
  cd_period : R;
  cd_radius : R;
  cd_rotPeriod : R;
  cd_startFraction : R
}.

Definition COMET_DEFS : list CometDef :=
  [ mkCometDef "Halley" "1P/Halley" "#99ccff"
      "Halleyjeva kometa je najpoznatija periodična kometa, vidljiva golim okom svaka 75–76 godina. Ima retrogradno kretanje — kruži oko Sunca suprotno od planeta. Poslednji perihelij bio je 1986. godine; sledeći se očekuje 2061."
      17.834 0.96714 162.26 58.42 75.32 11 2.2 0.42;
    mkCometDef "Encke" "2P/Encke" "#aaffcc"
      "Enkejeva kometa ima najkraći poznati orbitalni period (~3.3 godine). Prolazi bliže Suncu od Merkura i izvor je Tauridnog meteorskog roja."
      2.2179 0.84823 11.78 334.57 3.30 4.8 11.1 0.10;
    mkCometDef "67P" "67P/Čurjumov-Gerasimenko" "#ffddaa"
      "Kometa 67P/Čurjumov-Gerasimenko postala je svetski poznata zahvaljujući ESA-inoj misiji Rozeta (2004–2016) — prvom svemirskom brodu koji je ušao u orbitu komete i sleteo na njenu površinu."
      3.463 0.641 7.04 50.14 6.44 2.5 12.4 0.25 ].

(** Body of the loop of [createComets]. *)
Definition newCometObject (def : CometDef) : CometObject.t :=
  let planet :=
    Planet.mk (cd_name def) (cd_nameSr def) (cd_radius def) (cd_a def)
      (cd_period def * 365.25) (cd_rotPeriod def) (cd_color def)
      (cd_description def) 0 [] false None None (Some true)
      (Some (cd_e def)) (Some (cd_inc def)) (Some (cd_node def)) in
  let a := getOrbitRadius (cd_a def) in
  let e := cd_e def in
  let b := a * sqrt (1 - e * e) in
  let incRad := (cd_inc def * PI) / 180 in
  let nodeRad := (cd_node def * PI) / 180 in
  let cosNode := cos nodeRad in
  let sinNode := sin nodeRad in
  let cosInc := cos incRad in
  let sinInc := sin incRad in
  let perihelionVis := a * (1 - e) in
  let speed := (1 / cd_period def) * 0.006 in
  let meanAnomaly := cd_startFraction def * PI * 2 in
  let initPos :=
    Kepler.solveKepler meanAnomaly a b e cosNode sinNode cosInc sinInc in
  CometObject.mk planet initPos 0 initPos 1 (Vector3.mk 0 0 0) initPos
    perihelionVis speed meanAnomaly a b e cosNode sinNode cosInc sinInc.

Definition createComets : list CometObject.t := map newCometObject COMET_DEFS.

(** Body of the loop of [createMoons] once the parent is found at index
    [parent] of [planetObjects]; [startAngle] is the random start angle. *)
Definition newMoonObject
    (orbitVis periodDays incDeg : R) (parent : nat) (pp : Vec3)
    (startAngle : R) : MoonObject.t :=
  let orbitRadius := orbitVis in
  let incRad := (incDeg * PI) / 180 in
  let cosInc := cos incRad in
  let sinInc := sin incRad in
  let speed := (365.25 / periodDays) * 0.006 in
  let x0 := cos startAngle * orbitRadius in
  let z0 := sin startAngle * orbitRadius in
  MoonObject.mk
    (Vector3.mk (Vector3.x pp + x0) (Vector3.y pp + sinInc * z0)
                (Vector3.z pp + cosInc * z0))
    pp orbitRadius speed startAngle cosInc sinInc parent.

End Build.

(* ================================================================= *)
(** ** Runs of frames and the state a frame leaves behind *)

Module Frames.

Import Scene.

(** [n] consecutive frames. *)
Definition frames {Internal : Type}
    (controls_update : Camera -> Controls Internal -> Camera * Controls Internal)
    (n : nat) (s : State Internal) : State Internal :=
  Nat.iter n (animate controls_update) s.

(** Where the moon loop puts a moon whose parent is at [pp]. *)
Definition moonPlace (pp : Vec3) (m : MoonObject.t) : Vec3 :=
  Vector3.mk
    (Vector3.x pp + cos (MoonObject.angle m) * MoonObject.orbitRadius m)
    (Vector3.y pp
     + MoonObject.sinInc m * (sin (MoonObject.angle m) * MoonObject.orbitRadius m))
    (Vector3.z pp
     + MoonObject.cosInc m * (sin (MoonObject.angle m) * MoonObject.orbitRadius m)).

(** A body is settled when its mesh sits where its current anomaly (or
    angle) puts it: what the constructors and every frame establish. *)
Definition planetSettled (p : PlanetObject.t) : Prop :=
  PlanetObject.mesh_position p = keplerToWorld p.

Definition cometSettled (c : CometObject.t) : Prop :=
  CometObject.mesh_position c = keplerCometToWorld c.

Definition moonSettled (planets : list PlanetObject.t) (m : MoonObject.t) : Prop :=
  exists parent : PlanetObject.t,
    nth_error planets (MoonObject.parentPlanetObj m) = Some parent /\
    MoonObject.mesh_position m = moonPlace (PlanetObject.mesh_position parent) m.

Definition settled {Internal : Type} (s : State Internal) : Prop :=
  Forall planetSettled (planetObjects s) /\
  Forall cometSettled (cometObjects s) /\
  Forall (moonSettled (planetObjects s)) (moonObjects s).

End Frames.

(* ================================================================= *)
(** ** Sample scenes *)

Module Examples.

Import Scene.

(** The record the data service returns for Jupiter. *)
Definition Jupiter : Planet.t :=
  Planet.mk "Jupiter" "Jupiter" 69911 5.204 4332.59 0.41 "#C88B3A"
    "Jupiter je najveći planet u Solarnom sistemu. Čuvena Velika Crvena Mrlja je oluja koja traje više od 350 godina. Ima 4 velika Galilejeva meseca."
    95 ["Io"; "Evropa"; "Ganimed"; "Kalisto"; "Amalthea"; "Himalia"]%string
    false None None None (Some 0.0490) (Some 1.303) (Some 100.556).

(** Camera and controls as [initScene] sets them up. *)
Definition initialCamera : Camera := mkCamera (Vector3.mk 0 450 1100) 55.

Definition initialControls : Controls unit :=
  mkControls true (Vector3.mk 0 0 0) 15 6000 tt.

(** A stand-in for [OrbitControls.update] that leaves the camera alone. *)
Definition stillControls (c : Camera) (k : Controls unit)
    : Camera * Controls unit := (c, k).

(** A scene with the given camera position and hover, and no orbiting body. *)
Definition bareScene (cameraPos : Vec3) (hovered : option (string * string))
    : State unit :=
  mkState 0.25 hovered (mkCamera cameraPos 55) initialControls 800
          [] [] [] None (Some 1) (Some 0) 1 1.

(** A planet on a circular orbit of radius 1 at mean anomaly 0, a moon
    around it and a comet on the same kind of orbit, all settled, in a
    paused scene. *)
Definition unitPlanet : PlanetObject.t :=
  PlanetObject.mk Jupiter (Vector3.mk 1 0 0) 0 (Vector3.mk 1 0 0) 1
    (numeric 3.2) 0.006 0 1 1 1 0 1 0 1 0 None.

Definition unitMoon : MoonObject.t :=
  MoonObject.mk (Vector3.mk 2 0 0) (Vector3.mk 1 0 0) 1 0.5 0 1 0 0%nat.

Definition unitComet : CometObject.t :=
  CometObject.mk Jupiter (Vector3.mk 1 0 0) 0 (Vector3.mk 1 0 0) 1
    (Vector3.mk 0 0 0) (Vector3.mk 1 0 0) 1 0.006 0 1 1 0 1 0 1 0.

Definition pausedScene : State unit :=
  mkState 0 None initialCamera initialControls 800
          [unitPlanet] [unitComet] [unitMoon] None (Some 1) (Some 0) 1 1.

(** A hit on Jupiter's proxy at the given position. *)
Definition jupiterHit (pos : Vec3) : Interaction.HitObject :=
  Interaction.mkHit (Some Jupiter) true false pos.

End Examples.

(* ================================================================= *)
(** ** Rational enclosures, used to evaluate the solver at a given input *)

(** A ball [mid +/- rad] with rational centre and radius encloses a real [x]
    when [|x - mid| <= rad].  The operations below enclose the arithmetic
    of the solver; [sinB] and [cosB] enclose sine and cosine between two
    consecutive alternating Taylor sums, evaluated in Horner form. *)
Module Enclosure.

Record ball : Type := mkBall { mid : Q; rad : Q }.

Definition contains (b : ball) (x : R) : Prop :=
  Rabs (x - Q2R (mid b)) <= Q2R (rad b).

(** The alternating Taylor tail
    [sum_{j <= m} (-1)^j x^j (2k+d)! / (2(k+j)+d)!] in Horner form; with
    [x = a * a] it gives the partial sums of cosine ([d = 0]) and, times
    [a], of sine ([d = 1]). *)
Fixpoint tailR (x : R) (d k m : nat) : R :=
  match m with
  | O => 1
  | S m' =>
      1 - x * tailR x d (S k) m' / IZR (Z.of_nat ((2 * k + d + 1) * (2 * k + d + 2)))
  end.

Local Open Scope Q_scope.

(** Centres and radii are kept on the grid of multiples of [1 / grid]. *)
Definition grid : positive := 10000000000000000.

(** Move the centre to the grid and widen the radius by the move. *)
Definition roundB (b : ball) : ball :=
  let c := Qfloor (mid b * inject_Z (Zpos grid)) # grid in
  let w := rad b + Qabs (mid b - c) in
  let r := Qceiling (w * inject_Z (Zpos grid)) # grid in
  if Qle_bool w r then mkBall c r else b.

Definition constB (q : Q) : ball := mkBall q 0.

Definition subB (a b : ball) : ball :=
  mkBall (mid a - mid b) (rad a + rad b).

Definition mulB (a b : ball) : ball :=
  mkBall (mid a * mid b)
         (Qabs (mid a) * rad b + Qabs (mid b) * rad a + rad a * rad b).

(** Division by a positive integer. *)
Definition divnB (a : ball) (n : Z) : ball :=
  mkBall (mid a / inject_Z n) (rad a / inject_Z n).

(** Division by a ball that lies to the right of zero. *)
Definition divB (n d : ball) : option ball :=
  if negb (Qle_bool (mid d) (rad d)) then
    Some (mkBall (mid n / mid d)
                 ((rad n * mid d + Qabs (mid n) * rad d)
                  / ((mid d - rad d) * mid d)))
  else None.

(** The smallest ball around [[lo.mid - lo.rad, hi.mid + hi.rad]]. *)
Definition hullB (lo hi : ball) : ball :=
  let a := mid lo - rad lo in
  let b := mid hi + rad hi in
  mkBall ((a + b) / 2) ((b - a) / 2).

Fixpoint tailB (x : ball) (d k m : nat) : ball :=
  match m with
  | O => constB 1
  | S m' =>
      roundB
        (subB (constB 1)
              (divnB (mulB x (tailB x d (S k) m'))
                     (Z.of_nat ((2 * k + d + 1) * (2 * k + d + 2)))))
  end.

(** Taylor sums run to index [2 * order + 1] and [2 * order + 2]. *)
Definition order : nat := 4.

Definition sinTaylor (E : ball) : ball :=
  let X := roundB (mulB E E) in
  roundB (hullB (mulB E (tailB X 1 0 (2 * order + 1)))
                (mulB E (tailB X 1 0 (2 * (order + 1))))).

Definition cosTaylor (E : ball) : ball :=
  let X := roundB (mulB E E) in
  roundB (hullB (tailB X 0 0 (2 * order + 1))
                (tailB X 0 0 (2 * (order + 1)))).

(** The sums bracket sine on [[0, 4]] and cosine on [[-2, 2]]. *)
Definition sinB (E : ball) : option ball :=
  if Qle_bool 0 (mid E - rad E) && Qle_bool (mid E + rad E) 4
  then Some (sinTaylor E) else None.

Definition cosB (E : ball) : option ball :=
  if Qle_bool (-2) (mid E - rad E) && Qle_bool (mid E + rad E) 2
  then Some (cosTaylor E) else None.

(** Enclosure of the residual [E - e sin E - M]. *)
Definition residualB (e M : Q) (E : ball) : option ball :=
  match sinB E with
  | Some s => Some (subB (subB E (mulB (constB e) s)) (constB M))
  | None => None
  end.

(** Enclosure of [E - (E - e sin E - M) / (1 - e cos E)]. *)
Definition newtonB (e M : Q) (E : ball) : option ball :=
  match residualB e M E, cosB E with
  | Some num, Some k =>
      match divB num (subB (constB 1) (mulB (constB e) k)) with
      | Some q => Some (roundB (subB E q))
      | None => None
      end
  | _, _ => None
  end.

Fixpoint newtonB_iter (n : nat) (e M : Q) (E : ball) : option ball :=
  match n with
  | O => Some E
  | S m =>
      match newtonB e M E with
      | Some E' => newtonB_iter m e M E'
      | None => None
      end
  end.

(** [true] only if the residual after [n] Newton updates from [E = M] is
    at least [tol]. *)
Definition residual_at_least (n : nat) (e M tol : Q) : bool :=
  match newtonB_iter n e M (constB M) with
  | Some E =>
      match residualB e M E with
      | Some r => Qle_bool tol (mid r - rad r)
      | None => false
      end
  | None => false
  end.

End Enclosure.


(* ================================================================= *)
(** ** Orbit descriptors *)

Module Orbit.

(** What the constructors guarantee about an orbit descriptor: a
    non-negative semi-major axis, an eccentricity in [[0, 1)], the
    semi-minor axis of that ellipse, and rotation terms that are the
    cosine and sine of one angle. *)
Definition descriptorOK (a b e cosNode sinNode cosInc sinInc : R) : Prop :=
  0 <= a /\ 0 <= e < 1 /\ b = a * sqrt (1 - e * e) /\
  cosNode * cosNode + sinNode * sinNode = 1 /\
  cosInc * cosInc + sinInc * sinInc = 1.

Definition planetOK (p : PlanetObject.t) : Prop :=
  descriptorOK (PlanetObject.a p) (PlanetObject.b p) (PlanetObject.e p)
    (PlanetObject.cosNode p) (PlanetObject.sinNode p)
    (PlanetObject.cosInc p) (PlanetObject.sinInc p).

(** For a comet, moreover, the stored perihelion distance is that of the
    ellipse and is positive. *)
Definition cometOK (c : CometObject.t) : Prop :=
  descriptorOK (CometObject.a c) (CometObject.b c) (CometObject.e c)
    (CometObject.cosNode c) (CometObject.sinNode c)
    (CometObject.cosInc c) (CometObject.sinInc c) /\
  CometObject.perihelionVis c = CometObject.a c * (1 - CometObject.e c) /\
  0 < CometObject.perihelionVis c.

(** The fields of a scene object that are set once, at construction. *)
Definition planetElements (p : PlanetObject.t)
    : Planet.t * (Entry * R * R) * (R * R * R) * (R * R * R * R) :=
  (PlanetObject.planet p,
   (PlanetObject.visualRadius p, PlanetObject.speed p, PlanetObject.rotationDir p),
   (PlanetObject.a p, PlanetObject.b p, PlanetObject.e p),
   (PlanetObject.cosNode p, PlanetObject.sinNode p,
    PlanetObject.cosInc p, PlanetObject.sinInc p)).

Definition cometElements (c : CometObject.t)
    : Planet.t * (R * R) * (R * R * R) * (R * R * R * R) :=
  (CometObject.planet c,
   (CometObject.perihelionVis c, CometObject.speed c),
   (CometObject.a c, CometObject.b c, CometObject.e c),
   (CometObject.cosNode c, CometObject.sinNode c,
    CometObject.cosInc c, CometObject.sinInc c)).

Definition moonElements (m : MoonObject.t) : (R * R) * (R * R) * nat :=
  ((MoonObject.orbitRadius m, MoonObject.speed m),
   (MoonObject.cosInc m, MoonObject.sinInc m),
   MoonObject.parentPlanetObj m).

End Orbit.

(* ================================================================= *)
(** ** Moons *)

Module Moon.

(** What [createMoons] guarantees about a moon: a non-negative orbit
    radius and tilt terms that are the cosine and sine of one angle. *)
Definition moonOK (m : MoonObject.t) : Prop :=
  0 <= MoonObject.orbitRadius m /\
  MoonObject.cosInc m * MoonObject.cosInc m
  + MoonObject.sinInc m * MoonObject.sinInc m = 1.

(** The moon's parent reference points into [planetObjects]. *)
Definition parentValid (planets : list PlanetObject.t) (m : MoonObject.t) : Prop :=
  (MoonObject.parentPlanetObj m < List.length planets)%nat.

(** [createMoonOrbitLine]: the vertex list of the moon's orbit circle. *)
Definition createMoonOrbitLine (radius cosInc sinInc : R) : list Vec3 :=
  let N := 64%nat in
  map (fun i =>
         let a := (INR i / INR N) * PI * 2 in
         let xOrb := cos a * radius in
         let zOrb := sin a * radius in
         Vector3.mk xOrb (sinInc * zOrb) (cosInc * zOrb))
      (seq 0 N).

End Moon.

(* ================================================================= *)
(** ** Speeds the controls can reach *)

Module SpeedRuns.

(** The values [simulationSpeed] can take: its initial value, and what
    [increaseSpeed], [decreaseSpeed] and [resetSpeed] make of a value it
    can take. *)
Inductive reachable : R -> Prop :=
  | reach_initial : reachable Speed.initial
  | reach_increase (v : R) : reachable v -> reachable (Speed.increaseSpeed v)
  | reach_decrease (v : R) : reachable v -> reachable (Speed.decreaseSpeed v)
  | reach_reset (v : R) : reachable v -> reachable (Speed.resetSpeed v).

(** The ladder of speeds: paused, or [0.125 * 2^k] up to 64. *)
Definition onLadder (v : R) : Prop :=
  v = 0 \/ exists k : nat, (k <= 9)%nat /\ v = 0.125 * 2 ^ k.

End SpeedRuns.

(* ================================================================= *)
(** ** Pointer coordinates and hover *)

Module Pointer.

Import Scene Interaction.

(** The fields of a [MouseEvent] and of [getBoundingClientRect()] that the
    handlers read. *)
Record MouseEvent : Type := mkMouseEvent { clientX : R; clientY : R }.

Record DOMRect : Type := mkRect { left : R; top : R; width : R; height : R }.

(** [updateMouseCoords]: the value it leaves in [this.mouse]. *)
Definition updateMouseCoords (event : MouseEvent) (rect : DOMRect) : R * R :=
  (((clientX event - left rect) / width rect) * 2 - 1,
   - ((clientY event - top rect) / height rect) * 2 + 1).

(** The fields of [asteroidBeltMat] that the hover handler writes. *)
Record BeltMaterial : Type := mkBeltMaterial { belt_color : Z; belt_size : R }.

(** An intersection as the hover handler sees it.  Every glow mesh is an
    object of its own with a material of its own ([makeGlowMesh]);
    [hit_glow] names the one in [userData.glowMesh] when
    [userData_glowMesh] says there is one. *)
Record PointerHit : Type := mkPointerHit {
  hit_object : HitObject;
  hit_glow : nat
}.

(** An opacity write to the material of glow mesh [g]. *)
Definition setOpacity (g : nat) (v : R) (opacity : nat -> R) : nat -> R :=
  fun i => if Nat.eqb i g then v else opacity i.

Section Hover.

Context {Internal : Type}.

(** The scene state together with what the hover handler keeps: the
    opacity of each glow material, [currentHoveredGlow],
    [currentHoveredBelt], [asteroidBeltMat], the [tooltipPos] signal,
    [this.mouse] and [canvas.style.cursor]. *)
Record HoverState : Type := mkHoverState {
  scene : State Internal;
  glowOpacity : nat -> R;
  currentHoveredGlow : option nat;
  currentHoveredBelt : bool;
  asteroidBeltMat : option BeltMaterial;
  tooltipPos : R * R;
  mouse : R * R;
  cursor : string
}.

(** [onCanvasMouseMove]; [rect] is the canvas rectangle and [hits] the
    result of [intersectObjects]. *)
Definition onCanvasMouseMove
    (event : MouseEvent) (rect : DOMRect) (hits : list PointerHit)
    (st : HoverState) : HoverState :=
  let mouse1 := updateMouseCoords event rect in
  (* Reset previous hover state *)
  let '(opacity1, glow1) :=
    match currentHoveredGlow st with
    | Some g => (setOpacity g 0 (glowOpacity st), None)
    | None => (glowOpacity st, None)
    end in
  let '(mat1, belt1) :=
    match currentHoveredBelt st, asteroidBeltMat st with
    | true, Some _ => (Some (mkBeltMaterial 0x998877 0.35), false)
    | _, _ => (asteroidBeltMat st, currentHoveredBelt st)
    end in
  match hits with
  | h :: _ =>
      let data := hit_object h in
      let '(opacity2, glow2, mat2, belt2) :=
        if userData_glowMesh data
        then (setOpacity (hit_glow h) 0.45 opacity1, Some (hit_glow h),
              mat1, belt1)
        else
          match userData_isAsteroidBelt data, mat1 with
          | true, Some _ =>
              (opacity1, glow1, Some (mkBeltMaterial 0xddccaa 0.55), true)
          | _, _ => (opacity1, glow1, mat1, belt1)
          end in
      let '(scene2, tooltip2) :=
        match userData_planet data with
        | Some planet =>
            let showTooltip :=
              negb (truthy (Planet.is_oort_cloud planet))
              || gtb (Vector3.length (position (camera (scene st)))) 1800 in
            if showTooltip
            then
              let tx := clientX event - left rect + 14 in
              let ty := clientY event - top rect - 10 in
              (setHovered (Some (Planet.name_sr planet, Planet.color planet))
                          (scene st),
               (tx, ty))
            else (setHovered None (scene st), tooltipPos st)
        | None => (scene st, tooltipPos st)
        end in
      mkHoverState scene2 opacity2 glow2 belt2 mat2 tooltip2 mouse1 "pointer"
  | [] =>
      mkHoverState (setHovered None (scene st)) opacity1 glow1 belt1 mat1
                   (tooltipPos st) mouse1 "default"
  end.

(** The state the constructors leave for the hover handler: every glow
    material at opacity 0 ([makeGlowMesh]), nothing hovered, and the belt
    material as [createAsteroidBelt] creates it. *)
Definition initialHover (s : State Internal) : HoverState :=
  mkHoverState s (fun _ => 0) None false
               (Some (mkBeltMaterial 0x998877 0.35)) (0, 0) (0, 0) "".

(** What the hover handler keeps between events: a glow material with an
    opacity other than 0 is the one [currentHoveredGlow] names, and a belt
    material that is not marked as hovered has its resting look. *)
Definition hoverOK (st : HoverState) : Prop :=
  (forall g : nat, glowOpacity st g <> 0 -> currentHoveredGlow st = Some g) /\
  (currentHoveredBelt st = false ->
   forall m, asteroidBeltMat st = Some m -> m = mkBeltMaterial 0x998877 0.35).

End Hover.

Arguments HoverState : clear implicits.

End Pointer.

(* ================================================================= *)
(** ** Camera navigation buttons *)

Module Nav.

Import Scene.

(** three.js [Spherical]: radius, polar angle [phi] from the y axis and
    azimuth [theta] around it. *)
Record Spherical : Type := mkSpherical { radius : R; phi : R; theta : R }.

(** [MathUtils.clamp(value, min, max)]. *)
Definition clamp (value lo hi : R) : R := Rmax lo (Rmin hi value).

(** [Vector3.setFromSpherical]. *)
Definition setFromSpherical (s : Spherical) : Vec3 :=
  let sinPhiRadius := sin (phi s) * radius s in
  Vector3.mk (sinPhiRadius * sin (theta s))
             (cos (phi s) * radius s)
             (sinPhiRadius * cos (theta s)).

(** [Vector3.setLength(l)]: [normalize().multiplyScalar(l)]. *)
Definition setLength (v : Vec3) (l : R) : Vec3 :=
  Vector3.multiplyScalar (Vector3.normalize v) l.

Section Moves.

Context {Internal : Type}.

(** The two external functions: [OrbitControls.update] and [Math.atan2]. *)
Variable controls_update :
  Camera -> Controls Internal -> Camera * Controls Internal.
Variable atan2 : R -> R -> R.

(** [Spherical.setFromVector3]. *)
Definition setFromVector3 (v : Vec3) : Spherical :=
  let radius :=
    sqrt (Vector3.x v * Vector3.x v + Vector3.y v * Vector3.y v
          + Vector3.z v * Vector3.z v) in
  if eqb radius 0 then mkSpherical radius 0 0
  else mkSpherical radius (acos (clamp (Vector3.y v / radius) (-1) 1))
                   (atan2 (Vector3.x v) (Vector3.z v)).

(** [shiftCameraAngle] up to its last statement: the camera it hands to
    [controls.update()]. *)
Definition shiftMove (deltaTheta deltaPhi : R)
    (cam : Camera) (ctl : Controls Internal) : Camera :=
  let offset := Vector3.sub (position cam) (target ctl) in
  let spherical := setFromVector3 offset in
  let theta1 := theta spherical + deltaTheta in
  let phi1 := Rmax 0.05 (Rmin (PI - 0.05) (phi spherical + deltaPhi)) in
  let offset1 := setFromSpherical (mkSpherical (radius spherical) phi1 theta1) in
  mkCamera (Vector3.add (target ctl) offset1) (fov cam).

Definition shiftCameraAngle (deltaTheta deltaPhi : R)
    (cam : Camera) (ctl : Controls Internal) : Camera * Controls Internal :=
  controls_update (shiftMove deltaTheta deltaPhi cam ctl) ctl.

(** [dollyCamera]. *)
Definition dollyCamera (factor : R)
    (cam : Camera) (ctl : Controls Internal) : Camera * Controls Internal :=
  let offset := Vector3.sub (position cam) (target ctl) in
  let dist := Vector3.length offset * factor in
  if geb dist (minDistance ctl) && leb dist (maxDistance ctl)
  then
    let offset1 := setLength offset dist in
    controls_update (mkCamera (Vector3.add (target ctl) offset1) (fov cam)) ctl
  else (cam, ctl).

(** [panCamera] up to its last statement; [right] and [up] are the first
    two columns of [camera.matrix]. *)
Definition panMove (dx dy : R) (right up : Vec3)
    (cam : Camera) (ctl : Controls Internal) : Camera * Controls Internal :=
  let dist := Vector3.distanceTo (position cam) (target ctl) in
  let speed := dist * 0.008 in
  let offset :=
    Vector3.addScaledVector (Vector3.multiplyScalar right (dx * speed))
                            up (dy * speed) in
  (mkCamera (Vector3.add (position cam) offset) (fov cam),
   mkControls (enabled ctl) (Vector3.add (target ctl) offset)
              (minDistance ctl) (maxDistance ctl) (internal ctl)).

Definition panCamera (dx dy : R) (right up : Vec3)
    (cam : Camera) (ctl : Controls Internal) : Camera * Controls Internal :=
  let '(cam1, ctl1) := panMove dx dy right up cam ctl in
  controls_update cam1 ctl1.

(** The function [step] of [startNav]. *)
Definition step (action : string) (right up : Vec3)
    (cam : Camera) (ctl : Controls Internal) : Camera * Controls Internal :=
  if String.eqb action "rotateLeft" then shiftCameraAngle (-0.04) 0 cam ctl
  else if String.eqb action "rotateRight" then shiftCameraAngle 0.04 0 cam ctl
  else if String.eqb action "rotateUp" then shiftCameraAngle 0 (-0.04) cam ctl
  else if String.eqb action "rotateDown" then shiftCameraAngle 0 0.04 cam ctl
  else if String.eqb action "zoomIn" then dollyCamera 0.97 cam ctl
  else if String.eqb action "zoomOut" then dollyCamera 1.03 cam ctl
  else if String.eqb action "panLeft" then panCamera (-1) 0 right up cam ctl
  else if String.eqb action "panRight" then panCamera 1 0 right up cam ctl
  else if String.eqb action "panUp" then panCamera 0 1 right up cam ctl
  else if String.eqb action "panDown" then panCamera 0 (-1) right up cam ctl
  else (cam, ctl).

(** The camera, the controls, [_navInterval], and the browser's side of
    [setInterval] / [clearInterval]: the intervals that are running, each
    with the action its callback steps, and the next handle to give out. *)
Record NavState : Type := mkNavState {
  nav_camera : Camera;
  nav_controls : Controls Internal;
  _navInterval : option nat;
  intervals : list (nat * string);
  nextHandle : nat
}.

(** [clearInterval(id)]. *)
Definition clearInterval (id : nat) (running : list (nat * string))
    : list (nat * string) :=
  filter (fun t => negb (Nat.eqb (fst t) id)) running.

Definition stopNav (st : NavState) : NavState :=
  match _navInterval st with
  | Some id =>
      mkNavState (nav_camera st) (nav_controls st) None
                 (clearInterval id (intervals st)) (nextHandle st)
  | None => st
  end.

Definition startNav (action : string) (right up : Vec3) (st : NavState)
    : NavState :=
  let st1 := stopNav st in
  let '(cam, ctl) := step action right up (nav_camera st1) (nav_controls st1) in
  let id := nextHandle st1 in
  mkNavState cam ctl (Some id) ((id, action) :: intervals st1) (S id).

(** What holds of the navigation state between calls: the running
    intervals are exactly the one [_navInterval] names, if any. *)
Definition navOK (st : NavState) : Prop :=
  match _navInterval st with
  | Some id => exists action, intervals st = [(id, action)]
  | None => intervals st = []
  end.

End Moves.

Arguments NavState : clear implicits.

End Nav.

(* ================================================================= *)
(** ** Star field and asteroid belt *)

Module Particles.

Import Scene.

(** The body of the loop of [createStarfield]: the three coordinates it
    computes for one star, from its three [Math.random()] draws in order.
    Numbers are reals throughout, so the rounding of the [Float32Array]
    that stores the coordinates is left out. *)
Definition starPosition (u1 u2 u3 : R) : Vec3 :=
  let theta := u1 * PI * 2 in
  let phi := acos (2 * u2 - 1) in
  let r := 2400 + u3 * 200 in
  Vector3.mk (r * sin phi * cos theta) (r * sin phi * sin theta) (r * cos phi).

(** [createStarfield]: the coordinates of the 10000 stars; [random n] is
    the value of the [n]-th call of [Math.random()] the function makes. *)
Definition createStarfield (random : nat -> R) : list Vec3 :=
  let count := 10000%nat in
  map (fun i =>
         starPosition (random (3 * i)%nat) (random (3 * i + 1)%nat)
                      (random (3 * i + 2)%nat))
      (seq 0 count).

(** The body of the loop of [createAsteroidBelt], from its four draws. *)
Definition asteroidPosition (u1 u2 u3 u4 : R) : Vec3 :=
  let innerRadius := Build.getOrbitRadius 2.2 in
  let outerRadius := Build.getOrbitRadius 3.2 in
  let angle := u1 * PI * 2 in
  let radialNoise := (u2 + u3) / 2 in
  let r := innerRadius + radialNoise * (outerRadius - innerRadius) in
  let yScatter := (u4 - 0.5) * 4 in
  Vector3.mk (cos angle * r) yScatter (sin angle * r).

(** What [createAsteroidBelt] builds: the particle coordinates, the
    material, the inner and outer radius of the flat hit ring and the
    object it registers in [hitMeshes]. *)
Record AsteroidBelt : Type := mkAsteroidBelt {
  belt_positions : list Vec3;
  belt_material : Pointer.BeltMaterial;
  ring_inner : R;
  ring_outer : R;
  ring_hit : Interaction.HitObject
}.

Definition createAsteroidBelt (random : nat -> R) : AsteroidBelt :=
  let innerRadius := Build.getOrbitRadius 2.2 in
  let outerRadius := Build.getOrbitRadius 3.2 in
  let count := 2800%nat in
  mkAsteroidBelt
    (map (fun i =>
            asteroidPosition (random (4 * i)%nat) (random (4 * i + 1)%nat)
                             (random (4 * i + 2)%nat) (random (4 * i + 3)%nat))
         (seq 0 count))
    (Pointer.mkBeltMaterial 0x998877 0.35)
    innerRadius outerRadius
    (Interaction.mkHit (Some ASTEROID_BELT_PLANET) false true
                       (Vector3.mk 0 0 0)).

(** Distance from the y axis. *)
Definition horizontalRadius (p : Vec3) : R :=
  sqrt (Vector3.x p * Vector3.x p + Vector3.z p * Vector3.z p).

End Particles.

(* ================================================================= *)
(** ** Assembling the scene *)

Module Assembly.

Import Scene Build.

(** The loop of [buildSolarSystem]: the objects it pushes to
    [planetObjects].  [random n] is the value of the [n]-th call of
    [Math.random()] and [drawn] the number of calls made so far. *)
Fixpoint buildPlanetObjects
    (planets : list Planet.t) (random : nat -> R) (drawn : nat)
    : list PlanetObject.t :=
  match planets with
  | [] => []
  | planet :: rest =>
      if Planet.is_star planet
      then buildPlanetObjects rest random drawn
      else newPlanetObject planet (random drawn * PI * 2)
             :: buildPlanetObjects rest random (S drawn)
  end.

(** The hit meshes [buildSolarSystem] pushes to [hitMeshes]: one per
    record, the star's at the origin, a planet's at its start position. *)
Fixpoint buildHitMeshes
    (planets : list Planet.t) (random : nat -> R) (drawn : nat)
    : list Interaction.HitObject :=
  match planets with
  | [] => []
  | planet :: rest =>
      if Planet.is_star planet
      then Interaction.mkHit (Some planet) true false (Vector3.mk 0 0 0)
             :: buildHitMeshes rest random drawn
      else Interaction.mkHit (Some planet) true false
             (PlanetObject.hitMesh_position
                (newPlanetObject planet (random drawn * PI * 2)))
             :: buildHitMeshes rest random (S drawn)
  end.

(** [buildSolarSystem]: what it leaves in [planetObjects] and what it
    pushes to [hitMeshes]. *)
Definition buildSolarSystem (planets : list Planet.t) (random : nat -> R)
    : list PlanetObject.t * list Interaction.HitObject :=
  (buildPlanetObjects planets random 0, buildHitMeshes planets random 0).

(** An entry of [MOON_DEFS]. *)
Record MoonDef : Type := mkMoonDef {
  md_name : string;
  md_parentName : string;
  md_color : string;
  md_orbitVis : R;
  md_vr : R;
  md_periodDays : R;
  md_incDeg : R
}.

Definition MOON_DEFS : list MoonDef :=
  [ mkMoonDef "Mesec" "Earth" "#bbbbaa" 1.80 0.35 27.320 5.14;
    mkMoonDef "Fobos" "Mars" "#887766" 1.35 0.18 0.319 26.04;
    mkMoonDef "Dejmos" "Mars" "#998877" 3.38 0.14 1.263 27.58;
    mkMoonDef "Io" "Jupiter" "#ddaa44" 4.80 0.30 1.769 2.21;
    mkMoonDef "Evropa" "Jupiter" "#aaccee" 7.63 0.25 3.551 3.10;
    mkMoonDef "Ganimede" "Jupiter" "#997766" 12.18 0.38 7.155 2.21;
    mkMoonDef "Kalisto" "Jupiter" "#776655" 21.43 0.32 16.690 2.02;
    mkMoonDef "Enkelad" "Saturn" "#ddeeff" 4.20 0.16 1.370 28.05;
    mkMoonDef "Titan" "Saturn" "#ddaa66" 21.56 0.34 15.945 28.06;
    mkMoonDef "Titanija" "Uranus" "#aaaacc" 3.30 0.22 8.706 97.77;
    mkMoonDef "Oberon" "Uranus" "#887777" 4.42 0.20 13.463 97.77;
    mkMoonDef "Triton" "Neptune" "#aabbdd" 3.15 0.26 5.877 156.84 ].

(** [planetObjects.find(p => p.mesh.userData.planet.name === parentName)]:
    the first object with that name, with its index, counted from [i]. *)
Fixpoint findParent
    (parentName : string) (objs : list PlanetObject.t) (i : nat)
    : option (nat * PlanetObject.t) :=
  match objs with
  | [] => None
  | p :: rest =>
      if String.eqb (Planet.name (PlanetObject.planet p)) parentName
      then Some (i, p)
      else findParent parentName rest (S i)
  end.

(** The loop of [createMoons] over the entries [defs]. *)
Fixpoint createMoonsFrom
    (defs : list MoonDef) (planetObjects : list PlanetObject.t)
    (random : nat -> R) (drawn : nat) : list MoonObject.t :=
  match defs with
  | [] => []
  | def :: rest =>
      match findParent (md_parentName def) planetObjects 0 with
      | None => createMoonsFrom rest planetObjects random drawn
      | Some (parent, parentObj) =>
          newMoonObject (md_orbitVis def) (md_periodDays def) (md_incDeg def)
                        parent (PlanetObject.mesh_position parentObj)
                        (random drawn * PI * 2)
            :: createMoonsFrom rest planetObjects random (S drawn)
      end
  end.

Definition createMoons
    (planetObjects : list PlanetObject.t) (random : nat -> R)
    : list MoonObject.t :=
  createMoonsFrom MOON_DEFS planetObjects random 0.

(** What [createMoons] guarantees of a moon it creates. *)
Definition attached (planetObjects : list PlanetObject.t) (defs : list MoonDef)
    (m : MoonObject.t) : Prop :=
  exists (def : MoonDef) (parent : PlanetObject.t),
    In def defs /\
    nth_error planetObjects (MoonObject.parentPlanetObj m) = Some parent /\
    Planet.name (PlanetObject.planet parent) = md_parentName def /\
    (forall j q, (j < MoonObject.parentPlanetObj m)%nat ->
                 nth_error planetObjects j = Some q ->
                 Planet.name (PlanetObject.planet q) <> md_parentName def) /\
    MoonObject.orbitRadius m = md_orbitVis def /\
    MoonObject.speed m = 365.25 / md_periodDays def * 0.006 /\
    MoonObject.orbitLine_position m = PlanetObject.mesh_position parent /\
    MoonObject.mesh_position m
    = Frames.moonPlace (PlanetObject.mesh_position parent) m.

(** A scene whose bodies are all well formed and in place: what the frame
    properties ask of a scene. *)
Definition sceneOK {Internal : Type} (s : State Internal) : Prop :=
  Frames.settled s /\
  Forall Orbit.planetOK (planetObjects s) /\
  Forall Orbit.cometOK (cometObjects s) /\
  Forall (fun m => Moon.moonOK m /\ Moon.parentValid (planetObjects s) m)
         (moonObjects s).

(** The objects [ngAfterViewInit] has registered in [hitMeshes] when it
    returns, in the order they are pushed: bodies, belt ring, Oort sphere,
    comets. *)
Definition hitMeshes (planets : list Planet.t) (random : nat -> R)
    : list Interaction.HitObject :=
  snd (buildSolarSystem planets random)
  ++ [Interaction.mkHit (Some ASTEROID_BELT_PLANET) false true
                        (Vector3.mk 0 0 0)]
  ++ [Interaction.oortProxy]
  ++ map (fun c => Interaction.mkHit (Some (CometObject.planet c)) true false
                     (CometObject.hitMesh_position c))
         createComets.

(** The state [ngAfterViewInit] leaves for the first frame.  [internal0]
    is the private state of the new [OrbitControls]; [randomPlanets] and
    [randomMoons] are the draws of [buildSolarSystem] and [createMoons]. *)
Definition initialScene {Internal : Type}
    (planets : list Planet.t) (height : Z) (internal0 : Internal)
    (randomPlanets randomMoons : nat -> R) : State Internal :=
  let planetObjects := fst (buildSolarSystem planets randomPlanets) in
  mkState 0.25 None
          (mkCamera (Vector3.mk 0 450 1100) 55)
          (mkControls true (Vector3.mk 0 0 0) 15 6000 internal0)
          height
          planetObjects createComets (createMoons planetObjects randomMoons)
          None
          (if existsb Planet.is_star planets then Some 1 else None)
          (Some 0) 1 1.

End Assembly.

(* ================================================================= *)
(** ** More sample values *)

Module Samples.

Import Scene.

(** The record the data service returns for the Sun. *)
Definition Sun : Planet.t :=
  Planet.mk "Sun" "Sunce" 696000 0 0 25.38 "#FDB813"
    "Sunce je zvezda u centru Solarnog sistema. To je gotovo savršena sfera vruće plazme koja greje Zemlju i pruža energiju potrebnu za život."
    0 [] true None None None (Some 0) (Some 0) (Some 0).

(** A record named after a member that every object inherits. *)
Definition oddlyNamed : Planet.t :=
  Planet.mk "constructor" "constructor" 1000 1 365.25 1 "#ffffff" ""
    0 [] false None None None (Some 0) (Some 0) (Some 0).

(** A source of draws that always returns 0. *)
Definition zeroDraws (n : nat) : R := 0.

(** A stand-in for [Math.atan2], for steps that do not look at the
    azimuth. *)
Definition flatAtan2 (x z : R) : R := 0.

(** The navigation state before any button is pressed. *)
Definition idleNav : Nav.NavState unit :=
  Nav.mkNavState Examples.initialCamera Examples.initialControls None [] 0.

(** A camera 100 in front of the origin. *)
Definition frontCamera : Camera := mkCamera (Vector3.mk 0 0 100) 55.

(** A transition from the initial camera towards Jupiter, not yet begun. *)
Definition jupiterFlight : ZoomAnim.t :=
  ZoomAnim.mk (Vector3.mk 0 450 1100) (Vector3.mk 182 0 26)
              (Vector3.mk 0 0 0) (Vector3.mk 182 0 0) 0.

(** A pointer event in a canvas of 1280 by 800, and a hit on Jupiter whose
    glow mesh is number 4. *)
Definition canvasRect : Pointer.DOMRect := Pointer.mkRect 0 0 1280 800.

Definition pointerAt : Pointer.MouseEvent := Pointer.mkMouseEvent 640 200.

Definition jupiterPointerHit : Pointer.PointerHit :=
  Pointer.mkPointerHit (Examples.jupiterHit (Vector3.mk 182 0 0)) 4.

End Samples.

(* ================================================================= *)
(** * Properties *)

Section KeplerFacts.

Import Kepler.

Lemma iters_cases (e : R) :
  (e > 0.9 /\ iters e = 15%nat) \/ (e <= 0.9 /\ iters e = 5%nat).
Proof.
  unfold iters, gtb. destruct (Rgt_dec e 0.9) as [H | H].
  - left. split; [exact H | reflexivity].
  - right. split; [lra | reflexivity].
Qed.

(** The divisor of a Newton update is at least [1 - e]. *)
Lemma divisor_lower_bound (e E : R) :
  0 <= e -> 1 - e <= 1 - e * cos E.
Proof.
  intros He. pose proof (COS_bound E) as [_ Hc]. nra.
Qed.

Lemma newton_zero_ecc (n : nat) (M : R) : newton n 0 M M = M.
Proof.
  induction n as [| n IH]; simpl.
  - reflexivity.
  - replace (M - (M - 0 * sin M - M) / (1 - 0 * cos M)) with M by (field; lra).
    exact IH.
Qed.

End KeplerFacts.

(* ----------------------------------------------------------------- *)
(** ** Speed control *)

Lemma increaseSpeed_from_pause : Speed.increaseSpeed 0 = 0.125.
Proof.
  unfold Speed.increaseSpeed, eqb.
  destruct (Req_dec_T 0 0) as [_ | Hne]; [reflexivity | contradiction].
Qed.

Lemma decreaseSpeed_snaps (v : R) : v <= 0.125 -> Speed.decreaseSpeed v = 0.
Proof.
  intros Hv. unfold Speed.decreaseSpeed, leb.
  destruct (Rle_dec v 0.125) as [_ | Hn]; [reflexivity | contradiction].
Qed.

Lemma increaseSpeed_capped (v : R) : Speed.increaseSpeed v <= 64.
Proof.
  unfold Speed.increaseSpeed, eqb.
  destruct (Req_dec_T v 0) as [_ | _].
  - lra.
  - apply Rmin_r.
Qed.

(** C2.  From speed 0 one [increaseSpeed] gives 0.125, which is not
    [0 * 2]; from any speed at or below 0.125 one [decreaseSpeed] gives 0;
    [increaseSpeed] never returns more than 64. *)
Theorem speed_control_snaps_and_caps :
  Speed.increaseSpeed 0 = 0.125 /\
  Speed.increaseSpeed 0 <> 0 * 2 /\
  (forall v : R, v <= 0.125 -> Speed.decreaseSpeed v = 0) /\
  (forall v : R, Speed.increaseSpeed v <= 64).
Proof.
  split; [exact increaseSpeed_from_pause |].
  split; [rewrite increaseSpeed_from_pause; lra |].
  split; [exact decreaseSpeed_snaps | exact increaseSpeed_capped].
Qed.

Lemma speed_control_snaps_and_caps_witness :
  0.125 <= 0.125 /\
  Speed.decreaseSpeed 0.125 = 0 /\
  Speed.increaseSpeed 64 <= 64.
Proof.
  destruct speed_control_snaps_and_caps as (_ & _ & Hdec & Hinc).
  split; [lra |].
  split; [apply Hdec; lra | apply Hinc].
Defined.

(* ----------------------------------------------------------------- *)
(** ** The solver and the drawn orbit use one frame transform *)

Lemma INR_256 : INR 256 = 256.
Proof.
  change 256%nat with (Z.to_nat 256). rewrite INR_IZR_INZ.
  rewrite Z2Nat.id by lia. reflexivity.
Qed.

Lemma solveKepler_parts (M a b e cN sN cI sI : R) :
  Kepler.solveKepler M a b e cN sN cI sI
  = Kepler.solverPoint a b e cN sN cI sI (Kepler.eccentricAnomaly M e).
Proof. reflexivity. Qed.

Lemma createOrbitLine_length (a b e cN sN cI sI : R) :
  List.length (Kepler.createOrbitLine a b e cN sN cI sI) = 256%nat.
Proof.
  unfold Kepler.createOrbitLine. rewrite length_map, length_seq. reflexivity.
Qed.

(** C7.  The point the solver builds from an eccentric anomaly [E] is the
    point the orbit polyline has at parameter [E]; the solver's result is
    that point at the solved [E]; the polyline is 256 samples of the same
    curve; and the position a frame gives a planet or a comet lies on it. *)
Theorem live_position_on_drawn_orbit (a b e cN sN cI sI : R) :
  (forall E : R,
      Kepler.solverPoint a b e cN sN cI sI E
      = Kepler.linePoint a b e cN sN cI sI E) /\
  (forall M : R,
      Kepler.solveKepler M a b e cN sN cI sI
      = Kepler.linePoint a b e cN sN cI sI (Kepler.eccentricAnomaly M e)) /\
  Kepler.createOrbitLine a b e cN sN cI sI
  = map (fun i => Kepler.solverPoint a b e cN sN cI sI
                    ((INR i / 256) * PI * 2))
        (seq 0 256) /\
  (forall (speed halfH tanHalfFov : R) (cam : Vec3) (obj : PlanetObject.t),
      PlanetObject.mesh_position
        (Scene.animatePlanet speed halfH tanHalfFov cam obj)
      = Kepler.linePoint
          (PlanetObject.a obj) (PlanetObject.b obj) (PlanetObject.e obj)
          (PlanetObject.cosNode obj) (PlanetObject.sinNode obj)
          (PlanetObject.cosInc obj) (PlanetObject.sinInc obj)
          (Kepler.eccentricAnomaly
             (PlanetObject.meanAnomaly obj + PlanetObject.speed obj * speed)
             (PlanetObject.e obj))) /\
  (forall (speed halfH tanHalfFov : R) (cam : Vec3) (obj : CometObject.t),
      CometObject.mesh_position
        (Scene.animateComet speed halfH tanHalfFov cam obj)
      = Kepler.linePoint
          (CometObject.a obj) (CometObject.b obj) (CometObject.e obj)
          (CometObject.cosNode obj) (CometObject.sinNode obj)
          (CometObject.cosInc obj) (CometObject.sinInc obj)
          (Kepler.eccentricAnomaly
             (CometObject.meanAnomaly obj + CometObject.speed obj * speed)
             (CometObject.e obj))).
Proof.
  split; [intros E; reflexivity |].
  split; [intros M; reflexivity |].
  split; [| split].
  - unfold Kepler.createOrbitLine. cbv zeta.
    apply map_ext. intros i. unfold Kepler.solverPoint.
    rewrite INR_256. reflexivity.
  - intros speed halfH tanHalfFov cam obj. reflexivity.
  - intros speed halfH tanHalfFov cam obj. reflexivity.
Qed.

(* ----------------------------------------------------------------- *)
(** ** The Newton divisor *)

Lemma planetEccentricity_le (ecc : option R) :
  Kepler.planetEccentricity ecc <= 0.70.
Proof. unfold Kepler.planetEccentricity. apply Rmin_r. Qed.

Lemma planetEccentricity_nonneg (ecc : option R) :
  0 <= nullish ecc 0 -> 0 <= Kepler.planetEccentricity ecc.
Proof.
  intros H. unfold Kepler.planetEccentricity, Kepler.ECCENTRICITY_BOOST.
  apply Rmin_glb; lra.
Qed.

(** The comets of [COMET_DEFS] have eccentricities in [0, 0.96714]. *)
Lemma comet_eccentricities :
  Forall (fun c => 0 <= CometObject.e c <= 0.96714) Build.createComets.
Proof.
  unfold Build.createComets, Build.COMET_DEFS. simpl.
  repeat constructor; simpl; lra.
Qed.

(** C8.  For an eccentricity [0 <= e < 1] the divisor [1 - e * cos E] of
    the Newton update is at least [1 - e > 0], hence non-zero, at every
    iterate of the solver, whatever the mean anomaly.  The eccentricities
    the engine feeds lie in that range: a planet's is clamped to at most
    0.70 (and is non-negative when the record's is), a comet's is at most
    0.96714. *)
Theorem newton_divisor_bounded_away_from_zero :
  (forall (e M : R) (k : nat),
      0 <= e < 1 ->
      let E := Kepler.newton k e M M in
      0 < 1 - e /\ 1 - e <= 1 - e * cos E /\ 1 - e * cos E <> 0) /\
  (forall ecc : option R, Kepler.planetEccentricity ecc <= 0.70) /\
  (forall ecc : option R,
      0 <= nullish ecc 0 -> 0 <= Kepler.planetEccentricity ecc < 1) /\
  Forall (fun c => 0 <= CometObject.e c <= 0.96714) Build.createComets.
Proof.
  split; [| split; [| split]].
  - intros e M k [He0 He1] E.
    pose proof (divisor_lower_bound e E He0) as Hd.
    repeat split; lra.
  - exact planetEccentricity_le.
  - intros ecc Hecc. pose proof (planetEccentricity_le ecc).
    pose proof (planetEccentricity_nonneg ecc Hecc). lra.
  - exact comet_eccentricities.
Qed.

Lemma newton_divisor_bounded_away_from_zero_witness :
  0 <= 0.96714 < 1 /\
  1 - 0.96714 * cos (Kepler.newton 15 0.96714 1 1) <> 0 /\
  0 <= Kepler.planetEccentricity (Some 0.2056) < 1.
Proof.
  destruct newton_divisor_bounded_away_from_zero as (Hdiv & _ & Hplanet & _).
  assert (H : 0 <= 0.96714 < 1) by lra.
  split; [exact H |].
  split.
  - exact (proj2 (proj2 (Hdiv 0.96714 1 15%nat H))).
  - apply Hplanet. simpl. lra.
Defined.

(* ----------------------------------------------------------------- *)
(** ** Circular orbits *)

(** C9.  With [e = 0] every Newton iterate is the mean anomaly itself, and
    with [b = a] the orbital-plane position is [(a cos M, a sin M)]; the
    world point is the frame transform of that position. *)
Theorem circular_orbit_closed_form (M a cN sN cI sI : R) :
  (forall k : nat, Kepler.newton k 0 M M = M) /\
  Kepler.eccentricAnomaly M 0 = M /\
  Kepler.orbitalPlane M a a 0 = (a * cos M, a * sin M) /\
  Kepler.solveKepler M a a 0 cN sN cI sI
  = Vector3.mk (cN * (a * cos M) - sN * cI * (a * sin M))
               (sI * (a * sin M))
               (sN * (a * cos M) + cN * cI * (a * sin M)).
Proof.
  assert (HE : Kepler.eccentricAnomaly M 0 = M).
  { unfold Kepler.eccentricAnomaly. apply newton_zero_ecc. }
  split; [intros k; apply newton_zero_ecc |].
  split; [exact HE |].
  split.
  - unfold Kepler.orbitalPlane. rewrite HE. f_equal. ring.
  - rewrite solveKepler_parts. unfold Kepler.solverPoint. rewrite HE.
    f_equal; ring.
Qed.

(* ----------------------------------------------------------------- *)
(** ** What one frame writes *)

Section FrameFacts.

Import Scene Frames.

Context {Internal : Type}.
Variable controls_update :
  Camera -> Controls Internal -> Camera * Controls Internal.

Ltac open_frame :=
  unfold animate;
  match goal with
  | |- context [animateZoom ?c ?k ?z] =>
      destruct (animateZoom c k z) as [[? ?] ?]
  end;
  match goal with
  | |- context [controls_update ?c ?k] => destruct (controls_update c k)
  end;
  simpl.

Lemma animate_planetObjects (s : State Internal) :
  planetObjects (animate controls_update s)
  = map (animatePlanet (simulationSpeed s) (halfH_of (clientHeight s))
           (tanHalfFov_of (fov (camera s))) (position (camera s)))
        (planetObjects s).
Proof. open_frame. reflexivity. Qed.

Lemma animate_cometObjects (s : State Internal) :
  cometObjects (animate controls_update s)
  = map (animateComet (simulationSpeed s) (halfH_of (clientHeight s))
           (tanHalfFov_of (fov (camera s))) (position (camera s)))
        (cometObjects s).
Proof. open_frame. reflexivity. Qed.

Lemma animate_moonObjects (s : State Internal) :
  moonObjects (animate controls_update s)
  = map (animateMoon (simulationSpeed s)
           (planetObjects (animate controls_update s)))
        (moonObjects s).
Proof. rewrite animate_planetObjects. open_frame. reflexivity. Qed.

Lemma animate_sunHitMesh (s : State Internal) :
  sunHitMesh_scale (animate controls_update s)
  = animateSun (halfH_of (clientHeight s)) (tanHalfFov_of (fov (camera s)))
      (position (camera s)) (sunHitMesh_scale s).
Proof. open_frame. reflexivity. Qed.

Lemma animate_hitRing (s : State Internal) :
  hitRing_scale (animate controls_update s) = hitRing_scale s.
Proof. open_frame. reflexivity. Qed.

Lemma animate_oortSphere (s : State Internal) :
  oortSphere_scale (animate controls_update s) = oortSphere_scale s.
Proof. open_frame. reflexivity. Qed.

Lemma animate_simulationSpeed (s : State Internal) :
  simulationSpeed (animate controls_update s) = simulationSpeed s.
Proof. open_frame. reflexivity. Qed.

Lemma animate_zoomAnim (s : State Internal) :
  zoomAnim (animate controls_update s)
  = snd (animateZoom (camera s) (controls s) (zoomAnim s)).
Proof. open_frame. reflexivity. Qed.

Lemma frames_exempt_proxies (n : nat) (s : State Internal) :
  hitRing_scale (frames controls_update n s) = hitRing_scale s /\
  oortSphere_scale (frames controls_update n s) = oortSphere_scale s.
Proof.
  induction n as [| n [IHr IHo]]; simpl.
  - split; reflexivity.
  - rewrite animate_hitRing, animate_oortSphere. split; assumption.
Qed.

Lemma halfH_of_cases (h : Z) :
  halfH_of h = if Z.eqb h 0 then 1 else IZR h / 2.
Proof.
  unfold halfH_of, num_or.
  destruct (Z.eqb_spec h 0) as [-> | Hne].
  - destruct (Req_dec_T (0 / 2) 0) as [_ | Hn]; [reflexivity | lra].
  - destruct (Req_dec_T (IZR h / 2) 0) as [H0 | _]; [| reflexivity].
    exfalso. apply Hne. apply eq_IZR. lra.
Qed.

(** The scale a frame gives a sphere proxy turns the geometry radius into
    the world radius of the formula. *)
Lemma proxyWorldRadius_rescaled (r : R) :
  proxyWorldRadius (r / HIT_RADIUS) = r.
Proof. unfold proxyWorldRadius, HIT_RADIUS. field. Qed.

(** Every frame leaves the bodies settled, whatever the speed. *)
Lemma animatePlanet_settled (speed halfH tanHalfFov : R) (cam : Vec3)
    (p : PlanetObject.t) :
  planetSettled (animatePlanet speed halfH tanHalfFov cam p).
Proof. reflexivity. Qed.

Lemma animateComet_settled (speed halfH tanHalfFov : R) (cam : Vec3)
    (c : CometObject.t) :
  cometSettled (animateComet speed halfH tanHalfFov cam c).
Proof. reflexivity. Qed.

Lemma animateMoon_settled (speed : R) (planets : list PlanetObject.t)
    (m : MoonObject.t) :
  (MoonObject.parentPlanetObj m < List.length planets)%nat ->
  moonSettled planets (animateMoon speed planets m).
Proof.
  intros Hlt. unfold moonSettled, animateMoon.
  destruct (nth_error planets (MoonObject.parentPlanetObj m)) as [parent |] eqn:Hp.
  - exists parent. simpl. split; [exact Hp | reflexivity].
  - apply nth_error_None in Hp. lia.
Qed.

(** A paused frame on a settled body. *)
Lemma animatePlanet_paused (halfH tanHalfFov : R) (cam : Vec3)
    (p : PlanetObject.t) :
  planetSettled p ->
  let p' := animatePlanet 0 halfH tanHalfFov cam p in
  PlanetObject.meanAnomaly p' = PlanetObject.meanAnomaly p /\
  PlanetObject.mesh_position p' = PlanetObject.mesh_position p /\
  PlanetObject.mesh_rotation_y p'
  = PlanetObject.mesh_rotation_y p + PlanetObject.rotationDir p * 0.005.
Proof.
  intros Hs. unfold animatePlanet. simpl.
  replace (PlanetObject.meanAnomaly p + PlanetObject.speed p * 0)
    with (PlanetObject.meanAnomaly p) by ring.
  repeat split. symmetry. exact Hs.
Qed.

Lemma animateComet_paused (halfH tanHalfFov : R) (cam : Vec3)
    (c : CometObject.t) :
  cometSettled c ->
  let c' := animateComet 0 halfH tanHalfFov cam c in
  CometObject.meanAnomaly c' = CometObject.meanAnomaly c /\
  CometObject.mesh_position c' = CometObject.mesh_position c /\
  CometObject.mesh_rotation_y c' = CometObject.mesh_rotation_y c + 0.003.
Proof.
  intros Hs. unfold animateComet. simpl.
  replace (CometObject.meanAnomaly c + CometObject.speed c * 0)
    with (CometObject.meanAnomaly c) by ring.
  repeat split. symmetry. exact Hs.
Qed.

Lemma animateMoon_paused (halfH tanHalfFov : R) (cam : Vec3)
    (planets : list PlanetObject.t) (m : MoonObject.t) :
  Forall planetSettled planets ->
  moonSettled planets m ->
  let m' :=
    animateMoon 0 (map (animatePlanet 0 halfH tanHalfFov cam) planets) m in
  MoonObject.angle m' = MoonObject.angle m /\
  MoonObject.mesh_position m' = MoonObject.mesh_position m.
Proof.
  intros Hps (parent & Hnth & Hpos). unfold animateMoon.
  rewrite nth_error_map, Hnth. simpl.
  assert (Hparent : planetSettled parent).
  { rewrite Forall_forall in Hps. apply Hps.
    eapply nth_error_In. exact Hnth. }
  replace (MoonObject.angle m + MoonObject.speed m * 0)
    with (MoonObject.angle m) by ring.
  split; [reflexivity |].
  rewrite Hpos. unfold moonPlace.
  replace (PlanetObject.meanAnomaly parent + PlanetObject.speed parent * 0)
    with (PlanetObject.meanAnomaly parent) by ring.
  unfold planetSettled in Hparent. rewrite Hparent. reflexivity.
Qed.

End FrameFacts.

(* ----------------------------------------------------------------- *)
(** ** Hit-proxy sizing *)

Section HitProxySizing.

Import Scene Frames.

Context {Internal : Type}.
Variable controls_update :
  Camera -> Controls Internal -> Camera * Controls Internal.

(** C6.  After a frame, every planet proxy, every comet proxy and the Sun
    proxy has world radius [(30 / halfH) * dist * tan(halfFov)], with
    [halfH] half the canvas height (1 for a canvas of height 0) and
    [dist] the distance from the frame's camera position to the proxy, so
    the radius is homogeneous of degree one in that distance (at the same
    field of view and canvas height, the radii a proxy gets at camera
    distances [d1] and [d2] are in the ratio [d1 : d2]); the belt ring and
    the Oort sphere keep their scale over any run of frames. *)
Theorem hit_proxy_radius_linear_in_distance (s : State Internal) :
  let s' := animate controls_update s in
  let halfH := halfH_of (clientHeight s) in
  let tanHalfFov := tan ((fov (camera s) * PI) / 360) in
  let cam := position (camera s) in
  halfH = (if Z.eqb (clientHeight s) 0 then 1 else IZR (clientHeight s) / 2) /\
  Forall (fun p =>
            proxyWorldRadius (PlanetObject.hitMesh_scale p)
            = (30 / halfH)
              * Vector3.distanceTo cam (PlanetObject.hitMesh_position p)
              * tanHalfFov)
         (planetObjects s') /\
  Forall (fun c =>
            proxyWorldRadius (CometObject.hitMesh_scale c)
            = (30 / halfH)
              * Vector3.distanceTo cam (CometObject.hitMesh_position c)
              * tanHalfFov)
         (cometObjects s') /\
  match sunHitMesh_scale s, sunHitMesh_scale s' with
  | Some _, Some sc =>
      proxyWorldRadius sc
      = (30 / halfH) * Vector3.distanceTo cam (Vector3.mk 0 0 0) * tanHalfFov
  | None, None => True
  | _, _ => False
  end /\
  (forall h d1 d2 t : R, hitWorldR h d1 t * d2 = hitWorldR h d2 t * d1) /\
  (forall h k d t : R, hitWorldR h (k * d) t = k * hitWorldR h d t) /\
  (forall (speed h t : R) (cam1 cam2 : Vec3) (obj : PlanetObject.t),
      let p1 := animatePlanet speed h t cam1 obj in
      let p2 := animatePlanet speed h t cam2 obj in
      proxyWorldRadius (PlanetObject.hitMesh_scale p1)
      * Vector3.distanceTo cam2 (PlanetObject.hitMesh_position p2)
      = proxyWorldRadius (PlanetObject.hitMesh_scale p2)
        * Vector3.distanceTo cam1 (PlanetObject.hitMesh_position p1)) /\
  (forall n : nat,
      hitRing_scale (frames controls_update n s) = hitRing_scale s /\
      oortSphere_scale (frames controls_update n s) = oortSphere_scale s).
Proof.
  intros s' halfH tanHalfFov cam.
  split; [| split; [| split; [| split; [| split; [| split; [| split]]]]]].
  - subst halfH. apply halfH_of_cases.
  - subst s'. rewrite animate_planetObjects. apply Forall_forall.
    intros p Hin. apply in_map_iff in Hin. destruct Hin as (p0 & <- & _).
    unfold animatePlanet. simpl. apply proxyWorldRadius_rescaled.
  - subst s'. rewrite animate_cometObjects. apply Forall_forall.
    intros c Hin. apply in_map_iff in Hin. destruct Hin as (c0 & <- & _).
    unfold animateComet. simpl. apply proxyWorldRadius_rescaled.
  - subst s'. rewrite animate_sunHitMesh.
    destruct (sunHitMesh_scale s) as [sc0 |]; simpl.
    + apply proxyWorldRadius_rescaled.
    + exact I.
  - intros h d1 d2 t. unfold hitWorldR. ring.
  - intros h k d t. unfold hitWorldR. ring.
  - intros speed h t cam1 cam2 obj p1 p2. subst p1 p2.
    unfold animatePlanet. simpl. rewrite !proxyWorldRadius_rescaled.
    unfold hitWorldR. ring.
  - intros n. apply frames_exempt_proxies.
Qed.

End HitProxySizing.

(* ----------------------------------------------------------------- *)
(** ** A paused frame *)

Section PausedFrame.

Import Scene Frames.

Context {Internal : Type}.
Variable controls_update :
  Camera -> Controls Internal -> Camera * Controls Internal.

Lemma animate_settled (s : State Internal) :
  Forall (fun m => (MoonObject.parentPlanetObj m < List.length (planetObjects s))%nat)
         (moonObjects s) ->
  settled (animate controls_update s).
Proof.
  intros Hwf. unfold settled.
  rewrite animate_moonObjects, animate_cometObjects, animate_planetObjects.
  split; [| split].
  - apply Forall_forall. intros p Hin. apply in_map_iff in Hin.
    destruct Hin as (p0 & <- & _). apply animatePlanet_settled.
  - apply Forall_forall. intros c Hin. apply in_map_iff in Hin.
    destruct Hin as (c0 & <- & _). apply animateComet_settled.
  - apply Forall_forall. intros m Hin. apply in_map_iff in Hin.
    destruct Hin as (m0 & <- & Hin0). apply animateMoon_settled.
    rewrite length_map. rewrite Forall_forall in Hwf. apply Hwf. exact Hin0.
Qed.

(** C10.  A frame run at simulation speed 0 on settled bodies leaves every
    mean anomaly, every moon angle and every body position as it was, and
    still turns every planet by [rotationDir * 0.005] and every comet by
    [0.003] about its axis. *)
Theorem paused_frame_freezes_orbits_not_spin (s : State Internal) :
  simulationSpeed s = 0 ->
  settled s ->
  let s' := animate controls_update s in
  map PlanetObject.meanAnomaly (planetObjects s')
  = map PlanetObject.meanAnomaly (planetObjects s) /\
  map PlanetObject.mesh_position (planetObjects s')
  = map PlanetObject.mesh_position (planetObjects s) /\
  map CometObject.meanAnomaly (cometObjects s')
  = map CometObject.meanAnomaly (cometObjects s) /\
  map CometObject.mesh_position (cometObjects s')
  = map CometObject.mesh_position (cometObjects s) /\
  map MoonObject.angle (moonObjects s') = map MoonObject.angle (moonObjects s) /\
  map MoonObject.mesh_position (moonObjects s')
  = map MoonObject.mesh_position (moonObjects s) /\
  map PlanetObject.mesh_rotation_y (planetObjects s')
  = map (fun p => PlanetObject.mesh_rotation_y p
                  + PlanetObject.rotationDir p * 0.005)
        (planetObjects s) /\
  map CometObject.mesh_rotation_y (cometObjects s')
  = map (fun c => CometObject.mesh_rotation_y c + 0.003) (cometObjects s).
Proof.
  intros Hspeed (Hp & Hc & Hm) s'. subst s'.
  rewrite animate_moonObjects, animate_cometObjects, animate_planetObjects.
  rewrite Hspeed. rewrite !map_map.
  set (h := halfH_of (clientHeight s)).
  set (t := tanHalfFov_of (fov (camera s))).
  set (cam := position (camera s)).
  assert (HP : forall p, In p (planetObjects s) -> planetSettled p)
    by (apply Forall_forall; exact Hp).
  assert (HC : forall c, In c (cometObjects s) -> cometSettled c)
    by (apply Forall_forall; exact Hc).
  assert (HM : forall m, In m (moonObjects s) ->
                         moonSettled (planetObjects s) m)
    by (apply Forall_forall; exact Hm).
  repeat match goal with |- _ /\ _ => split end;
    apply map_ext_in; intros b Hin.
  - apply (animatePlanet_paused h t cam b (HP b Hin)).
  - apply (animatePlanet_paused h t cam b (HP b Hin)).
  - apply (animateComet_paused h t cam b (HC b Hin)).
  - apply (animateComet_paused h t cam b (HC b Hin)).
  - apply (animateMoon_paused h t cam _ b Hp (HM b Hin)).
  - apply (animateMoon_paused h t cam _ b Hp (HM b Hin)).
  - apply (animatePlanet_paused h t cam b (HP b Hin)).
  - apply (animateComet_paused h t cam b (HC b Hin)).
Qed.

End PausedFrame.

(* ----------------------------------------------------------------- *)
(** ** Camera-manipulation starts *)

Section CameraStarts.

Import Scene Interaction.

Context {Internal : Type}.

Lemma setHovered_same (s : State Internal) :
  setHovered (hoveredPlanet s) s = s.
Proof. destruct s. reflexivity. Qed.

Lemma onControlsStart_spec (s : State Internal) :
  onControlsStart s = (setHovered None s, []).
Proof.
  unfold onControlsStart.
  destruct (hoveredPlanet s) as [h |] eqn:Hh.
  - reflexivity.
  - rewrite <- Hh. rewrite setHovered_same. reflexivity.
Qed.

(** C3, as the code has it.  An OrbitControls start (drag rotate, pan or
    zoom) clears the hovered-body signal, changes nothing else and emits
    nothing; a wheel event, and a touch start with two or more touches,
    emit one "close" and leave the state as it is; a touch start with
    fewer touches does nothing; none of them emits "select". *)
Theorem camera_start_clears_hover_or_closes (s : State Internal) :
  onControlsStart s = (setHovered None s, []) /\
  hoveredPlanet (fst (onControlsStart s)) = None /\
  onCanvasZoom s = (s, [closeInfo]) /\
  (forall n : nat, (2 <= n)%nat -> onCanvasTouchStart n s = (s, [closeInfo])) /\
  (forall n : nat, (n < 2)%nat -> onCanvasTouchStart n s = (s, [])) /\
  (forall (ev : CameraStart) (p : Planet.t),
      ~ In (planetSelected p) (snd (onCameraStart ev s))).
Proof.
  split; [apply onControlsStart_spec |].
  split; [rewrite onControlsStart_spec; reflexivity |].
  split; [reflexivity |].
  split; [| split].
  - intros n Hn. unfold onCanvasTouchStart.
    apply Nat.leb_le in Hn. rewrite Hn. reflexivity.
  - intros n Hn. unfold onCanvasTouchStart.
    apply Nat.leb_gt in Hn. rewrite Hn. reflexivity.
  - intros ev p Hin. destruct ev as [| | n]; simpl in Hin.
    + rewrite onControlsStart_spec in Hin. exact Hin.
    + destruct Hin as [Heq | []]. discriminate Heq.
    + unfold onCanvasTouchStart in Hin.
      destruct (2 <=? n)%nat; simpl in Hin.
      * destruct Hin as [Heq | []]. discriminate Heq.
      * exact Hin.
Qed.

End CameraStarts.

Lemma camera_start_clears_hover_or_closes_witness :
  (2 <= 2)%nat /\ (1 < 2)%nat /\
  Interaction.onCanvasTouchStart 2
    (Examples.bareScene (Vector3.mk 0 450 1100) None)
  = (Examples.bareScene (Vector3.mk 0 450 1100) None, [Interaction.closeInfo]) /\
  Interaction.onCanvasTouchStart 1
    (Examples.bareScene (Vector3.mk 0 450 1100) None)
  = (Examples.bareScene (Vector3.mk 0 450 1100) None, []).
Proof.
  destruct (camera_start_clears_hover_or_closes
              (Examples.bareScene (Vector3.mk 0 450 1100) None))
    as (_ & _ & _ & Hmany & Hfew & _).
  split; [lia |]. split; [lia |].
  split; [apply Hmany; lia | apply Hfew; lia].
Defined.

(** C3 as stated fails: with a body hovered and an info panel open, the
    start of a drag (an OrbitControls start) emits no "close". *)
Lemma drag_start_emits_no_close :
  ~ (forall (ev : Interaction.CameraStart) (s : Scene.State unit)
            (panelOpen : bool),
        Scene.hoveredPlanet (fst (Interaction.onCameraStart ev s)) = None /\
        (panelOpen = true ->
         In Interaction.closeInfo (snd (Interaction.onCameraStart ev s))) /\
        (forall p : Planet.t,
            ~ In (Interaction.planetSelected p)
                 (snd (Interaction.onCameraStart ev s)))).
Proof.
  intros H.
  destruct (H Interaction.ControlsStart
              (Examples.bareScene (Vector3.mk 0 450 1100)
                 (Some ("Jupiter"%string, "#C88B3A"%string)))
              true) as (_ & Hclose & _).
  specialize (Hclose eq_refl). simpl in Hclose. exact Hclose.
Qed.

(* ----------------------------------------------------------------- *)
(** ** The Oort-cloud distance threshold *)

Section OortGate.

Import Scene Interaction.

Context {Internal : Type}.

Lemma oort_is_oort : truthy (Planet.is_oort_cloud OORT_CLOUD_PLANET) = true.
Proof. reflexivity. Qed.

(** C4.  With the Oort-cloud proxy as nearest hit, a click emits nothing
    while the camera is at most 1800 from the origin and emits "select"
    with the Oort-cloud record when it is farther; a double-click changes
    nothing and emits nothing, so no camera transition starts. *)
Theorem oort_proxy_gated_by_camera_distance
    (s : State Internal) (h : HitObject) (rest : list HitObject) :
  userData_planet h = Some OORT_CLOUD_PLANET ->
  (Vector3.length (position (camera s)) <= 1800 ->
   onCanvasClick (h :: rest) s = (s, [])) /\
  (Vector3.length (position (camera s)) > 1800 ->
   onCanvasClick (h :: rest) s = (s, [planetSelected OORT_CLOUD_PLANET])) /\
  onCanvasDblClick (h :: rest) s = (Some s, []) /\
  option_map zoomAnim (fst (onCanvasDblClick (h :: rest) s))
  = Some (zoomAnim s).
Proof.
  intros Hh. unfold onCanvasClick, onCanvasDblClick. rewrite Hh.
  rewrite oort_is_oort. simpl. unfold leb.
  destruct (Rle_dec (Vector3.length (position (camera s))) 1800) as [Hle | Hgt].
  - repeat split; try reflexivity. intros Hfar. lra.
  - repeat split; try reflexivity. intros Hnear. contradiction.
Qed.

End OortGate.

Lemma oort_proxy_gated_by_camera_distance_witness :
  Interaction.onCanvasClick [Interaction.oortProxy]
    (Examples.bareScene (Vector3.mk 0 450 1100) None)
  = (Examples.bareScene (Vector3.mk 0 450 1100) None, []) /\
  Interaction.onCanvasClick [Interaction.oortProxy]
    (Examples.bareScene (Vector3.mk 0 0 2000) None)
  = (Examples.bareScene (Vector3.mk 0 0 2000) None,
     [Interaction.planetSelected Scene.OORT_CLOUD_PLANET]).
Proof.
  split.
  - apply (oort_proxy_gated_by_camera_distance
             (Examples.bareScene (Vector3.mk 0 450 1100) None)
             Interaction.oortProxy [] eq_refl).
    unfold Vector3.length. simpl.
    replace 1800 with (sqrt (1800 * 1800)) by (apply sqrt_square; lra).
    apply sqrt_le_1_alt. lra.
  - apply (oort_proxy_gated_by_camera_distance
             (Examples.bareScene (Vector3.mk 0 0 2000) None)
             Interaction.oortProxy [] eq_refl).
    unfold Vector3.length. simpl.
    replace (0 * 0 + 0 * 0 + 2000 * 2000) with (2000 * 2000) by ring.
    rewrite sqrt_square by lra. lra.
Defined.

(* ----------------------------------------------------------------- *)
(** ** Focus gesture and camera transition *)

Section VectorFacts.

Lemma sum_squares_zero (p q r : R) :
  p * p + q * q + r * r = 0 -> p = 0 /\ q = 0 /\ r = 0.
Proof. intros H. repeat split; nra. Qed.

Lemma sub_length_pos (u v : Vec3) :
  u <> v -> 0 < Vector3.length (Vector3.sub u v).
Proof.
  intros Hne. unfold Vector3.length, Vector3.sub. simpl.
  apply sqrt_lt_R0.
  set (p := Vector3.x u - Vector3.x v).
  set (q := Vector3.y u - Vector3.y v).
  set (r := Vector3.z u - Vector3.z v).
  destruct (Rle_lt_or_eq_dec 0 (p * p + q * q + r * r)) as [Hlt | Heq].
  - nra.
  - exact Hlt.
  - exfalso. apply Hne. symmetry in Heq.
    apply sum_squares_zero in Heq. destruct Heq as (Hp & Hq & Hr).
    subst p q r. destruct u as [ux uy uz], v as [vx vy vz]. simpl in *.
    f_equal; lra.
Qed.

(** A point moved from [c] by [dist] along the unit vector from [c]
    towards [u] ends at distance [dist] from [c]. *)
Lemma addScaled_normalize_distance (u c : Vec3) (dist : R) :
  u <> c -> 0 <= dist ->
  Vector3.distanceTo
    (Vector3.addScaledVector c (Vector3.normalize (Vector3.sub u c)) dist) c
  = dist.
Proof.
  intros Hne Hd.
  pose proof (sub_length_pos u c Hne) as HL.
  unfold Vector3.normalize, num_or.
  destruct (Req_dec_T (Vector3.length (Vector3.sub u c)) 0) as [H0 | _];
    [lra |].
  revert HL. unfold Vector3.length, Vector3.sub. simpl.
  set (p := Vector3.x u - Vector3.x c).
  set (q := Vector3.y u - Vector3.y c).
  set (r := Vector3.z u - Vector3.z c).
  set (L := sqrt (p * p + q * q + r * r)).
  intros HL.
  assert (HLL : L * L = p * p + q * q + r * r).
  { unfold L. apply sqrt_sqrt. nra. }
  unfold Vector3.distanceTo, Vector3.addScaledVector, Vector3.divideScalar,
    Vector3.multiplyScalar. simpl.
  replace ((Vector3.x c + p * (1 / L) * dist - Vector3.x c)
           * (Vector3.x c + p * (1 / L) * dist - Vector3.x c)
           + (Vector3.y c + q * (1 / L) * dist - Vector3.y c)
             * (Vector3.y c + q * (1 / L) * dist - Vector3.y c)
           + (Vector3.z c + r * (1 / L) * dist - Vector3.z c)
             * (Vector3.z c + r * (1 / L) * dist - Vector3.z c))
    with (dist * dist * ((p * p + q * q + r * r) / (L * L)))
    by (field; lra).
  rewrite <- HLL.
  replace (dist * dist * (L * L / (L * L))) with (dist * dist)
    by (field; lra).
  apply sqrt_square. exact Hd.
Qed.

Lemma visual_size_pos (name : string) (d v : R) :
  0 < d ->
  nullish (Scene.lookup Scene.VISUAL_SIZES name) (numeric d) = numeric v ->
  0 < v.
Proof.
  intros Hd. unfold Scene.VISUAL_SIZES, Scene.lookup.
  repeat match goal with
         | |- context [String.eqb ?k name] =>
             destruct (String.eqb k name);
               [cbn [nullish]; intros Hv; injection Hv as <-; lra |]
         end.
  destruct (existsb (String.eqb name) OBJECT_PROTOTYPE); cbn [nullish];
    intros Hv; [discriminate Hv | injection Hv as <-; exact Hd].
Qed.

End VectorFacts.

Section CameraTransition.

Import Scene Frames Interaction.

Context {Internal : Type}.
Variable controls_update :
  Camera -> Controls Internal -> Camera * Controls Internal.

Lemma advance_le_1 (t : R) : advance t <= 1.
Proof. unfold advance. apply Rmin_r. Qed.

Lemma advance_monotone (t : R) : t <= 1 -> t <= advance t.
Proof. intros Ht. unfold advance. apply Rmin_glb; lra. Qed.

Lemma advance_below (t : R) : t + 0.04 <= 1 -> advance t = t + 0.04.
Proof. intros Ht. unfold advance. apply Rmin_left. exact Ht. Qed.

Lemma iter_advance (k : nat) :
  (k <= 25)%nat -> Nat.iter k advance 0 = 0.04 * INR k.
Proof.
  induction k as [| k IH]; intros Hk.
  - simpl. ring.
  - change (Nat.iter (S k) advance 0) with (advance (Nat.iter k advance 0)).
    rewrite IH by lia. rewrite S_INR.
    assert (Hb : INR (S k) <= INR 25) by (apply le_INR; exact Hk).
    rewrite S_INR in Hb.
    replace (INR 25) with 25 in Hb by (simpl; ring).
    rewrite advance_below by lra. ring.
Qed.

(** What the zoom block leaves in [_zoomAnim]. *)
Lemma animateZoom_anim (cam : Camera) (ctl : Controls Internal) (a : ZoomAnim.t) :
  snd (animateZoom cam ctl (Some a))
  = if geb (advance (ZoomAnim.t_ a)) 1 then None
    else Some (ZoomAnim.mk (ZoomAnim.fromCam a) (ZoomAnim.toCam a)
                 (ZoomAnim.fromTarget a) (ZoomAnim.toTarget a)
                 (advance (ZoomAnim.t_ a))).
Proof.
  unfold animateZoom. destruct (geb (advance (ZoomAnim.t_ a)) 1); reflexivity.
Qed.

Lemma frames_S (n : nat) (s : State Internal) :
  frames controls_update (S n) s
  = animate controls_update (frames controls_update n s).
Proof. reflexivity. Qed.

Lemma zoom_progress (s : State Internal) (fc tc ft tt : Vec3) (k : nat) :
  zoomAnim s = Some (ZoomAnim.mk fc tc ft tt 0) ->
  (k < 25)%nat ->
  zoomAnim (frames controls_update k s)
  = Some (ZoomAnim.mk fc tc ft tt (0.04 * INR k)).
Proof.
  intros Hz. induction k as [| k IH]; intros Hk.
  - simpl. rewrite Hz. f_equal. f_equal. ring.
  - rewrite frames_S, animate_zoomAnim, IH by lia. rewrite animateZoom_anim.
    cbn [ZoomAnim.t_ ZoomAnim.fromCam ZoomAnim.toCam ZoomAnim.fromTarget
         ZoomAnim.toTarget].
    assert (Hb : INR (S k) < INR 25) by (apply lt_INR; exact Hk).
    rewrite S_INR in Hb.
    replace (INR 25) with 25 in Hb by (simpl; ring).
    rewrite advance_below by lra.
    unfold geb. destruct (Rge_dec (0.04 * INR k + 0.04) 1) as [Hge | _];
      [lra |].
    rewrite S_INR. f_equal. f_equal. ring.
Qed.

Lemma zoom_done (s : State Internal) (fc tc ft tt : Vec3) :
  zoomAnim s = Some (ZoomAnim.mk fc tc ft tt 0) ->
  zoomAnim (frames controls_update 25 s) = None.
Proof.
  intros Hz.
  rewrite (frames_S 24), animate_zoomAnim, (zoom_progress s fc tc ft tt 24 Hz) by lia.
  rewrite animateZoom_anim. cbn [ZoomAnim.t_].
  replace (INR 24) with 24 by (simpl; ring).
  unfold advance. replace (0.04 * 24 + 0.04) with 1 by lra.
  rewrite Rmin_left by lra.
  unfold geb. destruct (Rge_dec 1 1) as [_ | Hn]; [reflexivity | lra].
Qed.

(** C5.  A double-click on a planet's proxy (a record that is not the Oort
    cloud, the belt or a comet, and whose [VISUAL_SIZES[name] ?? 2] is the
    number [visualRadius]) creates a transition with progress 0 whose
    destination is at distance [max(visualRadius * 8, minDistance + 5)]
    from the body's current position, wherever the camera is: the one
    position excluded is the one from which the ray caster cannot return
    the proxy, its own centre ([rayReaches]).  The progress then grows by
    0.04 per frame, never decreases or exceeds 1, reaches 1 in the 25th
    frame, and the transition is then discarded. *)
Theorem dblclick_planet_starts_bounded_transition
    (s : State Internal) (h : HitObject) (rest : list HitObject)
    (p : Planet.t) (visualRadius : R) :
  userData_planet h = Some p ->
  truthy (Planet.is_oort_cloud p) = false ->
  truthy (Planet.is_asteroid_belt p) = false ->
  truthy (Planet.is_comet p) = false ->
  nullish (lookup VISUAL_SIZES (Planet.name p)) (numeric 2)
  = numeric visualRadius ->
  rayReaches (position (camera s)) h ->
  let zoomDist := Rmax (visualRadius * 8) (minDistance (controls s) + 5) in
  exists (s1 : State Internal) (toCam : Vec3),
    onCanvasDblClick (h :: rest) s = (Some s1, [closeInfo]) /\
    zoomAnim s1
    = Some (ZoomAnim.mk (position (camera s)) toCam (target (controls s))
              (hit_position h) 0) /\
    Vector3.distanceTo toCam (hit_position h) = zoomDist /\
    (forall k : nat, (k < 25)%nat ->
        zoomAnim (frames controls_update k s1)
        = Some (ZoomAnim.mk (position (camera s)) toCam
                  (target (controls s)) (hit_position h) (0.04 * INR k))) /\
    zoomAnim (frames controls_update 25 s1) = None /\
    Nat.iter 25 advance 0 = 1 /\
    (forall t : R, advance t <= 1) /\
    (forall t : R, t <= 1 -> t <= advance t).
Proof.
  intros Hh Hoort Hbelt Hcomet Hvis Hray zoomDist.
  assert (Hz : zoomDistOf p (minDistance (controls s)) = Some zoomDist).
  { unfold zoomDistOf. rewrite Hbelt, Hcomet. cbv zeta. rewrite Hvis.
    reflexivity. }
  assert (Hne : position (camera s) <> hit_position h).
  { intros Heq. apply Hray. symmetry. exact Heq. }
  assert (Hpos : 0 <= zoomDist).
  { subst zoomDist.
    pose proof (visual_size_pos (Planet.name p) 2 visualRadius ltac:(lra) Hvis)
      as Hv.
    pose proof (Rmax_l (visualRadius * 8) (minDistance (controls s) + 5)) as Hm.
    lra. }
  unfold onCanvasDblClick. rewrite Hh, Hoort, Hz. cbv zeta.
  eexists. eexists. split; [reflexivity |].
  cbn [zoomAnim].
  split; [reflexivity |].
  split; [apply addScaled_normalize_distance; [exact Hne | exact Hpos] |].
  split; [intros k Hk; apply zoom_progress; [reflexivity | exact Hk] |].
  split; [eapply zoom_done; reflexivity |].
  split; [rewrite iter_advance by lia; simpl; lra |].
  split; [apply advance_le_1 | apply advance_monotone].
Qed.

End CameraTransition.

Lemma dblclick_planet_starts_bounded_transition_witness :
  Interaction.rayReaches (Vector3.mk 0 450 1100)
                         (Examples.jupiterHit (Vector3.mk 182 0 0)) /\
  exists (s1 : Scene.State unit) (toCam : Vec3),
    Interaction.onCanvasDblClick
      [Examples.jupiterHit (Vector3.mk 182 0 0)]
      (Examples.bareScene (Vector3.mk 0 450 1100) None)
    = (Some s1, [Interaction.closeInfo]) /\
    Vector3.distanceTo toCam (Vector3.mk 182 0 0) = Rmax (3.2 * 8) (15 + 5) /\
    Scene.zoomAnim (Frames.frames Examples.stillControls 25 s1) = None.
Proof.
  assert (Hray : Interaction.rayReaches (Vector3.mk 0 450 1100)
                   (Examples.jupiterHit (Vector3.mk 182 0 0))).
  { intros Heq. injection Heq as Hx _ _. lra. }
  split; [exact Hray |].
  destruct (dblclick_planet_starts_bounded_transition Examples.stillControls
              (Examples.bareScene (Vector3.mk 0 450 1100) None)
              (Examples.jupiterHit (Vector3.mk 182 0 0)) [] Examples.Jupiter
              3.2 eq_refl eq_refl eq_refl eq_refl eq_refl Hray)
    as (s1 & toCam & Hr & _ & Hd & _ & Hdone & _).
  exists s1, toCam. split; [exact Hr |]. split; [exact Hd | exact Hdone].
Defined.

(* ----------------------------------------------------------------- *)
(** ** The sample paused scene *)

Lemma solveKepler_circular_at_zero (a cN sN cI sI : R) :
  Kepler.solveKepler 0 a a 0 cN sN cI sI
  = Vector3.mk (cN * a) 0 (sN * a).
Proof.
  rewrite solveKepler_parts.
  unfold Kepler.solverPoint, Kepler.eccentricAnomaly.
  rewrite newton_zero_ecc, sin_0, cos_0. f_equal; ring.
Qed.

Lemma pausedScene_settled : Frames.settled Examples.pausedScene.
Proof.
  unfold Frames.settled, Examples.pausedScene. simpl.
  split; [| split].
  - constructor; [| constructor].
    unfold Frames.planetSettled, Scene.keplerToWorld, Examples.unitPlanet.
    simpl. rewrite solveKepler_circular_at_zero. f_equal; ring.
  - constructor; [| constructor].
    unfold Frames.cometSettled, Scene.keplerCometToWorld, Examples.unitComet.
    simpl. rewrite solveKepler_circular_at_zero. f_equal; ring.
  - constructor; [| constructor].
    exists Examples.unitPlanet. split; [reflexivity |].
    unfold Frames.moonPlace, Examples.unitMoon, Examples.unitPlanet. simpl.
    rewrite sin_0, cos_0. f_equal; ring.
Qed.

Lemma paused_frame_freezes_orbits_not_spin_witness :
  Scene.simulationSpeed Examples.pausedScene = 0 /\
  Frames.settled Examples.pausedScene /\
  map MoonObject.mesh_position
    (Scene.moonObjects
       (Scene.animate Examples.stillControls Examples.pausedScene))
  = [Vector3.mk 2 0 0] /\
  map PlanetObject.mesh_rotation_y
    (Scene.planetObjects
       (Scene.animate Examples.stillControls Examples.pausedScene))
  = [0 + 1 * 0.005].
Proof.
  split; [reflexivity |].
  split; [exact pausedScene_settled |].
  pose proof (paused_frame_freezes_orbits_not_spin Examples.stillControls
                Examples.pausedScene eq_refl pausedScene_settled) as H.
  split.
  - exact (proj1 (proj2 (proj2 (proj2 (proj2 (proj2 H)))))).
  - exact (proj1 (proj2 (proj2 (proj2 (proj2 (proj2 (proj2 H))))))).
Defined.

(* ----------------------------------------------------------------- *)
(** ** The constructors leave the bodies settled *)

Lemma newPlanetObject_settled (planet : Planet.t) (startM : R) :
  Frames.planetSettled (Build.newPlanetObject planet startM).
Proof. reflexivity. Qed.

Lemma newCometObject_settled (def : Build.CometDef) :
  Frames.cometSettled (Build.newCometObject def).
Proof. reflexivity. Qed.

Lemma newMoonObject_settled (planets : list PlanetObject.t)
    (parent : nat) (p : PlanetObject.t)
    (orbitVis periodDays incDeg startAngle : R) :
  nth_error planets parent = Some p ->
  Frames.moonSettled planets
    (Build.newMoonObject orbitVis periodDays incDeg parent
       (PlanetObject.mesh_position p) startAngle).
Proof.
  intros Hp. exists p. split; [exact Hp | reflexivity].
Qed.

(* ----------------------------------------------------------------- *)
(** ** Soundness of the rational enclosures *)

Section EnclosureFacts.

Import Enclosure.

Lemma Q2R_abs (q : Q) : Q2R (Qabs q) = Rabs (Q2R q).
Proof.
  apply Qabs_case; intros Hq.
  - rewrite Rabs_right; [reflexivity |].
    apply Rle_ge. replace 0 with (Q2R 0) by (unfold Q2R; simpl; lra).
    apply Qle_Rle. exact Hq.
  - rewrite Q2R_opp. rewrite Rabs_left1; [reflexivity |].
    replace 0 with (Q2R 0) by (unfold Q2R; simpl; lra).
    apply Qle_Rle. exact Hq.
Qed.

Lemma Q2R_inject_Z (z : Z) : Q2R (inject_Z z) = IZR z.
Proof. unfold Q2R, inject_Z. simpl. field. Qed.

Lemma Q2R_0 : Q2R 0 = 0.
Proof. unfold Q2R. simpl. lra. Qed.

Lemma Q2R_1 : Q2R 1 = 1.
Proof. unfold Q2R. simpl. lra. Qed.

Lemma Q2R_neq_0 (q : Q) : Q2R q <> 0 -> ~ (q == 0)%Q.
Proof.
  intros Hq Heq. apply Hq. rewrite (Qeq_eqR _ _ Heq). exact Q2R_0.
Qed.

Lemma Rabs_le_between (x r : R) : Rabs x <= r -> - r <= x <= r.
Proof.
  unfold Rabs. destruct (Rcase_abs x) as [Hneg | Hpos]; intros H; lra.
Qed.

Lemma contains_rad_nonneg (b : ball) (x : R) : contains b x -> 0 <= Q2R (rad b).
Proof.
  unfold contains. intros H. pose proof (Rabs_pos (x - Q2R (mid b))). lra.
Qed.

Lemma contains_bounds (b : ball) (x : R) :
  contains b x ->
  Q2R (mid b) - Q2R (rad b) <= x <= Q2R (mid b) + Q2R (rad b).
Proof.
  unfold contains. intros H.
  destruct (Rabs_le_between _ _ H) as [H1 H2]. lra.
Qed.

Lemma contains_const (q : Q) : contains (constB q) (Q2R q).
Proof.
  unfold contains, constB. simpl. rewrite Q2R_0.
  replace (Q2R q - Q2R q) with 0 by ring. rewrite Rabs_R0. lra.
Qed.

Lemma contains_round (b : ball) (x : R) : contains b x -> contains (roundB b) x.
Proof.
  unfold roundB.
  set (c := (Qfloor (mid b * inject_Z (Zpos grid)) # grid)%Q).
  set (w := (rad b + Qabs (mid b - c))%Q).
  set (r := (Qceiling (w * inject_Z (Zpos grid)) # grid)%Q).
  destruct (Qle_bool w r) eqn:Hwr; [| trivial].
  intros Hx. unfold contains in *. simpl.
  apply Qle_bool_imp_le in Hwr. apply Qle_Rle in Hwr.
  unfold w in Hwr. rewrite Q2R_plus, Q2R_abs, Q2R_minus in Hwr.
  replace (x - Q2R c) with ((x - Q2R (mid b)) + (Q2R (mid b) - Q2R c)) by ring.
  eapply Rle_trans; [apply Rabs_triang |]. lra.
Qed.

Lemma contains_sub (a b : ball) (x y : R) :
  contains a x -> contains b y -> contains (subB a b) (x - y).
Proof.
  unfold contains, subB. simpl. intros Hx Hy.
  rewrite Q2R_minus, Q2R_plus.
  replace (x - y - (Q2R (mid a) - Q2R (mid b)))
    with ((x - Q2R (mid a)) + - (y - Q2R (mid b))) by ring.
  eapply Rle_trans; [apply Rabs_triang |]. rewrite Rabs_Ropp. lra.
Qed.

Lemma contains_mul (a b : ball) (x y : R) :
  contains a x -> contains b y -> contains (mulB a b) (x * y).
Proof.
  unfold contains, mulB. simpl. intros Hx Hy.
  rewrite !Q2R_plus, !Q2R_mult, !Q2R_abs.
  set (ca := Q2R (mid a)) in *. set (cb := Q2R (mid b)) in *.
  set (ra := Q2R (rad a)) in *. set (rb := Q2R (rad b)) in *.
  replace (x * y - ca * cb)
    with (ca * (y - cb) + cb * (x - ca) + (x - ca) * (y - cb)) by ring.
  eapply Rle_trans; [apply Rabs_triang |].
  eapply Rle_trans; [apply Rplus_le_compat_r; apply Rabs_triang |].
  rewrite !Rabs_mult.
  pose proof (Rabs_pos ca). pose proof (Rabs_pos cb).
  pose proof (Rabs_pos (x - ca)). pose proof (Rabs_pos (y - cb)).
  nra.
Qed.

Lemma contains_divn (a : ball) (n : Z) (x : R) :
  (0 < n)%Z -> contains a x -> contains (divnB a n) (x / IZR n).
Proof.
  intros Hn Hx. unfold contains, divnB in *. simpl.
  assert (Hn' : 0 < IZR n) by (apply IZR_lt; exact Hn).
  assert (Hq : ~ (inject_Z n == 0)%Q).
  { apply Q2R_neq_0. rewrite Q2R_inject_Z. lra. }
  rewrite !Q2R_div by exact Hq. rewrite Q2R_inject_Z.
  replace (x / IZR n - Q2R (mid a) / IZR n)
    with ((x - Q2R (mid a)) * / IZR n) by (field; lra).
  rewrite Rabs_mult. rewrite (Rabs_right (/ IZR n)).
  - unfold Rdiv. apply Rmult_le_compat_r; [| exact Hx].
    apply Rlt_le. apply Rinv_0_lt_compat. exact Hn'.
  - apply Rle_ge. apply Rlt_le. apply Rinv_0_lt_compat. exact Hn'.
Qed.

Lemma contains_div (n d q : ball) (x y : R) :
  divB n d = Some q -> contains n x -> contains d y -> contains q (x / y).
Proof.
  unfold divB. destruct (Qle_bool (mid d) (rad d)) eqn:Hchk; [discriminate |].
  simpl. intros Hq Hx Hy. injection Hq as <-.
  assert (Hlt : Q2R (rad d) < Q2R (mid d)).
  { apply Qlt_Rlt. apply Qnot_le_lt. intros Hle.
    apply Qle_bool_iff in Hle. congruence. }
  pose proof (contains_rad_nonneg d y Hy) as Hdr.
  pose proof (contains_rad_nonneg n x Hx) as Hnr.
  pose proof (contains_bounds d y Hy) as [Hy1 _].
  unfold contains in *. simpl.
  assert (Hd0 : ~ (mid d == 0)%Q) by (apply Q2R_neq_0; lra).
  assert (Hd1 : ~ ((mid d - rad d) * mid d == 0)%Q).
  { apply Q2R_neq_0. rewrite Q2R_mult, Q2R_minus. nra. }
  rewrite !Q2R_div by assumption.
  rewrite Q2R_plus, !Q2R_mult, Q2R_minus, Q2R_abs.
  set (nc := Q2R (mid n)) in *. set (nr := Q2R (rad n)) in *.
  set (dc := Q2R (mid d)) in *. set (dr := Q2R (rad d)) in *.
  replace (x / y - nc / dc)
    with (((x - nc) * dc + - (nc * (y - dc))) * / (y * dc)) by (field; lra).
  rewrite Rabs_mult.
  assert (Hprod : 0 < (dc - dr) * dc) by nra.
  assert (Hprod' : (dc - dr) * dc <= y * dc) by nra.
  rewrite (Rabs_right (/ (y * dc))).
  2:{ apply Rle_ge, Rlt_le, Rinv_0_lt_compat. nra. }
  assert (Hnum : Rabs ((x - nc) * dc + - (nc * (y - dc)))
                 <= nr * dc + Rabs nc * dr).
  { eapply Rle_trans; [apply Rabs_triang |].
    rewrite Rabs_Ropp, !Rabs_mult. rewrite (Rabs_right dc) by lra.
    pose proof (Rabs_pos nc). pose proof (Rabs_pos (x - nc)).
    pose proof (Rabs_pos (y - dc)). nra. }
  assert (Hinv : / (y * dc) <= / ((dc - dr) * dc)).
  { apply Rinv_le_contravar; assumption. }
  assert (Hinv0 : 0 < / (y * dc)) by (apply Rinv_0_lt_compat; nra).
  pose proof (Rabs_pos nc) as Hnc.
  pose proof (Rabs_pos ((x - nc) * dc + - (nc * (y - dc)))) as Hpos.
  unfold Rdiv.
  apply Rle_trans with ((nr * dc + Rabs nc * dr) * / (y * dc)).
  - apply Rmult_le_compat_r; [lra | exact Hnum].
  - apply Rmult_le_compat_l; [nra | exact Hinv].
Qed.

Lemma contains_hull (lo hi : ball) (l h v : R) :
  contains lo l -> contains hi h -> l <= v <= h ->
  contains (hullB lo hi) v.
Proof.
  intros Hl Hh [Hv1 Hv2].
  pose proof (contains_bounds lo l Hl) as [Hl1 _].
  pose proof (contains_bounds hi h Hh) as [_ Hh2].
  unfold contains, hullB. simpl.
  assert (H2 : ~ (2 == 0)%Q) by (intros H; discriminate H).
  rewrite !Q2R_div by exact H2.
  rewrite Q2R_minus, !Q2R_plus, !Q2R_minus.
  replace (Q2R 2) with 2 by (unfold Q2R; simpl; lra).
  apply Rabs_le. lra.
Qed.

Lemma contains_tail (X : ball) (x : R) (d m k : nat) :
  contains X x -> contains (tailB X d k m) (tailR x d k m).
Proof.
  intros HX. revert k. induction m as [| m IH]; intros k.
  - simpl. rewrite <- Q2R_1. apply contains_const.
  - simpl tailB. simpl tailR.
    apply contains_round. apply contains_sub.
    + rewrite <- Q2R_1. apply contains_const.
    + apply contains_divn; [lia |].
      apply contains_mul; [exact HX | apply IH].
Qed.

(** The Horner tail is the alternating sum it stands for. *)
Lemma tailR_sum (x : R) (d m k : nat) :
  tailR x d k m
  = sum_f_R0
      (fun j => (-1) ^ j * x ^ j
                * (INR (fact (2 * k + d)) / INR (fact (2 * (k + j) + d))))
      m.
Proof.
  revert k. induction m as [| m IH]; intros k.
  - cbn [tailR sum_f_R0].
    replace (2 * (k + 0) + d)%nat with (2 * k + d)%nat by lia.
    pose proof (INR_fact_neq_0 (2 * k + d)). simpl pow. field. assumption.
  - cbn [tailR]. rewrite IH.
    rewrite (decomp_sum _ (S m)) by lia. cbn [pred].
    replace (2 * (k + 0) + d)%nat with (2 * k + d)%nat by lia.
    set (n0 := (2 * k + d)%nat).
    set (A := IZR (Z.of_nat ((n0 + 1) * (n0 + 2)))).
    assert (HA : A = INR (S n0) * INR (S (S n0))).
    { unfold A. rewrite <- INR_IZR_INZ, mult_INR.
      replace (n0 + 1)%nat with (S n0) by lia.
      replace (n0 + 2)%nat with (S (S n0)) by lia. reflexivity. }
    assert (H1 : INR (S n0) <> 0) by (apply not_0_INR; lia).
    assert (H2 : INR (S (S n0)) <> 0) by (apply not_0_INR; lia).
    pose proof (INR_fact_neq_0 n0) as HF.
    rewrite (sum_eq
               (fun i => (-1) ^ S i * x ^ S i
                         * (INR (fact n0) / INR (fact (2 * (k + S i) + d))))
               (fun i => (-1) ^ i * x ^ i
                         * (INR (fact (2 * S k + d))
                            / INR (fact (2 * (S k + i) + d)))
                         * (- x / A))).
    + rewrite <- scal_sum. rewrite HA. simpl pow. field. auto.
    + intros i _.
      replace (2 * (k + S i) + d)%nat with (2 * (S k + i) + d)%nat by lia.
      replace (2 * S k + d)%nat with (S (S n0)) by (unfold n0; lia).
      pose proof (INR_fact_neq_0 (2 * (S k + i) + d)) as HG.
      rewrite (fact_simpl (S n0)), (fact_simpl n0), !mult_INR, HA.
      simpl pow. field. auto.
Qed.

Lemma sin_approx_tail (a : R) (n : nat) :
  sin_approx a n = a * tailR (a * a) 1 0 n.
Proof.
  rewrite tailR_sum. unfold sin_approx. rewrite scal_sum.
  apply sum_eq. intros i _. unfold sin_term.
  replace (2 * 0 + 1)%nat with 1%nat by lia.
  replace (2 * (0 + i) + 1)%nat with (2 * i + 1)%nat by lia.
  pose proof (INR_fact_neq_0 (2 * i + 1)) as HF.
  rewrite pow_add, pow_mult. simpl fact. simpl INR.
  replace (a ^ 2) with (a * a) by ring.
  simpl pow. field. exact HF.
Qed.

Lemma cos_approx_tail (a : R) (n : nat) :
  cos_approx a n = tailR (a * a) 0 0 n.
Proof.
  rewrite tailR_sum. unfold cos_approx.
  apply sum_eq. intros i _. unfold cos_term.
  replace (2 * 0 + 0)%nat with 0%nat by lia.
  replace (2 * (0 + i) + 0)%nat with (2 * i)%nat by lia.
  pose proof (INR_fact_neq_0 (2 * i)) as HF.
  rewrite pow_mult. simpl fact. simpl INR.
  replace (a ^ 2) with (a * a) by ring.
  field. exact HF.
Qed.

Lemma square_contained (E : ball) (x : R) :
  contains E x -> contains (roundB (mulB E E)) (x * x).
Proof. intros HE. apply contains_round. apply contains_mul; exact HE. Qed.

Lemma contains_sin (E S : ball) (x : R) :
  sinB E = Some S -> contains E x -> contains S (sin x).
Proof.
  unfold sinB.
  destruct (Qle_bool 0 (mid E - rad E)) eqn:Hlo; [| discriminate].
  destruct (Qle_bool (mid E + rad E) 4) eqn:Hhi; [| discriminate].
  cbn [andb]. intros HS HE. injection HS as <-.
  apply Qle_bool_imp_le, Qle_Rle in Hlo. apply Qle_bool_imp_le, Qle_Rle in Hhi.
  rewrite Q2R_minus, Q2R_0 in Hlo. rewrite Q2R_plus in Hhi.
  replace (Q2R 4) with 4 in Hhi by (unfold Q2R; simpl; lra).
  pose proof (contains_bounds E x HE) as [Hx1 Hx2].
  assert (Hx0 : 0 <= x) by lra. assert (Hx4 : x <= 4) by lra.
  pose proof (pre_sin_bound x order Hx0 Hx4) as Hb.
  unfold sinTaylor. apply contains_round.
  apply contains_hull
    with (l := sin_approx x (2 * order + 1)) (h := sin_approx x (2 * (order + 1))).
  - rewrite sin_approx_tail. apply contains_mul; [exact HE |].
    apply contains_tail. apply square_contained. exact HE.
  - rewrite sin_approx_tail. apply contains_mul; [exact HE |].
    apply contains_tail. apply square_contained. exact HE.
  - exact Hb.
Qed.

Lemma contains_cos (E C : ball) (x : R) :
  cosB E = Some C -> contains E x -> contains C (cos x).
Proof.
  unfold cosB.
  destruct (Qle_bool (-2) (mid E - rad E)) eqn:Hlo; [| discriminate].
  destruct (Qle_bool (mid E + rad E) 2) eqn:Hhi; [| discriminate].
  cbn [andb]. intros HC HE. injection HC as <-.
  apply Qle_bool_imp_le, Qle_Rle in Hlo. apply Qle_bool_imp_le, Qle_Rle in Hhi.
  rewrite Q2R_minus in Hlo. rewrite Q2R_plus in Hhi.
  replace (Q2R (-2)) with (-2) in Hlo by (unfold Q2R; simpl; lra).
  replace (Q2R 2) with 2 in Hhi by (unfold Q2R; simpl; lra).
  pose proof (contains_bounds E x HE) as [Hx1 Hx2].
  assert (Hxl : -2 <= x) by lra. assert (Hxh : x <= 2) by lra.
  pose proof (pre_cos_bound x order Hxl Hxh) as Hb.
  unfold cosTaylor. apply contains_round.
  apply contains_hull
    with (l := cos_approx x (2 * order + 1)) (h := cos_approx x (2 * (order + 1))).
  - rewrite cos_approx_tail. apply contains_tail. apply square_contained. exact HE.
  - rewrite cos_approx_tail. apply contains_tail. apply square_contained. exact HE.
  - exact Hb.
Qed.

Lemma contains_residual (e M : Q) (E r : ball) (x : R) :
  residualB e M E = Some r -> contains E x ->
  contains r (x - Q2R e * sin x - Q2R M).
Proof.
  unfold residualB. destruct (sinB E) as [s |] eqn:Hs; [| discriminate].
  intros Hr HE. injection Hr as <-.
  apply contains_sub; [| apply contains_const].
  apply contains_sub; [exact HE |].
  apply contains_mul; [apply contains_const |].
  eapply contains_sin; eassumption.
Qed.

Lemma contains_newton (e M : Q) (E E' : ball) (x : R) :
  newtonB e M E = Some E' -> contains E x ->
  contains E'
    (x - (x - Q2R e * sin x - Q2R M) / (1 - Q2R e * cos x)).
Proof.
  unfold newtonB.
  destruct (residualB e M E) as [num |] eqn:Hnum; [| discriminate].
  destruct (cosB E) as [k |] eqn:Hk; [| discriminate].
  destruct (divB num (subB (constB 1) (mulB (constB e) k))) as [q |] eqn:Hq;
    [| discriminate].
  intros HE' HE. injection HE' as <-.
  apply contains_round. apply contains_sub; [exact HE |].
  eapply contains_div; [exact Hq | |].
  - eapply contains_residual; eassumption.
  - apply contains_sub.
    + rewrite <- Q2R_1. apply contains_const.
    + apply contains_mul; [apply contains_const |].
      eapply contains_cos; eassumption.
Qed.

Lemma contains_newton_iter (n : nat) (e M : Q) (E E' : ball) (x : R) :
  newtonB_iter n e M E = Some E' -> contains E x ->
  contains E' (Kepler.newton n (Q2R e) (Q2R M) x).
Proof.
  revert E x. induction n as [| n IH]; intros E x Hit HE.
  - simpl in *. injection Hit as <-. exact HE.
  - simpl in Hit. destruct (newtonB e M E) as [E1 |] eqn:H1; [| discriminate].
    simpl. apply (IH E1); [exact Hit |].
    eapply contains_newton; eassumption.
Qed.

(** What a successful run of the check proves about the solver. *)
Lemma residual_at_least_sound (n : nat) (e M tol : Q) :
  residual_at_least n e M tol = true ->
  Q2R tol
  <= Kepler.newton n (Q2R e) (Q2R M) (Q2R M)
     - Q2R e * sin (Kepler.newton n (Q2R e) (Q2R M) (Q2R M)) - Q2R M.
Proof.
  unfold residual_at_least.
  destruct (newtonB_iter n e M (constB M)) as [B |] eqn:Hit; [| discriminate].
  destruct (residualB e M B) as [r |] eqn:Hr; [| discriminate].
  intros Hchk. set (E := Kepler.newton n (Q2R e) (Q2R M) (Q2R M)).
  apply Qle_bool_imp_le, Qle_Rle in Hchk. rewrite Q2R_minus in Hchk.
  assert (HB : contains B E).
  { eapply contains_newton_iter; [exact Hit | apply contains_const]. }
  pose proof (contains_residual e M B r E Hr HB) as Hres.
  apply contains_bounds in Hres. lra.
Qed.

End EnclosureFacts.

(* ----------------------------------------------------------------- *)
(** ** Accuracy of the solver for comet Encke *)

Section SolverAccuracy.

Import Kepler.

(** Shifting the mean anomaly by whole turns shifts every iterate alike. *)
Lemma newton_periodic (n k : nat) (e M E : R) :
  newton n e (M + 2 * INR k * PI) (E + 2 * INR k * PI)
  = newton n e M E + 2 * INR k * PI.
Proof.
  revert E. induction n as [| n IH]; intros E.
  - reflexivity.
  - simpl. rewrite sin_period, cos_period.
    set (P := 2 * INR k * PI).
    replace (E + P - e * sin E - (M + P)) with (E - e * sin E - M) by ring.
    replace (E + P - (E - e * sin E - M) / (1 - e * cos E))
      with (E - (E - e * sin E - M) / (1 - e * cos E) + P)
      by (unfold Rdiv; ring).
    apply IH.
Qed.

Lemma eccentricAnomaly_periodic (k : nat) (e M : R) :
  eccentricAnomaly (M + 2 * INR k * PI) e
  = eccentricAnomaly M e + 2 * INR k * PI.
Proof. unfold eccentricAnomaly. apply newton_periodic. Qed.

Lemma residual_periodic (k : nat) (e M : R) :
  let M' := M + 2 * INR k * PI in
  eccentricAnomaly M' e - e * sin (eccentricAnomaly M' e) - M'
  = eccentricAnomaly M e - e * sin (eccentricAnomaly M e) - M.
Proof.
  intros M'. unfold M'. rewrite eccentricAnomaly_periodic, sin_period. ring.
Qed.

Lemma encke_iters : iters 0.84823 = 5%nat.
Proof.
  destruct (iters_cases 0.84823) as [[H _] | [_ H]]; [lra | exact H].
Qed.

Lemma encke_enclosure_check :
  Enclosure.residual_at_least 5 (84823 # 100000) (39 # 100) (5 # 1000000000)
  = true.
Proof. vm_compute. reflexivity. Qed.

Lemma encke_residual_lower_bound :
  5e-9 <= eccentricAnomaly 0.39 0.84823
          - 0.84823 * sin (eccentricAnomaly 0.39 0.84823) - 0.39.
Proof.
  pose proof (residual_at_least_sound 5 _ _ _ encke_enclosure_check)
    as H.
  replace (Q2R (84823 # 100000)) with 0.84823 in H by (unfold Q2R; simpl; lra).
  replace (Q2R (39 # 100)) with 0.39 in H by (unfold Q2R; simpl; lra).
  replace (Q2R (5 # 1000000000)) with 5e-9 in H by (unfold Q2R; simpl; lra).
  unfold eccentricAnomaly. rewrite encke_iters. exact H.
Qed.

Lemma encke_is_a_comet :
  exists c : CometObject.t,
    In c Build.createComets /\
    Planet.name (CometObject.planet c) = "Encke"%string /\
    CometObject.e c = 0.84823.
Proof.
  exists (Build.newCometObject
            (nth 1 Build.COMET_DEFS (Build.mkCometDef "" "" "" "" 0 0 0 0 0 0 0 0))).
  split; [| split; reflexivity].
  unfold Build.createComets, Build.COMET_DEFS. simpl. right. left. reflexivity.
Qed.

(** C1 at a failing input.  Comet Encke is one of the comets the scene
    creates, with [e = 0.84823]; that is at most 0.9, so the solver runs 5
    updates; and at mean anomaly 0.39, or 0.39 plus any number of whole
    turns, the eccentric anomaly it returns leaves a residual
    [E - e sin E - M] of at least 5e-9, so its absolute value is not below
    1e-9. *)
Theorem encke_residual_exceeds_tolerance :
  (exists c : CometObject.t,
      In c Build.createComets /\
      Planet.name (CometObject.planet c) = "Encke"%string /\
      CometObject.e c = 0.84823) /\
  iters 0.84823 = 5%nat /\
  forall k : nat,
    let M := 0.39 + 2 * INR k * PI in
    let E := eccentricAnomaly M 0.84823 in
    5e-9 <= E - 0.84823 * sin E - M /\
    ~ Rabs (E - 0.84823 * sin E - M) < 1e-9.
Proof.
  split; [exact encke_is_a_comet |].
  split; [exact encke_iters |].
  intros k M E. subst E M.
  rewrite (residual_periodic k 0.84823 0.39).
  pose proof encke_residual_lower_bound as H.
  split; [exact H |].
  rewrite Rabs_right by lra. lra.
Qed.

(** The bound claimed for every [e] in [0, 0.97) and [M] in [0, 2 PI)
    fails inside that range. *)
Lemma residual_bound_fails_in_range :
  ~ (forall e M : R,
        0 <= e < 0.97 -> 0 <= M < 2 * PI ->
        Rabs (eccentricAnomaly M e - e * sin (eccentricAnomaly M e) - M)
        < 1e-9).
Proof.
  intros H.
  assert (He : 0 <= 0.84823 < 0.97) by lra.
  assert (HM : 0 <= 0.39 < 2 * PI) by (pose proof PI2_1; lra).
  specialize (H 0.84823 0.39 He HM).
  pose proof encke_residual_lower_bound as Hlow.
  rewrite Rabs_right in H by lra. lra.
Qed.

End SolverAccuracy.

(* ----------------------------------------------------------------- *)
(** ** Accuracy of the solver for the planets *)

Section PlanetAccuracy.

Import Kepler.

Lemma cos_quadratic_lower (d : R) : 1 - d * d / 2 <= cos d.
Proof.
  destruct (Rle_dec (-2) d) as [Hl | Hl];
    [destruct (Rle_dec d 2) as [Hh | Hh] |].
  - pose proof (pre_cos_bound d 0 Hl Hh) as [Hb _].
    unfold cos_approx, cos_term in Hb. simpl in Hb. lra.
  - pose proof (COS_bound d). nra.
  - pose proof (COS_bound d). nra.
Qed.

Lemma sin_cubic_nonneg (d : R) : 0 <= d -> d - d * d * d / 6 <= sin d <= d.
Proof.
  intros Hd. split.
  - destruct (Rle_dec d 4) as [H4 | H4].
    + pose proof (pre_sin_bound d 0 Hd H4) as [Hb _].
      unfold sin_approx, sin_term in Hb. simpl in Hb. lra.
    + pose proof (SIN_bound d). nra.
  - destruct (Req_dec d 0) as [-> | Hne].
    + rewrite sin_0. lra.
    + apply Rlt_le. apply sin_lt_x. lra.
Qed.

Lemma sin_cubic (d : R) : Rabs (sin d - d) <= Rabs d * Rabs d * Rabs d / 6.
Proof.
  destruct (Rle_dec 0 d) as [Hd | Hd].
  - pose proof (sin_cubic_nonneg d Hd) as [H1 H2].
    rewrite (Rabs_right d) by lra. apply Rabs_le. nra.
  - assert (Hd' : 0 <= - d) by lra.
    pose proof (sin_cubic_nonneg (- d) Hd') as [H1 H2].
    rewrite sin_neg in H1, H2.
    rewrite (Rabs_left d) by lra. apply Rabs_le. nra.
Qed.

(** Second-order remainder of sine around [E]. *)
Lemma sin_remainder (E d : R) :
  Rabs (sin (E + d) - sin E - d * cos E)
  <= d * d / 2 + Rabs d * Rabs d * Rabs d / 6.
Proof.
  rewrite sin_plus.
  replace (sin E * cos d + cos E * sin d - sin E - d * cos E)
    with (sin E * (cos d - 1) + cos E * (sin d - d)) by ring.
  eapply Rle_trans; [apply Rabs_triang |].
  rewrite !Rabs_mult.
  pose proof (cos_quadratic_lower d) as Hc. pose proof (COS_bound d) as [_ Hc1].
  assert (Hcd : Rabs (cos d - 1) <= d * d / 2) by (apply Rabs_le; lra).
  pose proof (sin_cubic d) as Hs.
  pose proof (SIN_bound E) as [Hs1 Hs2]. pose proof (COS_bound E) as [Hc2 Hc3].
  assert (HsE : Rabs (sin E) <= 1) by (apply Rabs_le; lra).
  assert (HcE : Rabs (cos E) <= 1) by (apply Rabs_le; lra).
  pose proof (Rabs_pos (sin E)). pose proof (Rabs_pos (cos E)).
  pose proof (Rabs_pos (cos d - 1)). pose proof (Rabs_pos (sin d - d)).
  nra.
Qed.

(** One Newton update squares the residual, up to a factor. *)
Lemma newton_update_residual (e M E B : R) :
  0 <= e <= 0.4 ->
  Rabs (E - e * sin E - M) <= B ->
  let D := B / 0.6 in
  let E' := E - (E - e * sin E - M) / (1 - e * cos E) in
  Rabs (E' - e * sin E' - M) <= 0.4 * (D * D / 2 + D * D * D / 6).
Proof.
  intros [He0 He1] Hr D E'.
  set (r := E - e * sin E - M) in *.
  set (f' := 1 - e * cos E) in *.
  assert (Hf : 0.6 <= f').
  { unfold f'. pose proof (COS_bound E) as [_ Hc]. nra. }
  set (d := - (r / f')).
  assert (HE' : E' = E + d) by (unfold E', d; ring).
  assert (Hres : E' - e * sin E' - M
                 = - (e * (sin (E + d) - sin E - d * cos E))).
  { rewrite HE'. unfold d, r, f'.
    field. fold f'. lra. }
  rewrite Hres, Rabs_Ropp, Rabs_mult, (Rabs_right e) by lra.
  pose proof (sin_remainder E d) as Hrem.
  assert (HB : 0 <= B) by (pose proof (Rabs_pos r); lra).
  assert (Hd : Rabs d <= D).
  { unfold d, D. rewrite Rabs_Ropp. unfold Rdiv. rewrite Rabs_mult.
    rewrite (Rabs_right (/ f')).
    2:{ apply Rle_ge, Rlt_le, Rinv_0_lt_compat. lra. }
    assert (Hinv : / f' <= / 0.6) by (apply Rinv_le_contravar; lra).
    assert (Hinv0 : 0 < / f') by (apply Rinv_0_lt_compat; lra).
    pose proof (Rabs_pos r). nra. }
  assert (Hdd : d * d = Rabs d * Rabs d).
  { rewrite <- Rabs_mult. symmetry. apply Rabs_right. nra. }
  pose proof (Rabs_pos d) as Hd0.
  pose proof (Rabs_pos (sin (E + d) - sin E - d * cos E)) as Hh0.
  assert (Hsq : Rabs d * Rabs d <= D * D) by nra.
  assert (Hcu : Rabs d * Rabs d * Rabs d <= D * D * D) by nra.
  assert (Hh : Rabs (sin (E + d) - sin E - d * cos E)
               <= D * D / 2 + D * D * D / 6) by lra.
  assert (HDD : 0 <= D * D / 2 + D * D * D / 6).
  { assert (0 <= D) by lra. nra. }
  nra.
Qed.

(** For every eccentricity up to 0.4, which covers the planets the data
    service returns (at most 0.2056), and every mean anomaly, the five
    updates bring the residual below 1e-9. *)
Theorem planet_residual_within_tolerance (e M : R) :
  0 <= e <= 0.4 ->
  Rabs (eccentricAnomaly M e - e * sin (eccentricAnomaly M e) - M) < 1e-9.
Proof.
  intros He.
  assert (Hit : iters e = 5%nat).
  { destruct (iters_cases e) as [[H _] | [_ H]]; [lra | exact H]. }
  unfold eccentricAnomaly. rewrite Hit.
  assert (H0 : Rabs (M - e * sin M - M) <= 0.4).
  { replace (M - e * sin M - M) with (- (e * sin M)) by ring.
    rewrite Rabs_Ropp, Rabs_mult, (Rabs_right e) by lra.
    pose proof (SIN_bound M) as [Hs1 Hs2].
    assert (Rabs (sin M) <= 1) by (apply Rabs_le; lra).
    pose proof (Rabs_pos (sin M)). nra. }
  pose proof (newton_update_residual e M M 0.4 He H0) as H1. cbv zeta in H1.
  set (E1 := M - (M - e * sin M - M) / (1 - e * cos M)) in *.
  assert (H1' : Rabs (E1 - e * sin E1 - M) <= 0.11) by lra.
  pose proof (newton_update_residual e M E1 0.11 He H1') as H2. cbv zeta in H2.
  set (E2 := E1 - (E1 - e * sin E1 - M) / (1 - e * cos E1)) in *.
  assert (H2' : Rabs (E2 - e * sin E2 - M) <= 0.0072) by lra.
  pose proof (newton_update_residual e M E2 0.0072 He H2') as H3. cbv zeta in H3.
  set (E3 := E2 - (E2 - e * sin E2 - M) / (1 - e * cos E2)) in *.
  assert (H3' : Rabs (E3 - e * sin E3 - M) <= 3e-5) by lra.
  pose proof (newton_update_residual e M E3 3e-5 He H3') as H4. cbv zeta in H4.
  set (E4 := E3 - (E3 - e * sin E3 - M) / (1 - e * cos E3)) in *.
  assert (H4' : Rabs (E4 - e * sin E4 - M) <= 6e-10) by lra.
  pose proof (newton_update_residual e M E4 6e-10 He H4') as H5. cbv zeta in H5.
  set (E5 := E4 - (E4 - e * sin E4 - M) / (1 - e * cos E4)) in *.
  change (newton 5 e M M) with E5.
  lra.
Qed.

End PlanetAccuracy.
(* ----------------------------------------------------------------- *)
(** ** Periodicity and shape of the orbit *)

Section OrbitShape.

Import Kepler Orbit.

(** X1.  The solver returns the same world position for a mean anomaly and
    for that anomaly plus any number of whole turns. *)
Theorem solveKepler_periodic (k : nat) (M a b e cN sN cI sI : R) :
  solveKepler (M + 2 * INR k * PI) a b e cN sN cI sI
  = solveKepler M a b e cN sN cI sI.
Proof.
  rewrite !solveKepler_parts, eccentricAnomaly_periodic.
  unfold solverPoint. rewrite cos_period, sin_period. reflexivity.
Qed.

Lemma focus_distance_sq (a b e cN sN cI sI E : R) :
  descriptorOK a b e cN sN cI sI ->
  let p := solverPoint a b e cN sN cI sI E in
  Vector3.x p * Vector3.x p + Vector3.y p * Vector3.y p
  + Vector3.z p * Vector3.z p
  = (a * (1 - e * cos E)) * (a * (1 - e * cos E)).
Proof.
  intros (Ha & [He0 He1] & Hb & HN & HI) p. subst p. unfold solverPoint. simpl.
  assert (Hs : sqrt (1 - e * e) * sqrt (1 - e * e) = 1 - e * e)
    by (apply sqrt_sqrt; nra).
  pose proof (sin2_cos2 E) as Hsc. unfold Rsqr in Hsc.
  set (x := a * (cos E - e)). set (y := b * sin E).
  replace ((cN * x - sN * cI * y) * (cN * x - sN * cI * y)
           + sI * y * (sI * y)
           + (sN * x + cN * cI * y) * (sN * x + cN * cI * y))
    with ((cN * cN + sN * sN) * (x * x)
          + (cI * cI * (cN * cN + sN * sN) + sI * sI) * (y * y)) by ring.
  rewrite HN. replace (cI * cI * 1 + sI * sI) with 1 by (rewrite Rmult_1_r; symmetry; exact HI).
  unfold x, y. rewrite Hb.
  replace (a * sqrt (1 - e * e) * sin E * (a * sqrt (1 - e * e) * sin E))
    with (a * a * (sqrt (1 - e * e) * sqrt (1 - e * e)) * (sin E * sin E))
    by ring.
  rewrite Hs.
  replace (sin E * sin E) with (1 - cos E * cos E) by nra. ring.
Qed.

Lemma focus_distance (a b e cN sN cI sI E : R) :
  descriptorOK a b e cN sN cI sI ->
  Vector3.length (solverPoint a b e cN sN cI sI E) = a * (1 - e * cos E).
Proof.
  intros H. unfold Vector3.length.
  rewrite (focus_distance_sq a b e cN sN cI sI E H).
  destruct H as (Ha & [He0 He1] & _).
  apply sqrt_square. pose proof (COS_bound E) as [Hc1 Hc2].
  assert (He : e * cos E <= e) by nra.
  apply Rmult_le_pos; lra.
Qed.

Lemma focus_distance_bounds (a b e cN sN cI sI E : R) :
  descriptorOK a b e cN sN cI sI ->
  a * (1 - e) <= Vector3.length (solverPoint a b e cN sN cI sI E)
  <= a * (1 + e).
Proof.
  intros H. rewrite (focus_distance a b e cN sN cI sI E H).
  destruct H as (Ha & [He0 He1] & _).
  pose proof (COS_bound E) as [Hc1 Hc2].
  assert (Hu : e * cos E <= e) by nra.
  assert (Hl : - e <= e * cos E) by nra.
  split; apply Rmult_le_compat_l; lra.
Qed.

End OrbitShape.

(* ----------------------------------------------------------------- *)
(** ** What frames keep and how they advance the bodies *)

Section FrameRuns.

Import Scene Frames Orbit Moon.

Context {Internal : Type}.
Variable controls_update :
  Camera -> Controls Internal -> Camera * Controls Internal.

Lemma animate_asteroidBelt (s : State Internal) :
  asteroidBelt_rotation_y (animate controls_update s)
  = match asteroidBelt_rotation_y s with
    | Some r => Some (r - 0.00008 * simulationSpeed s)
    | None => None
    end.
Proof.
  unfold animate.
  destruct (animateZoom (camera s) (controls s) (zoomAnim s)) as [[c k] z].
  destruct (controls_update c k). reflexivity.
Qed.

Lemma animate_hovered_height (s : State Internal) :
  hoveredPlanet (animate controls_update s) = hoveredPlanet s /\
  clientHeight (animate controls_update s) = clientHeight s.
Proof.
  unfold animate.
  destruct (animateZoom (camera s) (controls s) (zoomAnim s)) as [[c k] z].
  destruct (controls_update c k). split; reflexivity.
Qed.

Lemma animateMoon_elements (speed : R) (planets : list PlanetObject.t)
    (m : MoonObject.t) :
  moonElements (animateMoon speed planets m) = moonElements m.
Proof.
  unfold animateMoon.
  destruct (nth_error planets (MoonObject.parentPlanetObj m)); reflexivity.
Qed.

Lemma frames_simulationSpeed (n : nat) (s : State Internal) :
  simulationSpeed (frames controls_update n s) = simulationSpeed s.
Proof.
  induction n as [| n IH]; [reflexivity |].
  rewrite frames_S, animate_simulationSpeed. exact IH.
Qed.

(** X2.  No run of frames changes what was fixed at construction: the body
    record, the orbital elements and rates of every planet, comet and moon
    (hence the number of bodies), the hovered body, and the simulation
    speed. *)
Theorem frames_keep_orbital_elements (n : nat) (s : State Internal) :
  map planetElements (planetObjects (frames controls_update n s))
  = map planetElements (planetObjects s) /\
  map cometElements (cometObjects (frames controls_update n s))
  = map cometElements (cometObjects s) /\
  map moonElements (moonObjects (frames controls_update n s))
  = map moonElements (moonObjects s) /\
  hoveredPlanet (frames controls_update n s) = hoveredPlanet s /\
  simulationSpeed (frames controls_update n s) = simulationSpeed s.
Proof.
  induction n as [| n (IHp & IHc & IHm & IHh & IHs)].
  - repeat split; reflexivity.
  - rewrite frames_S.
    rewrite animate_moonObjects, animate_cometObjects, animate_planetObjects.
    rewrite animate_simulationSpeed.
    rewrite (proj1 (animate_hovered_height _)).
    rewrite !map_map.
    split; [| split; [| split; [| split]]].
    + rewrite <- IHp. apply map_ext. intros p. reflexivity.
    + rewrite <- IHc. apply map_ext. intros c. reflexivity.
    + rewrite <- IHm. apply map_ext. intros m. apply animateMoon_elements.
    + exact IHh.
    + exact IHs.
Qed.

Lemma frames_planet_anomaly (n : nat) (s : State Internal) :
  map (fun p => (PlanetObject.speed p, PlanetObject.meanAnomaly p))
      (planetObjects (frames controls_update n s))
  = map (fun p => (PlanetObject.speed p,
                   PlanetObject.meanAnomaly p
                   + INR n * (PlanetObject.speed p * simulationSpeed s)))
        (planetObjects s).
Proof.
  induction n as [| n IH].
  - simpl. apply map_ext. intros p. f_equal. ring.
  - rewrite frames_S, animate_planetObjects, frames_simulationSpeed.
    rewrite map_map.
    transitivity
      (map (fun q : R * R => (fst q, snd q + fst q * simulationSpeed s))
           (map (fun p => (PlanetObject.speed p, PlanetObject.meanAnomaly p))
                (planetObjects (frames controls_update n s)))).
    + rewrite map_map. apply map_ext. intros p. reflexivity.
    + rewrite IH, map_map. apply map_ext. intros p. cbn [fst snd].
      rewrite S_INR. f_equal; ring.
Qed.

Lemma frames_comet_anomaly (n : nat) (s : State Internal) :
  map (fun c => (CometObject.speed c, CometObject.meanAnomaly c))
      (cometObjects (frames controls_update n s))
  = map (fun c => (CometObject.speed c,
                   CometObject.meanAnomaly c
                   + INR n * (CometObject.speed c * simulationSpeed s)))
        (cometObjects s).
Proof.
  induction n as [| n IH].
  - simpl. apply map_ext. intros c. f_equal. ring.
  - rewrite frames_S, animate_cometObjects, frames_simulationSpeed.
    rewrite map_map.
    transitivity
      (map (fun q : R * R => (fst q, snd q + fst q * simulationSpeed s))
           (map (fun c => (CometObject.speed c, CometObject.meanAnomaly c))
                (cometObjects (frames controls_update n s)))).
    + rewrite map_map. apply map_ext. intros c. reflexivity.
    + rewrite IH, map_map. apply map_ext. intros c. cbn [fst snd].
      rewrite S_INR. f_equal; ring.
Qed.

Lemma frames_belt_rotation (n : nat) (s : State Internal) :
  asteroidBelt_rotation_y (frames controls_update n s)
  = match asteroidBelt_rotation_y s with
    | Some r => Some (r - INR n * (0.00008 * simulationSpeed s))
    | None => None
    end.
Proof.
  induction n as [| n IH].
  - simpl. destruct (asteroidBelt_rotation_y s); [f_equal; ring | reflexivity].
  - rewrite frames_S, animate_asteroidBelt, IH, frames_simulationSpeed.
    destruct (asteroidBelt_rotation_y s); [| reflexivity].
    rewrite S_INR. f_equal. ring.
Qed.

(** X3.  At a constant simulation speed [v], after [n] frames every
    planet's and comet's mean anomaly has grown by [n * (speed * v)] and
    the belt has turned by [- n * (0.00008 * v)]: the advance is linear in
    the number of frames and is never wrapped. *)
Theorem frames_advance_linearly (n : nat) (s : State Internal) :
  let v := simulationSpeed s in
  map PlanetObject.meanAnomaly (planetObjects (frames controls_update n s))
  = map (fun p => PlanetObject.meanAnomaly p
                  + INR n * (PlanetObject.speed p * v))
        (planetObjects s) /\
  map CometObject.meanAnomaly (cometObjects (frames controls_update n s))
  = map (fun c => CometObject.meanAnomaly c
                  + INR n * (CometObject.speed c * v))
        (cometObjects s) /\
  asteroidBelt_rotation_y (frames controls_update n s)
  = match asteroidBelt_rotation_y s with
    | Some r => Some (r - INR n * (0.00008 * v))
    | None => None
    end.
Proof.
  intros v. subst v.
  split; [| split].
  - pose proof (frames_planet_anomaly n s) as HP.
    apply (f_equal (map snd)) in HP. rewrite !map_map in HP. exact HP.
  - pose proof (frames_comet_anomaly n s) as HC.
    apply (f_equal (map snd)) in HC. rewrite !map_map in HC. exact HC.
  - apply frames_belt_rotation.
Qed.

End FrameRuns.

(* ----------------------------------------------------------------- *)
(** ** Bodies stay on their ellipse *)

Section OrbitBounds.

Import Scene Orbit.

Lemma trig_unit (x : R) : cos x * cos x + sin x * sin x = 1.
Proof. pose proof (sin2_cos2 x) as H. unfold Rsqr in H. lra. Qed.

Lemma newPlanetObject_OK (planet : Planet.t) (startM : R) :
  0 <= Planet.distance_from_sun planet ->
  0 <= nullish (Planet.eccentricity planet) 0 ->
  planetOK (Build.newPlanetObject planet startM).
Proof.
  intros Hd He. unfold planetOK, descriptorOK, Build.newPlanetObject. simpl.
  pose proof (planetEccentricity_le (Planet.eccentricity planet)).
  pose proof (planetEccentricity_nonneg (Planet.eccentricity planet) He).
  unfold Build.getOrbitRadius.
  repeat match goal with |- _ /\ _ => split end;
    try apply trig_unit; try reflexivity; lra.
Qed.

Lemma newCometObject_OK (def : Build.CometDef) :
  0 < Build.cd_a def -> 0 <= Build.cd_e def < 1 ->
  cometOK (Build.newCometObject def).
Proof.
  intros Ha [He0 He1].
  unfold cometOK, descriptorOK, Build.newCometObject. simpl.
  unfold Build.getOrbitRadius.
  repeat match goal with |- _ /\ _ => split end;
    try apply trig_unit; try reflexivity; try lra.
  apply Rmult_lt_0_compat; lra.
Qed.

Lemma createComets_OK : Forall cometOK Build.createComets.
Proof.
  unfold Build.createComets, Build.COMET_DEFS. simpl.
  repeat (apply Forall_cons; [apply newCometObject_OK; simpl; lra |]).
  apply Forall_nil.
Qed.

Lemma animatePlanet_OK (speed h t : R) (cam : Vec3) (p : PlanetObject.t) :
  planetOK p -> planetOK (animatePlanet speed h t cam p).
Proof. intros H. exact H. Qed.

Lemma animateComet_OK (speed h t : R) (cam : Vec3) (c : CometObject.t) :
  cometOK c -> cometOK (animateComet speed h t cam c).
Proof. intros H. exact H. Qed.

Lemma animateComet_distance (speed h t : R) (cam : Vec3) (c : CometObject.t) :
  cometOK c ->
  CometObject.perihelionVis c
  <= Vector3.length (CometObject.mesh_position (animateComet speed h t cam c))
  <= CometObject.a c * (1 + CometObject.e c).
Proof.
  intros (Hc & Hper & _). unfold animateComet.
  cbn [CometObject.mesh_position].
  rewrite solveKepler_parts, Hper. apply focus_distance_bounds. exact Hc.
Qed.

(** X4.  A frame puts a well-formed planet or comet at distance
    [a (1 - e cos E)] from the Sun, [E] being the eccentric anomaly solved
    in that frame: never closer than the perihelion distance [a (1 - e)]
    and never farther than the aphelion distance [a (1 + e)]; a comet is
    never closer than its stored [perihelionVis]. *)
Theorem body_between_perihelion_and_aphelion (speed h t : R) (cam : Vec3) :
  (forall p : PlanetObject.t,
      planetOK p ->
      let p' := animatePlanet speed h t cam p in
      let E := Kepler.eccentricAnomaly (PlanetObject.meanAnomaly p')
                 (PlanetObject.e p) in
      Vector3.length (PlanetObject.mesh_position p')
      = PlanetObject.a p * (1 - PlanetObject.e p * cos E) /\
      PlanetObject.a p * (1 - PlanetObject.e p)
      <= Vector3.length (PlanetObject.mesh_position p')
      <= PlanetObject.a p * (1 + PlanetObject.e p)) /\
  (forall c : CometObject.t,
      cometOK c ->
      let c' := animateComet speed h t cam c in
      let E := Kepler.eccentricAnomaly (CometObject.meanAnomaly c')
                 (CometObject.e c) in
      Vector3.length (CometObject.mesh_position c')
      = CometObject.a c * (1 - CometObject.e c * cos E) /\
      CometObject.perihelionVis c
      <= Vector3.length (CometObject.mesh_position c')
      <= CometObject.a c * (1 + CometObject.e c)).
Proof.
  split.
  - intros p Hp p' E. subst p' E. unfold animatePlanet.
    cbn [PlanetObject.mesh_position PlanetObject.meanAnomaly].
    rewrite solveKepler_parts. split.
    + apply focus_distance. exact Hp.
    + apply focus_distance_bounds. exact Hp.
  - intros c (Hc & Hper & _) c' E. subst c' E. unfold animateComet.
    cbn [CometObject.mesh_position CometObject.meanAnomaly].
    rewrite solveKepler_parts. split.
    + apply focus_distance. exact Hc.
    + rewrite Hper. apply focus_distance_bounds. exact Hc.
Qed.

End OrbitBounds.

(* ----------------------------------------------------------------- *)
(** ** Comet tails *)

Section CometTail.

Import Scene Orbit.

Lemma length_sq_nonneg (v : Vec3) :
  0 <= Vector3.x v * Vector3.x v + Vector3.y v * Vector3.y v
       + Vector3.z v * Vector3.z v.
Proof. nra. Qed.

Lemma length_nonneg (v : Vec3) : 0 <= Vector3.length v.
Proof. unfold Vector3.length. apply sqrt_pos. Qed.

Lemma length_sqr (v : Vec3) :
  Vector3.length v * Vector3.length v
  = Vector3.x v * Vector3.x v + Vector3.y v * Vector3.y v
    + Vector3.z v * Vector3.z v.
Proof. unfold Vector3.length. apply sqrt_sqrt. apply length_sq_nonneg. Qed.

Lemma normalize_nonzero (v : Vec3) :
  0 < Vector3.length v ->
  Vector3.normalize v = Vector3.multiplyScalar v (/ Vector3.length v).
Proof.
  intros HL. unfold Vector3.normalize, num_or, Vector3.divideScalar.
  destruct (Req_dec_T (Vector3.length v) 0) as [H0 | _]; [lra |].
  f_equal. unfold Rdiv. ring.
Qed.

Lemma length_multiplyScalar (v : Vec3) (k : R) :
  0 <= k ->
  Vector3.length (Vector3.multiplyScalar v k) = Vector3.length v * k.
Proof.
  intros Hk. unfold Vector3.multiplyScalar.
  unfold Vector3.length at 1. simpl.
  replace (Vector3.x v * k * (Vector3.x v * k)
           + Vector3.y v * k * (Vector3.y v * k)
           + Vector3.z v * k * (Vector3.z v * k))
    with ((Vector3.length v * k) * (Vector3.length v * k))
    by (transitivity (k * k * (Vector3.length v * Vector3.length v));
        [ring | rewrite (length_sqr v); ring]).
  apply sqrt_square. pose proof (length_nonneg v). nra.
Qed.

(** X5.  A frame gives a well-formed comet a tail that starts at the
    nucleus, points straight away from the Sun (its end is a positive
    multiple of the comet's position), and has length
    [55 exp(- d / (3 perihelionVis))] with [d] the comet's distance from
    the Sun: positive, and at most [55 exp(-1/3)] because [d] is never
    below the perihelion distance. *)
Theorem comet_tail_points_away_from_sun
    (speed h t : R) (cam : Vec3) (c : CometObject.t) :
  cometOK c ->
  let c' := animateComet speed h t cam c in
  let pos := CometObject.mesh_position c' in
  let tailLength :=
    55 * exp (- Vector3.length pos / (3 * CometObject.perihelionVis c)) in
  CometObject.tailLine_position c' = pos /\
  CometObject.tail_end c'
  = Vector3.multiplyScalar pos (tailLength / Vector3.length pos) /\
  0 < tailLength / Vector3.length pos /\
  Vector3.length (CometObject.tail_end c') = tailLength /\
  0 < tailLength <= 55 * exp (- (1 / 3)).
Proof.
  intros Hc c' pos tailLength.
  destruct (animateComet_distance speed h t cam c Hc) as [Hlow _].
  destruct Hc as (_ & _ & Hper).
  fold c' in Hlow. fold pos in Hlow.
  assert (HL : 0 < Vector3.length pos) by lra.
  assert (HT : 0 < tailLength).
  { unfold tailLength. apply Rmult_lt_0_compat; [lra | apply exp_pos]. }
  assert (Hend : CometObject.tail_end c'
                 = Vector3.multiplyScalar (Vector3.normalize pos) tailLength)
    by reflexivity.
  assert (Hk : 0 < tailLength / Vector3.length pos)
    by (apply Rdiv_lt_0_compat; assumption).
  split; [reflexivity |].
  split.
  { rewrite Hend, (normalize_nonzero pos HL).
    unfold Vector3.multiplyScalar. simpl. f_equal; field; lra. }
  split; [exact Hk |].
  split.
  { rewrite Hend, (normalize_nonzero pos HL).
    assert (Hinv : 0 <= / Vector3.length pos)
      by (apply Rlt_le, Rinv_0_lt_compat; exact HL).
    rewrite (length_multiplyScalar _ tailLength) by lra.
    rewrite (length_multiplyScalar _ (/ Vector3.length pos)) by exact Hinv.
    field. lra. }
  split; [exact HT |].
  unfold tailLength. apply Rmult_le_compat_l; [lra |].
  destruct (Rle_lt_or_eq_dec _ _ Hlow) as [Hlt | Heq].
  - apply Rlt_le. apply exp_increasing.
    replace (- Vector3.length pos / (3 * CometObject.perihelionVis c))
      with (- (1 / 3)
            - (Vector3.length pos - CometObject.perihelionVis c)
              / (3 * CometObject.perihelionVis c))
      by (field; lra).
    assert (0 < (Vector3.length pos - CometObject.perihelionVis c)
                / (3 * CometObject.perihelionVis c))
      by (apply Rdiv_lt_0_compat; lra).
    lra.
  - right. f_equal. rewrite <- Heq. field. lra.
Qed.

End CometTail.

(* ----------------------------------------------------------------- *)
(** ** Moons circle their parents *)

Section MoonOrbits.

Import Scene Frames Moon.

Lemma circle_point_length (r cI sI a : R) :
  0 <= r -> cI * cI + sI * sI = 1 ->
  Vector3.length (Vector3.mk (cos a * r) (sI * (sin a * r)) (cI * (sin a * r)))
  = r.
Proof.
  intros Hr HI. unfold Vector3.length. simpl.
  pose proof (trig_unit a) as Ht.
  replace (cos a * r * (cos a * r) + sI * (sin a * r) * (sI * (sin a * r))
           + cI * (sin a * r) * (cI * (sin a * r)))
    with (r * r * (cos a * cos a + (cI * cI + sI * sI) * (sin a * sin a)))
    by ring.
  rewrite HI. replace (cos a * cos a + 1 * (sin a * sin a)) with 1 by lra.
  rewrite Rmult_1_r. apply sqrt_square. exact Hr.
Qed.

Lemma moonPlace_distance (pp : Vec3) (m : MoonObject.t) :
  moonOK m ->
  Vector3.distanceTo (moonPlace pp m) pp = MoonObject.orbitRadius m.
Proof.
  intros [Hr HI].
  transitivity
    (Vector3.length
       (Vector3.mk (cos (MoonObject.angle m) * MoonObject.orbitRadius m)
          (MoonObject.sinInc m
           * (sin (MoonObject.angle m) * MoonObject.orbitRadius m))
          (MoonObject.cosInc m
           * (sin (MoonObject.angle m) * MoonObject.orbitRadius m)))).
  - unfold Vector3.distanceTo, Vector3.length, moonPlace. cbv zeta. simpl.
    f_equal. ring.
  - apply circle_point_length; assumption.
Qed.

(** X6.  A frame moves a well-formed moon whose parent reference is valid
    to the point of its orbit circle at the advanced angle, around the
    position the parent has in that same frame: the moon ends at distance
    [orbitRadius] from its parent, and its orbit line is centred on the
    parent. *)
Theorem moon_circles_its_parent
    (speed : R) (planets : list PlanetObject.t) (m : MoonObject.t) :
  moonOK m -> parentValid planets m ->
  let m' := animateMoon speed planets m in
  exists parent : PlanetObject.t,
    nth_error planets (MoonObject.parentPlanetObj m) = Some parent /\
    MoonObject.angle m' = MoonObject.angle m + MoonObject.speed m * speed /\
    MoonObject.orbitLine_position m' = PlanetObject.mesh_position parent /\
    MoonObject.mesh_position m'
    = moonPlace (PlanetObject.mesh_position parent) m' /\
    Vector3.distanceTo (MoonObject.mesh_position m')
                       (PlanetObject.mesh_position parent)
    = MoonObject.orbitRadius m /\
    moonOK m'.
Proof.
  intros Hok Hvalid m'. unfold parentValid in Hvalid.
  destruct (nth_error planets (MoonObject.parentPlanetObj m)) as [parent |] eqn:Hp.
  2:{ apply nth_error_None in Hp. lia. }
  exists parent. split; [reflexivity |].
  assert (Hm' : m' = animateMoon speed planets m) by reflexivity.
  unfold animateMoon in Hm'. rewrite Hp in Hm'. cbv zeta in Hm'.
  assert (Hok' : moonOK m') by (rewrite Hm'; exact Hok).
  assert (Hpos : MoonObject.mesh_position m'
                 = moonPlace (PlanetObject.mesh_position parent) m')
    by (rewrite Hm'; reflexivity).
  split; [rewrite Hm'; reflexivity |].
  split; [rewrite Hm'; reflexivity |].
  split; [exact Hpos |].
  split; [| exact Hok'].
  rewrite Hpos, (moonPlace_distance _ _ Hok'). rewrite Hm'. reflexivity.
Qed.

(** X7.  The moon's drawn orbit is the circle it moves on: the line has
    64 vertices, each the offset the frame loop gives a moon at angle
    [2 PI i / 64], all at distance [radius] from the centre; the moon's
    position relative to its parent is the same function of its angle. *)
Theorem moon_orbit_line_is_its_path (radius cosInc sinInc : R) :
  0 <= radius -> cosInc * cosInc + sinInc * sinInc = 1 ->
  List.length (createMoonOrbitLine radius cosInc sinInc) = 64%nat /\
  Forall (fun v => Vector3.length v = radius)
         (createMoonOrbitLine radius cosInc sinInc) /\
  (forall (m : MoonObject.t) (pp : Vec3),
      MoonObject.orbitRadius m = radius ->
      MoonObject.cosInc m = cosInc -> MoonObject.sinInc m = sinInc ->
      Vector3.sub (moonPlace pp m) pp
      = Vector3.mk (cos (MoonObject.angle m) * radius)
                   (sinInc * (sin (MoonObject.angle m) * radius))
                   (cosInc * (sin (MoonObject.angle m) * radius))) /\
  createMoonOrbitLine radius cosInc sinInc
  = map (fun i =>
           Vector3.mk (cos ((INR i / 64) * PI * 2) * radius)
                      (sinInc * (sin ((INR i / 64) * PI * 2) * radius))
                      (cosInc * (sin ((INR i / 64) * PI * 2) * radius)))
        (seq 0 64).
Proof.
  intros Hr HI.
  assert (H64 : INR 64 = 64).
  { change 64%nat with (Z.to_nat 64). rewrite INR_IZR_INZ.
    rewrite Z2Nat.id by lia. reflexivity. }
  split; [| split; [| split]].
  - unfold createMoonOrbitLine. cbv zeta. rewrite length_map, length_seq.
    reflexivity.
  - unfold createMoonOrbitLine. cbv zeta. apply Forall_forall.
    intros v Hin. apply in_map_iff in Hin. destruct Hin as (i & <- & _).
    apply circle_point_length; assumption.
  - intros m pp Hrad Hc Hs. unfold moonPlace, Vector3.sub. simpl.
    rewrite Hrad, Hc, Hs. f_equal; ring.
  - unfold createMoonOrbitLine. cbv zeta. apply map_ext. intros i.
    rewrite H64. reflexivity.
Qed.

End MoonOrbits.

(* ----------------------------------------------------------------- *)
(** ** The speed ladder *)

Section SpeedLadder.

Import SpeedRuns.

Lemma pow2_pos (k : nat) : 0 < 2 ^ k.
Proof. apply pow_lt. lra. Qed.

Lemma pow2_le_512 (k : nat) : (k <= 9)%nat -> 2 ^ k <= 512.
Proof.
  intros Hk. replace 512 with (2 ^ 9) by (simpl; lra).
  apply Rle_pow; [lra | exact Hk].
Qed.

Lemma pow2_lt_512 (k : nat) : (k < 9)%nat -> 2 ^ k <= 256.
Proof.
  intros Hk. replace 256 with (2 ^ 8) by (simpl; lra).
  apply Rle_pow; [lra | lia].
Qed.

Lemma increaseSpeed_ladder (v : R) : onLadder v -> onLadder (Speed.increaseSpeed v).
Proof.
  intros [-> | (k & Hk & ->)].
  - right. exists 0%nat. split; [lia |].
    rewrite increaseSpeed_from_pause. simpl. lra.
  - right. pose proof (pow2_pos k) as Hp.
    unfold Speed.increaseSpeed, eqb.
    destruct (Req_dec_T (0.125 * 2 ^ k) 0) as [H0 | _]; [lra |].
    destruct (Nat.eq_dec k 9) as [-> | Hne].
    + exists 9%nat. split; [lia |].
      replace (2 ^ 9) with 512 by (simpl; lra).
      rewrite Rmin_right by lra. lra.
    + exists (S k). split; [lia |].
      pose proof (pow2_lt_512 k ltac:(lia)) as Hle.
      rewrite Rmin_left by lra. simpl. ring.
Qed.

Lemma decreaseSpeed_ladder (v : R) : onLadder v -> onLadder (Speed.decreaseSpeed v).
Proof.
  intros [-> | (k & Hk & ->)].
  - left. apply decreaseSpeed_snaps. lra.
  - destruct k as [| k].
    + left. apply decreaseSpeed_snaps. simpl. lra.
    + right. exists k. split; [lia |].
      pose proof (pow2_pos k) as Hp.
      unfold Speed.decreaseSpeed, leb.
      destruct (Rle_dec (0.125 * 2 ^ S k) 0.125) as [Hle | _].
      * simpl in Hle. pose proof (pow_R1_Rle 2 k ltac:(lra)) as H1. lra.
      * simpl. field.
Qed.

(** X8.  Whatever sequence of increase, decrease and reset is applied from
    the initial speed, the simulation speed is 0 or [0.125 * 2^k] with
    [k <= 9]: it never leaves [[0, 64]] and is never strictly between 0
    and 0.125. *)
Theorem reachable_speeds_on_ladder (v : R) :
  reachable v ->
  onLadder v /\ 0 <= v <= 64 /\ (v = 0 \/ 0.125 <= v).
Proof.
  intros Hr.
  assert (HL : onLadder v).
  { induction Hr as [| v _ IH | v _ IH | v _ IH].
    - right. exists 1%nat. split; [lia |]. unfold Speed.initial. simpl. lra.
    - apply increaseSpeed_ladder. exact IH.
    - apply decreaseSpeed_ladder. exact IH.
    - right. exists 1%nat. split; [lia |]. unfold Speed.resetSpeed. simpl. lra. }
  split; [exact HL |].
  destruct HL as [-> | (k & Hk & ->)].
  - split; [lra | left; reflexivity].
  - pose proof (pow2_le_512 k Hk) as Hu.
    pose proof (pow_R1_Rle 2 k ltac:(lra)) as Hl.
    split; [lra | right; lra].
Qed.

(** X9.  Increase and decrease undo each other away from the ends of the
    range: [decrease (increase v) = v] for [0.125 <= v <= 32] and
    [increase (decrease v) = v] for [0.25 <= v <= 64]; at the ends they
    saturate: increasing 64 gives 64, decreasing 0 gives 0, and pausing
    from 0.125 then resuming returns to 0.125. *)
Theorem speed_steps_undo_each_other :
  (forall v : R, 0.125 <= v <= 32 ->
                 Speed.decreaseSpeed (Speed.increaseSpeed v) = v) /\
  (forall v : R, 0.25 <= v <= 64 ->
                 Speed.increaseSpeed (Speed.decreaseSpeed v) = v) /\
  Speed.increaseSpeed 64 = 64 /\
  Speed.decreaseSpeed 0 = 0 /\
  Speed.increaseSpeed (Speed.decreaseSpeed 0.125) = 0.125.
Proof.
  split; [| split; [| split; [| split]]].
  - intros v [Hl Hu]. unfold Speed.increaseSpeed, eqb.
    destruct (Req_dec_T v 0) as [H0 | _]; [lra |].
    rewrite Rmin_left by lra.
    unfold Speed.decreaseSpeed, leb.
    destruct (Rle_dec (v * 2) 0.125) as [Hle | _]; [lra | field].
  - intros v [Hl Hu]. unfold Speed.decreaseSpeed, leb.
    destruct (Rle_dec v 0.125) as [Hle | _]; [lra |].
    unfold Speed.increaseSpeed, eqb.
    destruct (Req_dec_T (v / 2) 0) as [H0 | _]; [lra |].
    rewrite Rmin_left by lra. field.
  - unfold Speed.increaseSpeed, eqb.
    destruct (Req_dec_T 64 0) as [H0 | _]; [lra |].
    rewrite Rmin_right by lra. reflexivity.
  - apply decreaseSpeed_snaps. lra.
  - rewrite decreaseSpeed_snaps by lra. apply increaseSpeed_from_pause.
Qed.

End SpeedLadder.

(* ----------------------------------------------------------------- *)
(** ** The camera transition *)

Section Easing.

Import Scene.

Lemma ease_low (t : R) : t < 0.5 -> ease t = 4 * t ^ 3.
Proof.
  intros Ht. unfold ease, ltb.
  destruct (Rlt_dec t 0.5) as [_ | Hn]; [reflexivity | lra].
Qed.

Lemma ease_high (t : R) : 0.5 <= t -> ease t = 1 - (-2 * t + 2) ^ 3 / 2.
Proof.
  intros Ht. unfold ease, ltb.
  destruct (Rlt_dec t 0.5) as [Hlt | _]; [lra | reflexivity].
Qed.

Lemma cube_monotone (x y : R) : 0 <= x <= y -> x ^ 3 <= y ^ 3.
Proof.
  intros [Hx Hxy]. apply pow_incr. split; assumption.
Qed.

Lemma cube_le_1 (x : R) : 0 <= x <= 1 -> x ^ 3 <= 1.
Proof.
  intros Hx. replace 1 with (1 ^ 3) by ring. apply cube_monotone. exact Hx.
Qed.

Lemma ease_monotone (s t : R) : 0 <= s -> s <= t -> t <= 1 -> ease s <= ease t.
Proof.
  intros Hs Hst Ht.
  destruct (Rlt_dec s 0.5) as [Hs5 | Hs5];
    destruct (Rlt_dec t 0.5) as [Ht5 | Ht5].
  - rewrite !ease_low by lra.
    pose proof (cube_monotone s t ltac:(lra)). lra.
  - rewrite ease_low by lra. rewrite ease_high by lra.
    pose proof (cube_monotone s 0.5 ltac:(lra)) as H1.
    replace (0.5 ^ 3) with 0.125 in H1 by (simpl; lra).
    pose proof (cube_le_1 (-2 * t + 2) ltac:(lra)) as H2. lra.
  - lra.
  - rewrite !ease_high by lra.
    pose proof (cube_monotone (-2 * t + 2) (-2 * s + 2) ltac:(lra)). lra.
Qed.

Lemma ease_0 : ease 0 = 0.
Proof. rewrite ease_low by lra. ring. Qed.

Lemma ease_1 : ease 1 = 1.
Proof. rewrite ease_high by lra. simpl. lra. Qed.

Lemma ease_range (t : R) : 0 <= t <= 1 -> 0 <= ease t <= 1.
Proof.
  intros [H0 H1]. split.
  - rewrite <- ease_0. apply ease_monotone; lra.
  - rewrite <- ease_1. apply ease_monotone; lra.
Qed.

(** X10.  The easing curve of the camera transition starts at 0, ends at
    1, never decreases on [[0, 1]], stays within [[0, 1]] there, and is
    point-symmetric about its midpoint: [ease (1 - t) = 1 - ease t]. *)
Theorem ease_is_a_monotone_symmetric_ramp :
  ease 0 = 0 /\ ease 1 = 1 /\
  (forall s t : R, 0 <= s -> s <= t -> t <= 1 -> ease s <= ease t) /\
  (forall t : R, 0 <= t <= 1 -> 0 <= ease t <= 1) /\
  (forall t : R, ease (1 - t) = 1 - ease t).
Proof.
  split; [exact ease_0 |]. split; [exact ease_1 |].
  split; [exact ease_monotone |]. split; [exact ease_range |].
  intros t. destruct (Rlt_dec t 0.5) as [Ht | Ht].
  - rewrite (ease_low t) by lra. rewrite ease_high by lra. field.
  - destruct (Req_dec_T t 0.5) as [-> | Hne].
    + replace (1 - 0.5) with 0.5 by lra. rewrite ease_high by lra. simpl. lra.
    + rewrite (ease_high t) by lra. rewrite ease_low by lra. field.
Qed.

Lemma lerpVectors_1 (u v : Vec3) : Vector3.lerpVectors u v 1 = v.
Proof.
  destruct u as [ux uy uz], v as [vx vy vz]. unfold Vector3.lerpVectors.
  cbn [Vector3.x Vector3.y Vector3.z]. f_equal; ring.
Qed.

Context {Internal : Type}.

Lemma animateZoom_last (cam : Camera) (ctl : Controls Internal) (a : ZoomAnim.t) :
  0.96 <= ZoomAnim.t_ a ->
  animateZoom cam ctl (Some a)
  = (mkCamera (ZoomAnim.toCam a) (fov cam),
     mkControls true (ZoomAnim.toTarget a) (minDistance ctl) (maxDistance ctl)
                (internal ctl),
     None).
Proof.
  intros Ht. unfold animateZoom, advance.
  rewrite Rmin_right by lra. rewrite ease_1, !lerpVectors_1.
  unfold geb. destruct (Rge_dec 1 1) as [_ | Hn]; [reflexivity | lra].
Qed.

Lemma animateZoom_inflight (cam : Camera) (ctl : Controls Internal) (a : ZoomAnim.t) :
  ZoomAnim.t_ a < 0.96 ->
  animateZoom cam ctl (Some a)
  = (mkCamera (Vector3.lerpVectors (ZoomAnim.fromCam a) (ZoomAnim.toCam a)
                 (ease (ZoomAnim.t_ a + 0.04)))
              (fov cam),
     mkControls (enabled ctl)
       (Vector3.lerpVectors (ZoomAnim.fromTarget a) (ZoomAnim.toTarget a)
          (ease (ZoomAnim.t_ a + 0.04)))
       (minDistance ctl) (maxDistance ctl) (internal ctl),
     Some (ZoomAnim.mk (ZoomAnim.fromCam a) (ZoomAnim.toCam a)
             (ZoomAnim.fromTarget a) (ZoomAnim.toTarget a)
             (ZoomAnim.t_ a + 0.04))).
Proof.
  intros Ht. unfold animateZoom, advance.
  rewrite Rmin_left by lra.
  unfold geb. destruct (Rge_dec (ZoomAnim.t_ a + 0.04) 1) as [Hge | _];
    [lra | reflexivity].
Qed.

(** X11.  One step of a camera transition with progress [t >= 0] puts the
    camera on the segment from [fromCam] to [toCam] and the orbit target on
    the segment from [fromTarget] to [toTarget], at the same fraction
    [k] in [[0, 1]], and never touches the field of view or the distance
    limits.  A step from [t >= 0.96] is the last one: the camera is exactly
    at [toCam], the target exactly at [toTarget], the controls are enabled
    and the transition is dropped.  Before that the transition is kept
    with progress [t + 0.04] and [enabled] is left as it was.  Without a
    transition the block changes nothing. *)
Theorem zoom_step_interpolates_and_lands
    (cam : Camera) (ctl : Controls Internal) (a : ZoomAnim.t) :
  0 <= ZoomAnim.t_ a ->
  let r := animateZoom cam ctl (Some a) in
  let cam' := fst (fst r) in
  let ctl' := snd (fst r) in
  (exists k : R,
      0 <= k <= 1 /\
      position cam'
      = Vector3.lerpVectors (ZoomAnim.fromCam a) (ZoomAnim.toCam a) k /\
      target ctl'
      = Vector3.lerpVectors (ZoomAnim.fromTarget a) (ZoomAnim.toTarget a) k) /\
  fov cam' = fov cam /\
  minDistance ctl' = minDistance ctl /\
  maxDistance ctl' = maxDistance ctl /\
  (0.96 <= ZoomAnim.t_ a ->
   position cam' = ZoomAnim.toCam a /\ target ctl' = ZoomAnim.toTarget a /\
   enabled ctl' = true /\ snd r = None) /\
  (ZoomAnim.t_ a < 0.96 ->
   enabled ctl' = enabled ctl /\
   snd r = Some (ZoomAnim.mk (ZoomAnim.fromCam a) (ZoomAnim.toCam a)
                   (ZoomAnim.fromTarget a) (ZoomAnim.toTarget a)
                   (ZoomAnim.t_ a + 0.04))) /\
  animateZoom cam ctl None = (cam, ctl, None).
Proof.
  intros H0 r cam' ctl'. subst cam' ctl' r.
  destruct (Rlt_dec (ZoomAnim.t_ a) 0.96) as [Hlt | Hge].
  - rewrite animateZoom_inflight by exact Hlt. cbn [fst snd position target fov
      minDistance maxDistance enabled].
    split.
    { exists (ease (ZoomAnim.t_ a + 0.04)).
      split; [apply ease_range; lra |]. split; reflexivity. }
    repeat match goal with |- _ /\ _ => split end; try reflexivity.
    + intros Hc. lra.
    + intros _. split; reflexivity.
  - rewrite animateZoom_last by lra. cbn [fst snd position target fov
      minDistance maxDistance enabled].
    split.
    { exists 1. split; [lra |]. rewrite !lerpVectors_1. split; reflexivity. }
    repeat match goal with |- _ /\ _ => split end; try reflexivity.
    + intros _. repeat split.
    + intros Hc. lra.
Qed.

End Easing.

(* ----------------------------------------------------------------- *)
(** ** A transition over the frames *)

Section Flight.

Import Scene Frames.

Context {Internal : Type}.
Variable controls_update :
  Camera -> Controls Internal -> Camera * Controls Internal.

(** The camera and controls a frame leaves are what [controls.update()]
    makes of those the zoom block leaves. *)
Lemma animate_camera_controls (s : State Internal) :
  (camera (animate controls_update s), controls (animate controls_update s))
  = controls_update
      (fst (fst (animateZoom (camera s) (controls s) (zoomAnim s))))
      (snd (fst (animateZoom (camera s) (controls s) (zoomAnim s)))).
Proof.
  unfold animate.
  destruct (animateZoom (camera s) (controls s) (zoomAnim s)) as [[c k] z].
  cbn [fst snd]. destruct (controls_update c k) as [c2 k2]. reflexivity.
Qed.

Lemma flight_locked (s : State Internal) (fc tc ft tt : Vec3) (k : nat) :
  (forall c ctl, enabled (snd (controls_update c ctl)) = enabled ctl) ->
  zoomAnim s = Some (ZoomAnim.mk fc tc ft tt 0) ->
  enabled (controls s) = false ->
  (k < 25)%nat ->
  enabled (controls (frames controls_update k s)) = false.
Proof.
  intros Hupd Hz Hen. induction k as [| k IH]; intros Hk.
  - exact Hen.
  - rewrite frames_S.
    pose proof (animate_camera_controls (frames controls_update k s)) as Hcc.
    apply (f_equal snd) in Hcc. cbn [snd] in Hcc. rewrite Hcc, Hupd.
    rewrite (zoom_progress controls_update s fc tc ft tt k Hz) by lia.
    assert (Hb : INR (S k) < INR 25) by (apply lt_INR; exact Hk).
    rewrite S_INR in Hb.
    replace (INR 25) with 25 in Hb by (simpl; ring).
    rewrite animateZoom_inflight by (cbn [ZoomAnim.t_]; lra).
    cbn [fst snd enabled]. apply IH. lia.
Qed.

Lemma landing_frame (s : State Internal) (a : ZoomAnim.t) :
  zoomAnim s = Some a ->
  0.96 <= ZoomAnim.t_ a ->
  (camera (animate controls_update s), controls (animate controls_update s))
  = controls_update
      (mkCamera (ZoomAnim.toCam a) (fov (camera s)))
      (mkControls true (ZoomAnim.toTarget a) (minDistance (controls s))
                  (maxDistance (controls s)) (internal (controls s))).
Proof.
  intros Hz Ht. rewrite animate_camera_controls, Hz.
  rewrite animateZoom_last by exact Ht. reflexivity.
Qed.

(** X12.  A transition that starts at progress 0 with the controls
    disabled, under an [update] that does not touch [enabled], keeps the
    controls disabled through the first 24 frames; in the 25th frame
    [update] is called with the camera exactly at [toCam], the orbit target
    exactly at [toTarget] and the controls enabled, and the transition is
    gone. *)
Theorem flight_locks_controls_then_lands
    (s : State Internal) (fc tc ft tt : Vec3) :
  (forall c ctl, enabled (snd (controls_update c ctl)) = enabled ctl) ->
  zoomAnim s = Some (ZoomAnim.mk fc tc ft tt 0) ->
  enabled (controls s) = false ->
  (forall k : nat, (k < 25)%nat ->
      enabled (controls (frames controls_update k s)) = false) /\
  (exists (cam : Camera) (ctl : Controls Internal),
      position cam = tc /\ target ctl = tt /\ enabled ctl = true /\
      (camera (frames controls_update 25 s),
       controls (frames controls_update 25 s))
      = controls_update cam ctl) /\
  enabled (controls (frames controls_update 25 s)) = true /\
  zoomAnim (frames controls_update 25 s) = None.
Proof.
  intros Hupd Hz Hen.
  split; [intros k Hk; apply (flight_locked s fc tc ft tt k Hupd Hz Hen Hk) |].
  assert (H24 : zoomAnim (frames controls_update 24 s)
                = Some (ZoomAnim.mk fc tc ft tt (0.04 * INR 24))).
  { apply zoom_progress; [exact Hz | lia]. }
  assert (Ht : 0.96 <= ZoomAnim.t_ (ZoomAnim.mk fc tc ft tt (0.04 * INR 24))).
  { cbn [ZoomAnim.t_]. replace (INR 24) with 24 by (simpl; ring). lra. }
  pose proof (landing_frame _ _ H24 Ht) as Hcc.
  cbn [ZoomAnim.toCam ZoomAnim.toTarget] in Hcc.
  split; [| split]; [| | eapply zoom_done; exact Hz];
    rewrite (frames_S controls_update 24);
    revert Hcc; generalize (frames controls_update 24 s); intros s24 Hcc.
  - eexists. eexists. split; [| split; [| split; [| exact Hcc]]]; reflexivity.
  - apply (f_equal snd) in Hcc. cbn [snd] in Hcc. rewrite Hcc, Hupd. reflexivity.
Qed.

End Flight.

(* ----------------------------------------------------------------- *)
(** ** Click and double-click *)

Section Clicks.

Import Scene Interaction.

Context {Internal : Type}.

Lemma zoomDistOf_pos (p : Planet.t) (minDist zoomDist : R) :
  zoomDistOf p minDist = Some zoomDist -> 0 < zoomDist.
Proof.
  unfold zoomDistOf.
  destruct (truthy (Planet.is_asteroid_belt p));
    [intros H; injection H as <-; lra |].
  destruct (truthy (Planet.is_comet p)); [intros H; injection H as <-; lra |].
  cbv zeta.
  destruct (nullish (lookup VISUAL_SIZES (Planet.name p)) (numeric 2))
    as [v |] eqn:Hv; [| discriminate].
  intros H. injection H as <-.
  pose proof (visual_size_pos (Planet.name p) 2 v ltac:(lra) Hv) as Hpos.
  pose proof (Rmax_l (v * 8) (minDist + 5)) as Hm.
  lra.
Qed.

(** The zoom distance is NaN exactly for a record that is neither the belt
    nor a comet and whose name reads an inherited member. *)
Lemma zoomDistOf_nan (p : Planet.t) (minDist : R) :
  zoomDistOf p minDist = None <->
  truthy (Planet.is_asteroid_belt p) = false /\
  truthy (Planet.is_comet p) = false /\
  lookup VISUAL_SIZES (Planet.name p) = Some inherited.
Proof.
  unfold zoomDistOf.
  destruct (truthy (Planet.is_asteroid_belt p));
    [split; [discriminate | intros (H & _); discriminate H] |].
  destruct (truthy (Planet.is_comet p));
    [split; [discriminate | intros (_ & H & _); discriminate H] |].
  cbv zeta.
  destruct (lookup VISUAL_SIZES (Planet.name p)) as [[v |] |]; cbn [nullish].
  - split; [discriminate | intros (_ & _ & H); discriminate H].
  - split; [intros _; repeat split | reflexivity].
  - split; [discriminate | intros (_ & _ & H); discriminate H].
Qed.

(** X13.  A click never changes the scene state and emits at most one
    signal, which is never "close" but the selection of the record of the
    nearest hit; hits behind the nearest one are ignored, a nearest hit
    other than the Oort cloud is always selected, and a click that hits
    nothing emits nothing. *)
Theorem click_selects_nearest_hit_only
    (s : State Internal) (hits : list HitObject) :
  fst (onCanvasClick hits s) = s /\
  (List.length (snd (onCanvasClick hits s)) <= 1)%nat /\
  (forall sig : Signal, In sig (snd (onCanvasClick hits s)) ->
      exists h rest p,
        hits = h :: rest /\ userData_planet h = Some p /\
        sig = planetSelected p) /\
  (forall h rest, onCanvasClick (h :: rest) s = onCanvasClick [h] s) /\
  (forall h rest p,
      userData_planet h = Some p ->
      truthy (Planet.is_oort_cloud p) = false ->
      onCanvasClick (h :: rest) s = (s, [planetSelected p])) /\
  onCanvasClick [] s = (s, []).
Proof.
  split; [| split; [| split; [| split; [| split]]]].
  - unfold onCanvasClick. destruct hits as [| h rest]; [reflexivity |].
    destruct (userData_planet h) as [p |]; [| reflexivity].
    destruct (truthy (Planet.is_oort_cloud p)
              && leb (Vector3.length (position (camera s))) 1800);
      reflexivity.
  - unfold onCanvasClick. destruct hits as [| h rest]; [simpl; lia |].
    destruct (userData_planet h) as [p |]; [| simpl; lia].
    destruct (truthy (Planet.is_oort_cloud p)
              && leb (Vector3.length (position (camera s))) 1800);
      simpl; lia.
  - intros sig. unfold onCanvasClick. destruct hits as [| h rest];
      [intros [] |].
    destruct (userData_planet h) as [p |] eqn:Hp; [| intros []].
    destruct (truthy (Planet.is_oort_cloud p)
              && leb (Vector3.length (position (camera s))) 1800);
      [intros [] |].
    intros [<- | []]. exists h, rest, p. repeat split. exact Hp.
  - intros h rest. reflexivity.
  - intros h rest p Hp Ho. unfold onCanvasClick. rewrite Hp, Ho. reflexivity.
  - reflexivity.
Qed.

(** X14.  A double-click whose nearest hit carries a record other than the
    Oort cloud, with the camera not at the hit object's position, emits
    exactly "close".  The zoom distance is 120 for the asteroid belt and 20
    for a comet; for any other record it is
    [max(8 * (VISUAL_SIZES[name] ?? 2), minDistance + 5)], which is not a
    number exactly when the name reads a member that every object inherits
    (such as "constructor"), and then the destination is not a number
    either.  Whenever the zoom distance is a number it is positive, and the
    double-click clears the hover, disables the controls, leaves camera,
    orbit target, bodies and speed as they are, and creates a transition
    that starts at the current camera and target and ends looking at the
    hit object from the side the camera is on: the destination minus the
    object is a positive multiple of the camera minus the object, at the
    zoom distance. *)
Theorem dblclick_keeps_the_viewing_side
    (s : State Internal) (h : HitObject) (rest : list HitObject)
    (p : Planet.t) :
  userData_planet h = Some p ->
  truthy (Planet.is_oort_cloud p) = false ->
  position (camera s) <> hit_position h ->
  let r := onCanvasDblClick (h :: rest) s in
  let zoomDist := zoomDistOf p (minDistance (controls s)) in
  snd r = [closeInfo] /\
  (truthy (Planet.is_asteroid_belt p) = true -> zoomDist = Some 120) /\
  (truthy (Planet.is_asteroid_belt p) = false ->
   truthy (Planet.is_comet p) = true -> zoomDist = Some 20) /\
  (zoomDist = None <->
   truthy (Planet.is_asteroid_belt p) = false /\
   truthy (Planet.is_comet p) = false /\
   lookup VISUAL_SIZES (Planet.name p) = Some inherited) /\
  (zoomDist = None -> fst r = None) /\
  (forall d : R,
      zoomDist = Some d ->
      0 < d /\
      exists (s1 : State Internal) (toCam : Vec3) (k : R),
        fst r = Some s1 /\
        hoveredPlanet s1 = None /\
        enabled (controls s1) = false /\
        camera s1 = camera s /\
        target (controls s1) = target (controls s) /\
        planetObjects s1 = planetObjects s /\
        cometObjects s1 = cometObjects s /\
        moonObjects s1 = moonObjects s /\
        simulationSpeed s1 = simulationSpeed s /\
        zoomAnim s1
        = Some (ZoomAnim.mk (position (camera s)) toCam (target (controls s))
                  (hit_position h) 0) /\
        0 < k /\
        Vector3.sub toCam (hit_position h)
        = Vector3.multiplyScalar
            (Vector3.sub (position (camera s)) (hit_position h)) k /\
        Vector3.distanceTo toCam (hit_position h) = d).
Proof.
  intros Hp Ho Hne r zoomDist. subst r zoomDist.
  unfold onCanvasDblClick. rewrite Hp, Ho. cbv zeta.
  split.
  { destruct (zoomDistOf p (minDistance (controls s))); reflexivity. }
  split.
  { intros Hb. unfold zoomDistOf. rewrite Hb. reflexivity. }
  split.
  { intros Hb Hc. unfold zoomDistOf. rewrite Hb, Hc. reflexivity. }
  split; [apply zoomDistOf_nan |].
  split.
  { intros Hn. rewrite Hn. reflexivity. }
  intros d Hd. rewrite Hd.
  pose proof (zoomDistOf_pos p (minDistance (controls s)) d Hd) as Hz.
  split; [exact Hz |].
  pose proof (sub_length_pos _ _ Hne) as HL.
  exists (mkState (simulationSpeed s) None (camera s)
            (mkControls false (target (controls s)) (minDistance (controls s))
                        (maxDistance (controls s)) (internal (controls s)))
            (clientHeight s)
            (planetObjects s) (cometObjects s) (moonObjects s)
            (Some (ZoomAnim.mk (position (camera s))
                     (Vector3.addScaledVector (hit_position h)
                        (Vector3.normalize
                           (Vector3.sub (position (camera s)) (hit_position h)))
                        d)
                     (target (controls s)) (hit_position h) 0))
            (sunHitMesh_scale s) (asteroidBelt_rotation_y s)
            (hitRing_scale s) (oortSphere_scale s)),
         (Vector3.addScaledVector (hit_position h)
            (Vector3.normalize
               (Vector3.sub (position (camera s)) (hit_position h)))
            d),
         (d / Vector3.length
                (Vector3.sub (position (camera s)) (hit_position h))).
  cbn [fst snd hoveredPlanet enabled controls camera target planetObjects
       cometObjects moonObjects simulationSpeed zoomAnim].
  repeat match goal with |- _ /\ _ => split end; try reflexivity.
  - apply Rdiv_lt_0_compat; assumption.
  - unfold Vector3.normalize, num_or.
    destruct (Req_dec_T (Vector3.length
                (Vector3.sub (position (camera s)) (hit_position h))) 0)
      as [H0 | Hn0]; [lra |].
    set (L := Vector3.length
                (Vector3.sub (position (camera s)) (hit_position h))) in *.
    unfold Vector3.addScaledVector, Vector3.divideScalar,
      Vector3.multiplyScalar, Vector3.sub.
    cbn [Vector3.x Vector3.y Vector3.z].
    f_equal; field; exact Hn0.
  - apply addScaled_normalize_distance; [exact Hne | lra].
Qed.

End Clicks.

(* ----------------------------------------------------------------- *)
(** ** Pointer coordinates and hover *)

Section PointerMoves.

Import Scene Interaction Pointer.

(** X15.  For a pointer inside a canvas rectangle of positive size the
    normalised device coordinates lie in [[-1, 1]] on both axes; the
    top-left corner maps to [(-1, 1)], the bottom-right corner to
    [(1, -1)] and the centre to [(0, 0)]; and the pointer position is
    recovered from the coordinates. *)
Theorem mouse_coords_normalised (event : MouseEvent) (rect : DOMRect) :
  0 < width rect -> 0 < height rect ->
  left rect <= clientX event <= left rect + width rect ->
  top rect <= clientY event <= top rect + height rect ->
  let m := updateMouseCoords event rect in
  -1 <= fst m <= 1 /\ -1 <= snd m <= 1 /\
  clientX event = left rect + (fst m + 1) / 2 * width rect /\
  clientY event = top rect + (1 - snd m) / 2 * height rect /\
  updateMouseCoords (mkMouseEvent (left rect) (top rect)) rect = (-1, 1) /\
  updateMouseCoords
    (mkMouseEvent (left rect + width rect) (top rect + height rect)) rect
  = (1, -1) /\
  updateMouseCoords
    (mkMouseEvent (left rect + width rect / 2) (top rect + height rect / 2))
    rect
  = (0, 0).
Proof.
  intros Hw Hh [Hx0 Hx1] [Hy0 Hy1] m. subst m.
  unfold updateMouseCoords. cbn [fst snd clientX clientY].
  set (qx := (clientX event - left rect) / width rect).
  set (qy := (clientY event - top rect) / height rect).
  assert (Hqx : 0 <= qx <= 1).
  { unfold qx. split.
    - apply Rmult_le_pos; [lra | left; apply Rinv_0_lt_compat; exact Hw].
    - apply (Rmult_le_reg_r (width rect)); [exact Hw |].
      unfold Rdiv. rewrite Rmult_assoc, Rinv_l by lra. lra. }
  assert (Hqy : 0 <= qy <= 1).
  { unfold qy. split.
    - apply Rmult_le_pos; [lra | left; apply Rinv_0_lt_compat; exact Hh].
    - apply (Rmult_le_reg_r (height rect)); [exact Hh |].
      unfold Rdiv. rewrite Rmult_assoc, Rinv_l by lra. lra. }
  split; [lra |]. split; [lra |].
  split; [unfold qx; field; lra |].
  split; [unfold qy; field; lra |].
  split; [f_equal; field; lra |].
  split; f_equal; field; lra.
Qed.

Context {Internal : Type}.

Lemma hover_reset_clears (st : HoverState Internal) (g : nat) :
  hoverOK st ->
  match currentHoveredGlow st with
  | Some g0 => setOpacity g0 0 (glowOpacity st) g
  | None => glowOpacity st g
  end = 0.
Proof.
  intros [Hg _].
  destruct (currentHoveredGlow st) as [g0 |] eqn:Hc.
  - unfold setOpacity. destruct (Nat.eqb g g0) eqn:He; [reflexivity |].
    destruct (Req_dec_T (glowOpacity st g) 0) as [H0 | Hn]; [exact H0 |].
    apply Hg in Hn. injection Hn as ->. rewrite Nat.eqb_refl in He.
    discriminate.
  - destruct (Req_dec_T (glowOpacity st g) 0) as [H0 | Hn]; [exact H0 |].
    apply Hg in Hn. discriminate.
Qed.

Lemma hover_reset_belt (st : HoverState Internal) (m : BeltMaterial) :
  hoverOK st ->
  asteroidBeltMat st = Some m ->
  match currentHoveredBelt st, asteroidBeltMat st with
  | true, Some _ => (Some (mkBeltMaterial 0x998877 0.35), false)
  | _, _ => (asteroidBeltMat st, currentHoveredBelt st)
  end = (Some (mkBeltMaterial 0x998877 0.35), false).
Proof.
  intros [_ Hb] Hm. rewrite Hm.
  destruct (currentHoveredBelt st) eqn:Hc; [reflexivity |].
  rewrite (Hb eq_refl m Hm). reflexivity.
Qed.

(** The glow mesh a hit lights, if any. *)
Lemma moved_opacity (event : MouseEvent) (rect : DOMRect)
    (hits : list PointerHit) (st : HoverState Internal) (g : nat) :
  hoverOK st ->
  glowOpacity (onCanvasMouseMove event rect hits st) g
  = match hits with
    | h :: _ =>
        if userData_glowMesh (hit_object h) && Nat.eqb g (hit_glow h)
        then 0.45 else 0
    | [] => 0
    end.
Proof.
  intros Hok. pose proof (hover_reset_clears st) as Hclr.
  unfold onCanvasMouseMove.
  destruct (currentHoveredGlow st) as [g0 |];
    destruct (match currentHoveredBelt st, asteroidBeltMat st with
              | true, Some _ => (Some (mkBeltMaterial 0x998877 0.35), false)
              | _, _ => (asteroidBeltMat st, currentHoveredBelt st)
              end) as [mat1 belt1];
    (destruct hits as [| h rest];
     [ cbn [glowOpacity]; apply Hclr; exact Hok |]);
    cbv zeta;
    (destruct (userData_glowMesh (hit_object h));
     [| destruct (userData_isAsteroidBelt (hit_object h)), mat1 ]);
    destruct (userData_planet (hit_object h)) as [p |];
    try destruct (negb (truthy (Planet.is_oort_cloud p))
                  || gtb (Vector3.length (position (camera (scene st)))) 1800);
    cbn [glowOpacity andb];
    try (apply Hclr; exact Hok);
    unfold setOpacity at 1; destruct (Nat.eqb g (hit_glow h));
    try reflexivity; apply Hclr; exact Hok.
Qed.

Lemma moved_current (event : MouseEvent) (rect : DOMRect)
    (hits : list PointerHit) (st : HoverState Internal) :
  currentHoveredGlow (onCanvasMouseMove event rect hits st)
  = match hits with
    | h :: _ =>
        if userData_glowMesh (hit_object h) then Some (hit_glow h) else None
    | [] => None
    end.
Proof.
  unfold onCanvasMouseMove.
  destruct (currentHoveredGlow st) as [g0 |];
    destruct (match currentHoveredBelt st, asteroidBeltMat st with
              | true, Some _ => (Some (mkBeltMaterial 0x998877 0.35), false)
              | _, _ => (asteroidBeltMat st, currentHoveredBelt st)
              end) as [mat1 belt1];
    (destruct hits as [| h rest]; [reflexivity |]);
    cbv zeta;
    (destruct (userData_glowMesh (hit_object h));
     [| destruct (userData_isAsteroidBelt (hit_object h)), mat1 ]);
    destruct (userData_planet (hit_object h)) as [p |];
    try destruct (negb (truthy (Planet.is_oort_cloud p))
                  || gtb (Vector3.length (position (camera (scene st)))) 1800);
    reflexivity.
Qed.

Lemma moved_belt (event : MouseEvent) (rect : DOMRect)
    (hits : list PointerHit) (st : HoverState Internal) (m : BeltMaterial) :
  hoverOK st ->
  asteroidBeltMat st = Some m ->
  (asteroidBeltMat (onCanvasMouseMove event rect hits st),
   currentHoveredBelt (onCanvasMouseMove event rect hits st))
  = match hits with
    | h :: _ =>
        if negb (userData_glowMesh (hit_object h))
           && userData_isAsteroidBelt (hit_object h)
        then (Some (mkBeltMaterial 0xddccaa 0.55), true)
        else (Some (mkBeltMaterial 0x998877 0.35), false)
    | [] => (Some (mkBeltMaterial 0x998877 0.35), false)
    end.
Proof.
  intros Hok Hm. unfold onCanvasMouseMove.
  rewrite (hover_reset_belt st m Hok Hm).
  destruct (currentHoveredGlow st) as [g0 |];
    (destruct hits as [| h rest]; [reflexivity |]);
    cbv zeta;
    (destruct (userData_glowMesh (hit_object h));
     [| destruct (userData_isAsteroidBelt (hit_object h)) ]);
    destruct (userData_planet (hit_object h)) as [p |];
    try destruct (negb (truthy (Planet.is_oort_cloud p))
                  || gtb (Vector3.length (position (camera (scene st)))) 1800);
    reflexivity.
Qed.

Lemma moved_belt_absent (event : MouseEvent) (rect : DOMRect)
    (hits : list PointerHit) (st : HoverState Internal) :
  asteroidBeltMat st = None ->
  asteroidBeltMat (onCanvasMouseMove event rect hits st) = None.
Proof.
  intros Hm. unfold onCanvasMouseMove. rewrite Hm.
  destruct (currentHoveredGlow st) as [g0 |];
    destruct (currentHoveredBelt st);
    (destruct hits as [| h rest]; [reflexivity |]);
    cbv zeta;
    (destruct (userData_glowMesh (hit_object h));
     [| destruct (userData_isAsteroidBelt (hit_object h)) ]);
    destruct (userData_planet (hit_object h)) as [p |];
    try destruct (negb (truthy (Planet.is_oort_cloud p))
                  || gtb (Vector3.length (position (camera (scene st)))) 1800);
    reflexivity.
Qed.

Lemma moved_scene (event : MouseEvent) (rect : DOMRect)
    (hits : list PointerHit) (st : HoverState Internal) :
  scene (onCanvasMouseMove event rect hits st)
  = match hits with
    | h :: _ =>
        match userData_planet (hit_object h) with
        | Some planet =>
            if negb (truthy (Planet.is_oort_cloud planet))
               || gtb (Vector3.length (position (camera (scene st)))) 1800
            then setHovered
                   (Some (Planet.name_sr planet, Planet.color planet))
                   (scene st)
            else setHovered None (scene st)
        | None => scene st
        end
    | [] => setHovered None (scene st)
    end.
Proof.
  unfold onCanvasMouseMove.
  destruct (currentHoveredGlow st) as [g0 |];
    destruct (match currentHoveredBelt st, asteroidBeltMat st with
              | true, Some _ => (Some (mkBeltMaterial 0x998877 0.35), false)
              | _, _ => (asteroidBeltMat st, currentHoveredBelt st)
              end) as [mat1 belt1];
    (destruct hits as [| h rest]; [reflexivity |]);
    cbv zeta;
    (destruct (userData_glowMesh (hit_object h));
     [| destruct (userData_isAsteroidBelt (hit_object h)), mat1 ]);
    destruct (userData_planet (hit_object h)) as [p |];
    try destruct (negb (truthy (Planet.is_oort_cloud p))
                  || gtb (Vector3.length (position (camera (scene st)))) 1800);
    reflexivity.
Qed.

Lemma moved_cursor (event : MouseEvent) (rect : DOMRect)
    (hits : list PointerHit) (st : HoverState Internal) :
  cursor (onCanvasMouseMove event rect hits st)
  = match hits with _ :: _ => "pointer"%string | [] => "default"%string end.
Proof.
  unfold onCanvasMouseMove.
  destruct (currentHoveredGlow st) as [g0 |];
    destruct (match currentHoveredBelt st, asteroidBeltMat st with
              | true, Some _ => (Some (mkBeltMaterial 0x998877 0.35), false)
              | _, _ => (asteroidBeltMat st, currentHoveredBelt st)
              end) as [mat1 belt1];
    (destruct hits as [| h rest]; [reflexivity |]);
    cbv zeta;
    (destruct (userData_glowMesh (hit_object h));
     [| destruct (userData_isAsteroidBelt (hit_object h)), mat1 ]);
    destruct (userData_planet (hit_object h)) as [p |];
    try destruct (negb (truthy (Planet.is_oort_cloud p))
                  || gtb (Vector3.length (position (camera (scene st)))) 1800);
    reflexivity.
Qed.

Lemma initialHover_OK (s : State Internal) : hoverOK (initialHover s).
Proof.
  split.
  - intros g Hg. exfalso. apply Hg. reflexivity.
  - intros _ m Hm. injection Hm as <-. reflexivity.
Qed.

Lemma moved_OK (event : MouseEvent) (rect : DOMRect)
    (hits : list PointerHit) (st : HoverState Internal) :
  hoverOK st -> hoverOK (onCanvasMouseMove event rect hits st).
Proof.
  intros Hok. split.
  - intros g. rewrite (moved_opacity event rect hits st g Hok), moved_current.
    destruct hits as [| h rest]; [intros H; exfalso; apply H; reflexivity |].
    destruct (userData_glowMesh (hit_object h)); cbn [andb];
      [| intros H; exfalso; apply H; reflexivity].
    destruct (Nat.eqb g (hit_glow h)) eqn:He;
      [| intros H; exfalso; apply H; reflexivity].
    intros _. apply Nat.eqb_eq in He. rewrite He. reflexivity.
  - destruct (asteroidBeltMat st) as [m0 |] eqn:Hm.
    + pose proof (moved_belt event rect hits st m0 Hok Hm) as Hb.
      intros Hfalse m Hmat.
      rewrite Hmat, Hfalse in Hb.
      destruct hits as [| h rest]; [injection Hb as ->; reflexivity |].
      destruct (negb (userData_glowMesh (hit_object h))
                && userData_isAsteroidBelt (hit_object h));
        [discriminate | injection Hb as ->; reflexivity].
    + intros _ m Hmat.
      rewrite (moved_belt_absent event rect hits st Hm) in Hmat. discriminate.
Qed.

(** X16.  Starting from the state the constructors leave, and after every
    pointer move, at most one glow is lit.  A pointer move lights exactly
    the glow of the nearest hit at opacity 0.45 and puts every other glow
    at 0; it gives the belt its highlighted look exactly when the nearest
    hit is the belt ring, and its resting look otherwise; the cursor is
    a pointer exactly when something is hit; and of the scene state only
    the hovered-body signal can change. *)
Theorem hover_lights_only_the_nearest_hit
    (event : MouseEvent) (rect : DOMRect) (hits : list PointerHit)
    (st : HoverState Internal) :
  hoverOK st ->
  let st' := onCanvasMouseMove event rect hits st in
  hoverOK st' /\
  hoverOK (initialHover (scene st)) /\
  (forall g : nat,
      glowOpacity st' g
      = match hits with
        | h :: _ =>
            if userData_glowMesh (hit_object h) && Nat.eqb g (hit_glow h)
            then 0.45 else 0
        | [] => 0
        end) /\
  (forall m : BeltMaterial,
      asteroidBeltMat st = Some m ->
      asteroidBeltMat st'
      = Some (match hits with
              | h :: _ =>
                  if negb (userData_glowMesh (hit_object h))
                     && userData_isAsteroidBelt (hit_object h)
                  then mkBeltMaterial 0xddccaa 0.55
                  else mkBeltMaterial 0x998877 0.35
              | [] => mkBeltMaterial 0x998877 0.35
              end)) /\
  cursor st'
  = match hits with _ :: _ => "pointer"%string | [] => "default"%string end /\
  scene st' = setHovered (hoveredPlanet (scene st')) (scene st) /\
  (hits = [] -> hoveredPlanet (scene st') = None).
Proof.
  intros Hok st'. subst st'.
  split; [apply moved_OK; exact Hok |].
  split; [apply initialHover_OK |].
  split; [intros g; apply moved_opacity; exact Hok |].
  split.
  { intros m Hm.
    pose proof (moved_belt event rect hits st m Hok Hm) as Hb.
    apply (f_equal fst) in Hb. cbn [fst] in Hb. rewrite Hb.
    destruct hits as [| h rest]; [reflexivity |].
    destruct (negb (userData_glowMesh (hit_object h))
              && userData_isAsteroidBelt (hit_object h)); reflexivity. }
  split; [apply moved_cursor |].
  split.
  - rewrite moved_scene.
    destruct hits as [| h rest]; [reflexivity |].
    destruct (userData_planet (hit_object h)) as [p |].
    + destruct (negb (truthy (Planet.is_oort_cloud p))
                || gtb (Vector3.length (position (camera (scene st)))) 1800);
        reflexivity.
    + destruct (scene st). reflexivity.
  - intros ->. rewrite moved_scene. reflexivity.
Qed.

(** X17.  What shows a tooltip is what a click selects.  With a record on
    the nearest hit, a pointer move either shows the tooltip with the
    record's local name and colour, 14 to the right of and 10 above the
    pointer, and a click at the same place selects the record; or, for the
    Oort cloud with the camera at most 1800 from the origin, it clears the
    tooltip and the click selects nothing. *)
Theorem tooltip_shown_iff_clickable
    (event : MouseEvent) (rect : DOMRect) (h : PointerHit)
    (rest : list PointerHit) (st : HoverState Internal) (p : Planet.t) :
  userData_planet (hit_object h) = Some p ->
  let st' := onCanvasMouseMove event rect (h :: rest) st in
  let click := onCanvasClick (map hit_object (h :: rest)) (scene st) in
  (hoveredPlanet (scene st') = Some (Planet.name_sr p, Planet.color p) /\
   tooltipPos st'
   = (clientX event - left rect + 14, clientY event - top rect - 10) /\
   snd click = [planetSelected p] /\
   (truthy (Planet.is_oort_cloud p) = true ->
    Vector3.length (position (camera (scene st))) > 1800))
  \/
  (hoveredPlanet (scene st') = None /\
   tooltipPos st' = tooltipPos st /\
   snd click = [] /\
   truthy (Planet.is_oort_cloud p) = true /\
   Vector3.length (position (camera (scene st))) <= 1800).
Proof.
  intros Hp st' click. subst st' click.
  rewrite moved_scene, Hp.
  unfold onCanvasClick. cbn [map]. rewrite Hp.
  assert (Htip : tooltipPos (onCanvasMouseMove event rect (h :: rest) st)
                 = if negb (truthy (Planet.is_oort_cloud p))
                      || gtb (Vector3.length (position (camera (scene st)))) 1800
                   then (clientX event - left rect + 14,
                         clientY event - top rect - 10)
                   else tooltipPos st).
  { unfold onCanvasMouseMove. rewrite Hp.
    destruct (currentHoveredGlow st) as [g0 |];
      destruct (match currentHoveredBelt st, asteroidBeltMat st with
                | true, Some _ => (Some (mkBeltMaterial 0x998877 0.35), false)
                | _, _ => (asteroidBeltMat st, currentHoveredBelt st)
                end) as [mat1 belt1];
      cbv zeta;
      (destruct (userData_glowMesh (hit_object h));
       [| destruct (userData_isAsteroidBelt (hit_object h)), mat1 ]);
      destruct (negb (truthy (Planet.is_oort_cloud p))
                || gtb (Vector3.length (position (camera (scene st)))) 1800);
      reflexivity. }
  rewrite Htip. unfold gtb, leb.
  destruct (truthy (Planet.is_oort_cloud p)); cbn [negb orb andb].
  - destruct (Rgt_dec (Vector3.length (position (camera (scene st)))) 1800)
      as [Hfar | Hnear];
      destruct (Rle_dec (Vector3.length (position (camera (scene st)))) 1800)
      as [Hle | Hnle]; try lra.
    + left. repeat split. intros _. exact Hfar.
    + right. repeat split. exact Hle.
  - left. repeat split. intros Hc. discriminate.
Qed.

End PointerMoves.

(* ----------------------------------------------------------------- *)
(** ** Camera navigation buttons *)

Section NavMoves.

Import Scene Nav.

Context {Internal : Type}.
Variable controls_update :
  Camera -> Controls Internal -> Camera * Controls Internal.
Variable atan2 : R -> R -> R.

Lemma length_sub_distance (u v : Vec3) :
  Vector3.length (Vector3.sub u v) = Vector3.distanceTo u v.
Proof. reflexivity. Qed.

Lemma sq_sum_nonneg (p q r : R) : 0 <= p * p + q * q + r * r.
Proof. nra. Qed.

Lemma setLength_scales (v : Vec3) (factor : R) :
  setLength v (Vector3.length v * factor) = Vector3.multiplyScalar v factor.
Proof.
  unfold setLength, Vector3.normalize, num_or.
  destruct (Req_dec_T (Vector3.length v) 0) as [H0 | Hn0].
  - rewrite H0.
    assert (Hz : Vector3.x v = 0 /\ Vector3.y v = 0 /\ Vector3.z v = 0).
    { unfold Vector3.length in H0. apply sqrt_eq_0 in H0;
        [| apply sq_sum_nonneg].
      apply sum_squares_zero. exact H0. }
    destruct Hz as (Hx & Hy & Hz).
    unfold Vector3.divideScalar, Vector3.multiplyScalar.
    cbn [Vector3.x Vector3.y Vector3.z]. rewrite Hx, Hy, Hz.
    f_equal; field.
  - unfold Vector3.divideScalar, Vector3.multiplyScalar.
    cbn [Vector3.x Vector3.y Vector3.z].
    f_equal; field; exact Hn0.
Qed.

Lemma distance_scaled (c v : Vec3) (k : R) :
  0 <= k ->
  Vector3.distanceTo (Vector3.add c (Vector3.multiplyScalar v k)) c
  = Vector3.length v * k.
Proof.
  intros Hk. unfold Vector3.distanceTo, Vector3.add, Vector3.multiplyScalar,
    Vector3.length. cbn [Vector3.x Vector3.y Vector3.z]. cbv zeta.
  replace ((Vector3.x c + Vector3.x v * k - Vector3.x c)
           * (Vector3.x c + Vector3.x v * k - Vector3.x c)
           + (Vector3.y c + Vector3.y v * k - Vector3.y c)
             * (Vector3.y c + Vector3.y v * k - Vector3.y c)
           + (Vector3.z c + Vector3.z v * k - Vector3.z c)
             * (Vector3.z c + Vector3.z v * k - Vector3.z c))
    with ((Vector3.x v * Vector3.x v + Vector3.y v * Vector3.y v
           + Vector3.z v * Vector3.z v) * (k * k)) by ring.
  rewrite sqrt_mult_alt by apply sq_sum_nonneg.
  rewrite sqrt_square by exact Hk. reflexivity.
Qed.

(** X18.  A dolly step multiplies the camera's offset from the orbit
    target by the factor, so the camera stays on the same ray from the
    target at [factor] times the distance, when that distance is within
    [[minDistance, maxDistance]]; otherwise it changes nothing and does not
    call [update].  The camera it hands to [update] is therefore never
    outside the distance limits. *)
Theorem dolly_scales_distance_within_limits
    (factor : R) (cam : Camera) (ctl : Controls Internal) :
  0 <= factor ->
  let dist := Vector3.distanceTo (position cam) (target ctl) * factor in
  let moved :=
    mkCamera (Vector3.add (target ctl)
                (Vector3.multiplyScalar
                   (Vector3.sub (position cam) (target ctl)) factor))
             (fov cam) in
  (minDistance ctl <= dist <= maxDistance ctl ->
   dollyCamera controls_update factor cam ctl = controls_update moved ctl /\
   Vector3.distanceTo (position moved) (target ctl) = dist) /\
  (~ (minDistance ctl <= dist <= maxDistance ctl) ->
   dollyCamera controls_update factor cam ctl = (cam, ctl)).
Proof.
  intros Hf dist moved. subst dist moved.
  unfold dollyCamera. cbv zeta.
  rewrite setLength_scales, length_sub_distance.
  unfold geb, leb.
  destruct (Rge_dec (Vector3.distanceTo (position cam) (target ctl) * factor)
                    (minDistance ctl)) as [Hge | Hlt];
    destruct (Rle_dec (Vector3.distanceTo (position cam) (target ctl) * factor)
                      (maxDistance ctl)) as [Hle | Hgt];
    cbn [andb]; split; intros Hr; try lra; try reflexivity.
  split; [reflexivity |].
  cbn [position]. rewrite distance_scaled by exact Hf.
  rewrite length_sub_distance. reflexivity.
Qed.

Lemma add_sub_offset (p t o : Vec3) :
  Vector3.sub (Vector3.add p o) (Vector3.add t o) = Vector3.sub p t.
Proof.
  unfold Vector3.sub, Vector3.add. cbn [Vector3.x Vector3.y Vector3.z].
  f_equal; ring.
Qed.

Lemma distance_add_offset (p t o : Vec3) :
  Vector3.distanceTo (Vector3.add p o) (Vector3.add t o)
  = Vector3.distanceTo p t.
Proof.
  rewrite <- !length_sub_distance, add_sub_offset. reflexivity.
Qed.

(** X19.  A pan step moves the camera and the orbit target by the same
    vector: the offset of the camera from the target, and so the viewing
    distance, are unchanged, as are the field of view and the distance
    limits; and a pan step followed by the opposite one along the same
    axes puts camera and target back where they were. *)
Theorem pan_moves_camera_and_target_together
    (dx dy : R) (right up : Vec3) (cam : Camera) (ctl : Controls Internal) :
  let r := panMove dx dy right up cam ctl in
  panCamera controls_update dx dy right up cam ctl
  = controls_update (fst r) (snd r) /\
  Vector3.sub (position (fst r)) (target (snd r))
  = Vector3.sub (position cam) (target ctl) /\
  Vector3.distanceTo (position (fst r)) (target (snd r))
  = Vector3.distanceTo (position cam) (target ctl) /\
  Vector3.sub (position (fst r)) (position cam)
  = Vector3.sub (target (snd r)) (target ctl) /\
  panMove (- dx) (- dy) right up (fst r) (snd r) = (cam, ctl).
Proof.
  intros r. subst r. unfold panCamera, panMove. cbv zeta.
  cbn [fst snd position target fov enabled minDistance maxDistance internal].
  split; [reflexivity |].
  split; [apply add_sub_offset |].
  split; [apply distance_add_offset |].
  split.
  - unfold Vector3.sub, Vector3.add. cbn [Vector3.x Vector3.y Vector3.z].
    f_equal; ring.
  - rewrite distance_add_offset.
    destruct cam as [[px py pz] f], ctl as [en [tx ty tz] mn mx i].
    cbn [position target fov enabled minDistance maxDistance internal].
    unfold Vector3.add, Vector3.addScaledVector, Vector3.multiplyScalar.
    cbn [Vector3.x Vector3.y Vector3.z].
    f_equal; [f_equal | f_equal]; f_equal; ring.
Qed.

Lemma spherical_length (r p t : R) :
  0 <= r ->
  Vector3.length (setFromSpherical (mkSpherical r p t)) = r.
Proof.
  intros Hr. unfold Vector3.length, setFromSpherical.
  cbn [Vector3.x Vector3.y Vector3.z radius phi theta]. cbv zeta.
  replace (sin p * r * sin t * (sin p * r * sin t)
           + cos p * r * (cos p * r)
           + sin p * r * cos t * (sin p * r * cos t))
    with (r * r * ((sin p * sin p) * (sin t * sin t + cos t * cos t)
                   + cos p * cos p)) by ring.
  pose proof (sin2_cos2 t) as Ht. pose proof (sin2_cos2 p) as Hp.
  unfold Rsqr in Ht, Hp. rewrite Ht, Rmult_1_r, Hp, Rmult_1_r.
  apply sqrt_square. exact Hr.
Qed.

Lemma setFromVector3_radius (v : Vec3) :
  radius (setFromVector3 atan2 v) = Vector3.length v.
Proof.
  unfold setFromVector3. cbv zeta.
  destruct (eqb _ 0); reflexivity.
Qed.

Lemma distance_add (c o : Vec3) :
  Vector3.distanceTo (Vector3.add c o) c = Vector3.length o.
Proof.
  unfold Vector3.distanceTo, Vector3.add, Vector3.length.
  cbn [Vector3.x Vector3.y Vector3.z]. cbv zeta. f_equal. ring.
Qed.

Lemma clamped_polar_cos (p : R) :
  Rabs (cos (Rmax 0.05 (Rmin (PI - 0.05) p))) <= cos 0.05.
Proof.
  pose proof PI2_3_2 as Hpi. pose proof PI_4 as Hpi4.
  set (q := Rmax 0.05 (Rmin (PI - 0.05) p)).
  assert (Hq : 0.05 <= q <= PI - 0.05).
  { unfold q. split; [apply Rmax_l |].
    apply Rmax_lub; [lra | apply Rmin_l]. }
  apply Rabs_le. split.
  - replace (- cos 0.05) with (cos (PI - 0.05))
      by (rewrite cos_minus, cos_PI, sin_PI; ring).
    apply cos_decr_1; lra.
  - apply cos_decr_1; lra.
Qed.

(** X20.  A rotation step keeps the camera at its distance from the orbit
    target, whatever the angles, and keeps it off the vertical through the
    target: its height above or below the target is at most
    [cos 0.05] times that distance. *)
Theorem rotation_keeps_distance_and_avoids_poles
    (deltaTheta deltaPhi : R) (cam : Camera) (ctl : Controls Internal) :
  let moved := shiftMove atan2 deltaTheta deltaPhi cam ctl in
  let dist := Vector3.distanceTo (position cam) (target ctl) in
  shiftCameraAngle controls_update atan2 deltaTheta deltaPhi cam ctl
  = controls_update moved ctl /\
  Vector3.distanceTo (position moved) (target ctl) = dist /\
  Rabs (Vector3.y (position moved) - Vector3.y (target ctl))
  <= dist * cos 0.05 /\
  fov moved = fov cam.
Proof.
  intros moved dist. subst moved dist.
  split; [reflexivity |].
  unfold shiftMove. cbv zeta. cbn [position fov].
  rewrite setFromVector3_radius, length_sub_distance.
  assert (Hd : 0 <= Vector3.distanceTo (position cam) (target ctl)).
  { unfold Vector3.distanceTo. cbv zeta. apply sqrt_pos. }
  split; [| split; [| reflexivity]].
  - rewrite distance_add. apply spherical_length. exact Hd.
  - unfold setFromSpherical, Vector3.add.
    cbn [Vector3.x Vector3.y Vector3.z radius phi theta]. cbv zeta.
    match goal with
    | |- Rabs (?ty + ?c * ?d - ?ty) <= _ =>
        replace (ty + c * d - ty) with (d * c) by ring
    end.
    rewrite Rabs_mult, (Rabs_pos_eq _ Hd).
    apply Rmult_le_compat_l; [exact Hd | apply clamped_polar_cos].
Qed.

Lemma step_unknown (action : string) (right up : Vec3)
    (cam : Camera) (ctl : Controls Internal) :
  ~ In action ["rotateLeft"; "rotateRight"; "rotateUp"; "rotateDown";
               "zoomIn"; "zoomOut"; "panLeft"; "panRight"; "panUp";
               "panDown"]%string ->
  step controls_update atan2 action right up cam ctl = (cam, ctl).
Proof.
  intros Hn. unfold step.
  repeat match goal with
         | |- context [String.eqb action ?k] =>
             destruct (String.eqb_spec action k) as [-> | _];
               [exfalso; apply Hn; simpl; tauto |]
         end.
  reflexivity.
Qed.

Lemma stopNav_OK (st : NavState Internal) :
  navOK st ->
  intervals (stopNav st) = [] /\ _navInterval (stopNav st) = None.
Proof.
  unfold navOK, stopNav. destruct (_navInterval st) as [id |] eqn:Hid.
  - intros [a Ha]. cbn [intervals _navInterval]. rewrite Ha.
    unfold clearInterval. cbn [filter fst]. rewrite Nat.eqb_refl.
    split; reflexivity.
  - intros Hnil. rewrite Hid. split; [exact Hnil | reflexivity].
Qed.

(** X21.  The navigation buttons never leave more than one repeating step
    running.  When the running intervals are the one [_navInterval] names,
    [startNav] leaves exactly one running interval, stepping the new
    action, whose handle is in [_navInterval]; [stopNav] leaves none, and
    leaves the camera and controls alone; a second [stopNav] changes
    nothing; and an action name outside the ten known ones starts an
    interval that does not move the camera. *)
Theorem nav_keeps_at_most_one_interval
    (action : string) (right up : Vec3) (st : NavState Internal) :
  navOK st ->
  let started := startNav controls_update atan2 action right up st in
  navOK started /\
  intervals started = [(nextHandle st, action)] /\
  _navInterval started = Some (nextHandle st) /\
  navOK (stopNav st) /\
  intervals (stopNav st) = [] /\
  nav_camera (stopNav st) = nav_camera st /\
  nav_controls (stopNav st) = nav_controls st /\
  stopNav (stopNav st) = stopNav st /\
  intervals (stopNav started) = [] /\
  (~ In action ["rotateLeft"; "rotateRight"; "rotateUp"; "rotateDown";
                "zoomIn"; "zoomOut"; "panLeft"; "panRight"; "panUp";
                "panDown"]%string ->
   nav_camera started = nav_camera st /\
   nav_controls started = nav_controls st).
Proof.
  intros Hok started.
  destruct (stopNav_OK st Hok) as [Hnil Hnone].
  assert (Hcam : nav_camera (stopNav st) = nav_camera st).
  { unfold stopNav. destruct (_navInterval st); reflexivity. }
  assert (Hctl : nav_controls (stopNav st) = nav_controls st).
  { unfold stopNav. destruct (_navInterval st); reflexivity. }
  assert (Hnext : nextHandle (stopNav st) = nextHandle st).
  { unfold stopNav. destruct (_navInterval st); reflexivity. }
  assert (Hstarted :
    intervals started = [(nextHandle st, action)] /\
    _navInterval started = Some (nextHandle st)).
  { subst started. unfold startNav. cbv zeta.
    destruct (step controls_update atan2 action right up
                (nav_camera (stopNav st)) (nav_controls (stopNav st)))
      as [c k].
    cbn [intervals _navInterval]. rewrite Hnil, Hnext.
    split; reflexivity. }
  destruct Hstarted as [Hi Hn].
  assert (Hoks : navOK started).
  { unfold navOK. rewrite Hn. exists action. exact Hi. }
  split; [exact Hoks |]. split; [exact Hi |]. split; [exact Hn |].
  split; [unfold navOK; rewrite Hnone; exact Hnil |].
  split; [exact Hnil |]. split; [exact Hcam |]. split; [exact Hctl |].
  split; [unfold stopNav at 1; rewrite Hnone; reflexivity |].
  split; [exact (proj1 (stopNav_OK started Hoks)) |].
  intros Hunk. subst started. unfold startNav. cbv zeta.
  rewrite (step_unknown action right up _ _ Hunk).
  cbn [nav_camera nav_controls]. split; assumption.
Qed.

End NavMoves.

(* ----------------------------------------------------------------- *)
(** ** Star field and asteroid belt *)

Section ParticleClouds.

Import Particles.

Lemma starPosition_length (u1 u2 u3 : R) :
  0 <= u3 ->
  Vector3.length (starPosition u1 u2 u3) = 2400 + u3 * 200.
Proof.
  intros Hu. unfold starPosition, Vector3.length. cbv zeta.
  cbn [Vector3.x Vector3.y Vector3.z].
  set (r := 2400 + u3 * 200). set (p := acos (2 * u2 - 1)).
  set (t := u1 * PI * 2).
  replace (r * sin p * cos t * (r * sin p * cos t)
           + r * sin p * sin t * (r * sin p * sin t)
           + r * cos p * (r * cos p))
    with (r * r * ((sin p * sin p) * (sin t * sin t + cos t * cos t)
                   + cos p * cos p)) by ring.
  pose proof (sin2_cos2 t) as Ht. pose proof (sin2_cos2 p) as Hp.
  unfold Rsqr in Ht, Hp. rewrite Ht, Rmult_1_r, Hp, Rmult_1_r.
  apply sqrt_square. unfold r. lra.
Qed.

(** X22.  With draws in [[0, 1)], the star field has 10000 stars, each at a
    distance from the origin of at least 2400 and less than 2600, with
    height [r * (2 u - 1)] for its second draw [u]: the stars fill a thin
    spherical shell around the scene. *)
Theorem stars_lie_in_a_thin_shell (random : nat -> R) :
  (forall n : nat, 0 <= random n < 1) ->
  List.length (createStarfield random) = 10000%nat /\
  Forall (fun p => 2400 <= Vector3.length p < 2600) (createStarfield random) /\
  (forall u1 u2 u3 : R,
      0 <= u2 < 1 -> 0 <= u3 < 1 ->
      Vector3.z (starPosition u1 u2 u3)
      = Vector3.length (starPosition u1 u2 u3) * (2 * u2 - 1)).
Proof.
  intros Hr. split; [| split].
  - unfold createStarfield. cbv zeta. rewrite length_map, length_seq.
    reflexivity.
  - unfold createStarfield. cbv zeta. apply Forall_forall. intros p Hin.
    apply in_map_iff in Hin. destruct Hin as (i & <- & _).
    pose proof (Hr (3 * i + 2)%nat) as H3.
    rewrite starPosition_length by lra. lra.
  - intros u1 u2 u3 H2 H3. rewrite starPosition_length by lra.
    unfold starPosition. cbv zeta. cbn [Vector3.z].
    rewrite cos_acos by lra. reflexivity.
Qed.

Lemma asteroid_horizontal (u1 u2 u3 u4 : R) :
  0 <= u2 -> 0 <= u3 ->
  horizontalRadius (asteroidPosition u1 u2 u3 u4)
  = 77 + (u2 + u3) / 2 * 35.
Proof.
  intros H2 H3. unfold horizontalRadius, asteroidPosition,
    Build.getOrbitRadius. cbv zeta. cbn [Vector3.x Vector3.z].
  set (t := u1 * PI * 2).
  set (r := 2.2 * 35 + (u2 + u3) / 2 * (3.2 * 35 - 2.2 * 35)).
  replace (cos t * r * (cos t * r) + sin t * r * (sin t * r))
    with (r * r * (sin t * sin t + cos t * cos t)) by ring.
  pose proof (sin2_cos2 t) as Ht. unfold Rsqr in Ht.
  rewrite Ht, Rmult_1_r, sqrt_square by (unfold r; nra).
  unfold r. lra.
Qed.

(** X23.  With draws in [[0, 1)], the belt has 2800 asteroids, every one
    of them above or below the flat hit ring that stands for the belt: its
    distance from the vertical axis is between the ring's inner radius 77
    and its outer radius 112, and its height is within 2 of the ring's
    plane.  The ring carries the belt's record and is marked as the belt,
    with no glow. *)
Theorem asteroids_lie_over_the_hit_ring (random : nat -> R) :
  (forall n : nat, 0 <= random n < 1) ->
  let belt := createAsteroidBelt random in
  List.length (belt_positions belt) = 2800%nat /\
  ring_inner belt = 77 /\ ring_outer belt = 112 /\
  Forall (fun p =>
            ring_inner belt <= horizontalRadius p < ring_outer belt /\
            -2 <= Vector3.y p < 2)
         (belt_positions belt) /\
  Interaction.userData_planet (ring_hit belt)
  = Some Scene.ASTEROID_BELT_PLANET /\
  Interaction.userData_isAsteroidBelt (ring_hit belt) = true /\
  Interaction.userData_glowMesh (ring_hit belt) = false.
Proof.
  intros Hr belt. subst belt. unfold createAsteroidBelt. cbv zeta.
  cbn [belt_positions ring_inner ring_outer ring_hit
       Interaction.userData_planet Interaction.userData_isAsteroidBelt
       Interaction.userData_glowMesh].
  split; [rewrite length_map, length_seq; reflexivity |].
  split; [unfold Build.getOrbitRadius; lra |].
  split; [unfold Build.getOrbitRadius; lra |].
  split; [| repeat split].
  apply Forall_forall. intros p Hin.
  apply in_map_iff in Hin. destruct Hin as (i & <- & _).
  pose proof (Hr (4 * i + 1)%nat) as H2.
  pose proof (Hr (4 * i + 2)%nat) as H3.
  pose proof (Hr (4 * i + 3)%nat) as H4.
  rewrite asteroid_horizontal by lra.
  unfold Build.getOrbitRadius.
  split; [lra |].
  unfold asteroidPosition. cbv zeta. cbn [Vector3.y]. lra.
Qed.

End ParticleClouds.

(* ----------------------------------------------------------------- *)
(** ** Assembling the scene *)

Section SceneAssembly.

Import Scene Frames Orbit Moon Assembly.

Lemma buildPlanetObjects_records (planets : list Planet.t)
    (random : nat -> R) (drawn : nat) :
  map PlanetObject.planet (buildPlanetObjects planets random drawn)
  = filter (fun p => negb (Planet.is_star p)) planets.
Proof.
  revert drawn. induction planets as [| p rest IH]; intros drawn;
    [reflexivity |].
  cbn [buildPlanetObjects filter].
  destruct (Planet.is_star p); cbn [negb].
  - apply IH.
  - cbn [map]. f_equal. apply IH.
Qed.

Lemma buildPlanetObjects_each (P : PlanetObject.t -> Prop)
    (planets : list Planet.t) (random : nat -> R) (drawn : nat) :
  (forall p n, In p planets -> Planet.is_star p = false ->
               P (Build.newPlanetObject p (random n * PI * 2))) ->
  Forall P (buildPlanetObjects planets random drawn).
Proof.
  revert drawn. induction planets as [| p rest IH]; intros drawn HP;
    [apply Forall_nil |].
  cbn [buildPlanetObjects].
  destruct (Planet.is_star p) eqn:Hs.
  - apply IH. intros q n Hin. apply HP. right. exact Hin.
  - apply Forall_cons.
    + apply HP; [left; reflexivity | exact Hs].
    + apply IH. intros q n Hin. apply HP. right. exact Hin.
Qed.

Lemma buildHitMeshes_records (planets : list Planet.t)
    (random : nat -> R) (drawn : nat) :
  map Interaction.userData_planet (buildHitMeshes planets random drawn)
  = map Some planets.
Proof.
  revert drawn. induction planets as [| p rest IH]; intros drawn;
    [reflexivity |].
  cbn [buildHitMeshes]. destruct (Planet.is_star p); cbn [map];
    f_equal; apply IH.
Qed.

(** X24.  From records with non-negative distance and eccentricity and
    draws in [[0, 1)], [buildSolarSystem] builds one orbiting object per
    record that is not the star, in the order of the records, and none for
    the star; every object has a well-formed orbit of eccentricity at most
    0.70, a start anomaly in [[0, 2 PI)], and its mesh and hit proxy on the
    orbit at that anomaly; every record, the star included, gets a hit
    proxy carrying it. *)
Theorem planets_built_on_their_orbits
    (planets : list Planet.t) (random : nat -> R) :
  (forall n : nat, 0 <= random n < 1) ->
  Forall (fun p => Planet.is_star p = false ->
                   0 <= Planet.distance_from_sun p /\
                   0 <= nullish (Planet.eccentricity p) 0) planets ->
  let objs := fst (buildSolarSystem planets random) in
  map PlanetObject.planet objs
  = filter (fun p => negb (Planet.is_star p)) planets /\
  Forall (fun o =>
            planetOK o /\ PlanetObject.e o <= 0.70 /\ planetSettled o /\
            PlanetObject.hitMesh_position o = PlanetObject.mesh_position o /\
            0 <= PlanetObject.meanAnomaly o < 2 * PI)
         objs /\
  map Interaction.userData_planet (snd (buildSolarSystem planets random))
  = map Some planets.
Proof.
  intros Hr Hp objs. subst objs. unfold buildSolarSystem. cbn [fst snd].
  split; [apply buildPlanetObjects_records |].
  split; [| apply buildHitMeshes_records].
  apply buildPlanetObjects_each. intros p n Hin Hs.
  rewrite Forall_forall in Hp. destruct (Hp p Hin Hs) as [Hd He].
  split; [apply newPlanetObject_OK; assumption |].
  split; [apply planetEccentricity_le |].
  split; [apply newPlanetObject_settled |].
  split; [reflexivity |].
  cbn [Build.newPlanetObject PlanetObject.meanAnomaly].
  pose proof (Hr n) as Hn. pose proof PI_RGT_0 as Hpi.
  split; [apply Rmult_le_pos; [apply Rmult_le_pos |]; lra |].
  assert (random n * PI < 1 * PI) by (apply Rmult_lt_compat_r; lra). lra.
Qed.

Lemma findParent_spec (parentName : string) (objs : list PlanetObject.t)
    (i parent : nat) (parentObj : PlanetObject.t) :
  findParent parentName objs i = Some (parent, parentObj) ->
  (i <= parent)%nat /\
  nth_error objs (parent - i) = Some parentObj /\
  Planet.name (PlanetObject.planet parentObj) = parentName /\
  (forall j q, (j < parent - i)%nat -> nth_error objs j = Some q ->
               Planet.name (PlanetObject.planet q) <> parentName).
Proof.
  revert i. induction objs as [| p rest IH]; intros i Hf; [discriminate |].
  cbn [findParent] in Hf.
  destruct (String.eqb_spec (Planet.name (PlanetObject.planet p)) parentName)
    as [Heq | Hne].
  - injection Hf as <- <-. rewrite Nat.sub_diag.
    split; [lia |]. split; [reflexivity |]. split; [exact Heq |].
    intros j q Hj. lia.
  - destruct (IH (S i) Hf) as (Hle & Hnth & Hname & Hfirst).
    split; [lia |].
    replace (parent - i)%nat with (S (parent - S i)) by lia.
    split; [exact Hnth |]. split; [exact Hname |].
    intros j q Hj Hq. destruct j as [| j].
    + injection Hq as <-. exact Hne.
    + apply (Hfirst j q); [lia | exact Hq].
Qed.

Lemma findParent_none (parentName : string) (objs : list PlanetObject.t)
    (i : nat) :
  findParent parentName objs i = None ->
  existsb (fun p => String.eqb (Planet.name (PlanetObject.planet p)) parentName)
          objs = false.
Proof.
  revert i. induction objs as [| p rest IH]; intros i Hf; [reflexivity |].
  cbn [findParent] in Hf. cbn [existsb].
  destruct (String.eqb (Planet.name (PlanetObject.planet p)) parentName);
    [discriminate |].
  apply (IH (S i)). exact Hf.
Qed.

Lemma findParent_some (parentName : string) (objs : list PlanetObject.t)
    (i : nat) (r : nat * PlanetObject.t) :
  findParent parentName objs i = Some r ->
  existsb (fun p => String.eqb (Planet.name (PlanetObject.planet p)) parentName)
          objs = true.
Proof.
  revert i. induction objs as [| p rest IH]; intros i Hf; [discriminate |].
  cbn [findParent] in Hf. cbn [existsb].
  destruct (String.eqb (Planet.name (PlanetObject.planet p)) parentName);
    [reflexivity |].
  apply (IH (S i)). exact Hf.
Qed.

Lemma createMoonsFrom_attached (defs : list MoonDef)
    (planetObjects : list PlanetObject.t) (random : nat -> R) (drawn : nat) :
  Forall (attached planetObjects defs)
         (createMoonsFrom defs planetObjects random drawn).
Proof.
  revert drawn. induction defs as [| def rest IH]; intros drawn;
    [apply Forall_nil |].
  assert (Hweak : forall k,
            Forall (attached planetObjects (def :: rest))
                   (createMoonsFrom rest planetObjects random k)).
  { intros k. eapply Forall_impl; [| apply IH].
    intros m (d & parent & Hin & Hrest). exists d, parent.
    split; [right; exact Hin | exact Hrest]. }
  cbn [createMoonsFrom].
  destruct (findParent (md_parentName def) planetObjects 0)
    as [[parent parentObj] |] eqn:Hf; [| apply Hweak].
  apply Forall_cons; [| apply Hweak].
  destruct (findParent_spec _ _ _ _ _ Hf) as (_ & Hnth & Hname & Hfirst).
  rewrite Nat.sub_0_r in Hnth, Hfirst.
  exists def, parentObj.
  split; [left; reflexivity |].
  cbn [Build.newMoonObject MoonObject.parentPlanetObj MoonObject.orbitRadius
       MoonObject.speed MoonObject.orbitLine_position
       MoonObject.mesh_position].
  split; [exact Hnth |]. split; [exact Hname |]. split; [exact Hfirst |].
  repeat split.
Qed.

Lemma createMoonsFrom_length (defs : list MoonDef)
    (planetObjects : list PlanetObject.t) (random : nat -> R) (drawn : nat) :
  List.length (createMoonsFrom defs planetObjects random drawn)
  = List.length
      (filter (fun def =>
                 existsb (fun p => String.eqb
                                     (Planet.name (PlanetObject.planet p))
                                     (md_parentName def))
                         planetObjects)
              defs).
Proof.
  revert drawn. induction defs as [| def rest IH]; intros drawn;
    [reflexivity |].
  cbn [createMoonsFrom filter].
  destruct (findParent (md_parentName def) planetObjects 0)
    as [[parent parentObj] |] eqn:Hf.
  - rewrite (findParent_some _ _ _ _ Hf). cbn [List.length]. f_equal. apply IH.
  - rewrite (findParent_none _ _ _ Hf). apply IH.
Qed.

Lemma MOON_DEFS_radii : Forall (fun def => 0 < md_orbitVis def) MOON_DEFS.
Proof.
  unfold MOON_DEFS.
  repeat (apply Forall_cons; [cbn [md_orbitVis]; lra |]).
  apply Forall_nil.
Qed.

Lemma attached_OK (planetObjects : list PlanetObject.t) (m : MoonObject.t) :
  attached planetObjects MOON_DEFS m ->
  0 < MoonObject.orbitRadius m /\ parentValid planetObjects m /\
  moonSettled planetObjects m.
Proof.
  intros (def & parent & Hin & Hnth & _ & _ & Hr & _ & _ & Hpos).
  split; [| split].
  - rewrite Hr. pose proof MOON_DEFS_radii as H.
    rewrite Forall_forall in H. apply H. exact Hin.
  - unfold parentValid. apply nth_error_Some. rewrite Hnth. discriminate.
  - exists parent. split; assumption.
Qed.

Lemma createMoonsFrom_trig (defs : list MoonDef)
    (planetObjects : list PlanetObject.t) (random : nat -> R) (drawn : nat) :
  Forall (fun m => MoonObject.cosInc m * MoonObject.cosInc m
                   + MoonObject.sinInc m * MoonObject.sinInc m = 1)
         (createMoonsFrom defs planetObjects random drawn).
Proof.
  revert drawn. induction defs as [| def rest IH]; intros drawn;
    [apply Forall_nil |].
  cbn [createMoonsFrom].
  destruct (findParent (md_parentName def) planetObjects 0)
    as [[parent parentObj] |]; [| apply IH].
  apply Forall_cons; [| apply IH].
  cbn [Build.newMoonObject MoonObject.cosInc MoonObject.sinInc].
  apply trig_unit.
Qed.

(** X25.  Every moon [createMoons] creates is attached to a planet object
    that exists: the first one whose record has the name the moon's entry
    gives as parent.  The moon has the entry's orbit radius, which is
    positive, and its speed; it starts at that distance from its parent,
    with its orbit line centred on the parent.  Entries whose parent is
    not among the planet objects create nothing: the number of moons is
    the number of entries with a parent present, at most 12, and none
    without planets. *)
Theorem moons_attach_to_existing_planets
    (planetObjects : list PlanetObject.t) (random : nat -> R) :
  let moons := createMoons planetObjects random in
  Forall (fun m =>
            attached planetObjects MOON_DEFS m /\
            moonOK m /\ parentValid planetObjects m /\
            moonSettled planetObjects m /\
            forall parent,
              nth_error planetObjects (MoonObject.parentPlanetObj m)
              = Some parent ->
              Vector3.distanceTo (MoonObject.mesh_position m)
                                 (PlanetObject.mesh_position parent)
              = MoonObject.orbitRadius m)
         moons /\
  List.length moons
  = List.length
      (filter (fun def =>
                 existsb (fun p => String.eqb
                                     (Planet.name (PlanetObject.planet p))
                                     (md_parentName def))
                         planetObjects)
              MOON_DEFS) /\
  (List.length moons <= 12)%nat /\
  createMoons [] random = [].
Proof.
  intros moons. subst moons. unfold createMoons.
  split; [| split; [| split]].
  - pose proof (createMoonsFrom_attached MOON_DEFS planetObjects random 0) as Ha.
    pose proof (createMoonsFrom_trig MOON_DEFS planetObjects random 0) as Ht.
    rewrite Forall_forall in Ha, Ht. apply Forall_forall. intros m Hin.
    pose proof (Ha m Hin) as Hatt.
    destruct (attached_OK planetObjects m Hatt) as (Hr & Hv & Hs).
    assert (Hok : moonOK m) by (split; [lra | apply Ht; exact Hin]).
    split; [exact Hatt |]. split; [exact Hok |]. split; [exact Hv |].
    split; [exact Hs |].
    intros parent Hp. destruct Hs as (parent' & Hp' & Hpos).
    rewrite Hp in Hp'. injection Hp' as <-.
    rewrite Hpos. apply moonPlace_distance. exact Hok.
  - apply createMoonsFrom_length.
  - rewrite createMoonsFrom_length.
    etransitivity; [apply filter_length_le | simpl; lia].
  - reflexivity.
Qed.

End SceneAssembly.

(* ----------------------------------------------------------------- *)
(** ** The built scene over its life *)

Section SceneLife.

Import Scene Frames Orbit Moon Assembly Interaction.

Context {Internal : Type}.
Variable controls_update :
  Camera -> Controls Internal -> Camera * Controls Internal.

Lemma animate_sceneOK (s : State Internal) :
  sceneOK s -> sceneOK (animate controls_update s).
Proof.
  intros (_ & Hp & Hc & Hm).
  assert (Hvalid : Forall (fun m => (MoonObject.parentPlanetObj m
                                     < List.length (planetObjects s))%nat)
                          (moonObjects s)).
  { eapply Forall_impl; [| exact Hm]. intros m [_ Hv]. exact Hv. }
  split; [apply animate_settled; exact Hvalid |].
  rewrite animate_moonObjects, animate_cometObjects, animate_planetObjects.
  split; [| split].
  - apply Forall_forall. intros p Hin. apply in_map_iff in Hin.
    destruct Hin as (p0 & <- & Hin0). apply animatePlanet_OK.
    rewrite Forall_forall in Hp. apply Hp. exact Hin0.
  - apply Forall_forall. intros c Hin. apply in_map_iff in Hin.
    destruct Hin as (c0 & <- & Hin0). apply animateComet_OK.
    rewrite Forall_forall in Hc. apply Hc. exact Hin0.
  - apply Forall_forall. intros m Hin. apply in_map_iff in Hin.
    destruct Hin as (m0 & <- & Hin0).
    rewrite Forall_forall in Hm. destruct (Hm m0 Hin0) as [Hok Hv].
    pose proof (animateMoon_elements (simulationSpeed s)
                  (map (animatePlanet (simulationSpeed s)
                          (halfH_of (clientHeight s))
                          (tanHalfFov_of (fov (camera s)))
                          (position (camera s)))
                       (planetObjects s)) m0) as He.
    unfold moonElements in He. injection He as Hr Hs Hci Hsi Hpar.
    split.
    + unfold moonOK in *. rewrite Hr, Hci, Hsi. exact Hok.
    + unfold parentValid in *. rewrite Hpar, length_map. exact Hv.
Qed.

Lemma initialScene_OK (planets : list Planet.t) (height : Z)
    (internal0 : Internal) (randomPlanets randomMoons : nat -> R) :
  Forall (fun p => Planet.is_star p = false ->
                   0 <= Planet.distance_from_sun p /\
                   0 <= nullish (Planet.eccentricity p) 0) planets ->
  sceneOK (initialScene planets height internal0 randomPlanets randomMoons).
Proof.
  intros Hp. unfold sceneOK, settled, initialScene, buildSolarSystem.
  cbv zeta. cbn [fst planetObjects cometObjects moonObjects].
  set (objs := buildPlanetObjects planets randomPlanets 0).
  assert (Hobj : Forall (fun o => planetOK o /\ planetSettled o) objs).
  { apply buildPlanetObjects_each. intros p n Hin Hs.
    rewrite Forall_forall in Hp. destruct (Hp p Hin Hs) as [Hd He].
    split; [apply newPlanetObject_OK; assumption
           | apply newPlanetObject_settled]. }
  assert (Hmoon : Forall (fun m => moonOK m /\ parentValid objs m
                                   /\ moonSettled objs m)
                         (createMoons objs randomMoons)).
  { pose proof (createMoonsFrom_attached MOON_DEFS objs randomMoons 0) as Ha.
    pose proof (createMoonsFrom_trig MOON_DEFS objs randomMoons 0) as Ht.
    rewrite Forall_forall in Ha, Ht. apply Forall_forall. intros m Hin.
    destruct (attached_OK objs m (Ha m Hin)) as (Hr & Hv & Hs).
    split; [split; [lra | apply Ht; exact Hin] |]. split; assumption. }
  split; [split; [| split] | split; [| split]].
  - eapply Forall_impl; [| exact Hobj]. intros o [_ H]. exact H.
  - unfold Build.createComets. apply Forall_forall. intros c Hin.
    apply in_map_iff in Hin. destruct Hin as (d & <- & _).
    apply newCometObject_settled.
  - eapply Forall_impl; [| exact Hmoon]. intros m (_ & _ & H). exact H.
  - eapply Forall_impl; [| exact Hobj]. intros o [H _]. exact H.
  - apply createComets_OK.
  - eapply Forall_impl; [| exact Hmoon]. intros m (H1 & H2 & _).
    split; assumption.
Qed.

Lemma frames_sceneOK (n : nat) (s : State Internal) :
  sceneOK s -> sceneOK (frames controls_update n s).
Proof.
  intros Hs. induction n as [| n IH]; [exact Hs |].
  rewrite frames_S. apply animate_sceneOK. exact IH.
Qed.

(** X26.  The scene built from records with non-negative distance and
    eccentricity has every body on a well-formed orbit and in place, every
    moon attached to an existing planet, speed 0.25, no hover and no
    transition; and that well-formedness is kept by every frame and is not
    touched by a click, by a double-click (in every state it leaves; it
    leaves none only when its zoom distance is not a number), or by the
    start of a camera manipulation: it holds after any number of frames of
    the built scene. *)
Theorem built_scene_stays_wellformed
    (planets : list Planet.t) (height : Z) (internal0 : Internal)
    (randomPlanets randomMoons : nat -> R) :
  Forall (fun p => Planet.is_star p = false ->
                   0 <= Planet.distance_from_sun p /\
                   0 <= nullish (Planet.eccentricity p) 0) planets ->
  let s0 := initialScene planets height internal0 randomPlanets randomMoons in
  sceneOK s0 /\
  simulationSpeed s0 = Speed.initial /\ hoveredPlanet s0 = None /\
  zoomAnim s0 = None /\
  (forall n : nat, sceneOK (frames controls_update n s0)) /\
  (forall s : State Internal,
      sceneOK s ->
      sceneOK (animate controls_update s) /\
      (forall hits, sceneOK (fst (onCanvasClick hits s))) /\
      (forall hits s1, fst (onCanvasDblClick hits s) = Some s1 ->
                       sceneOK s1) /\
      (forall ev, sceneOK (fst (onCameraStart ev s)))).
Proof.
  intros Hp s0.
  pose proof (initialScene_OK planets height internal0 randomPlanets
                randomMoons Hp) as H0.
  split; [exact H0 |]. split; [reflexivity |]. split; [reflexivity |].
  split; [reflexivity |].
  split; [intros n; apply frames_sceneOK; exact H0 |].
  intros s Hs. split; [apply animate_sceneOK; exact Hs |].
  split; [| split].
  - intros hits. unfold onCanvasClick.
    destruct hits as [| h rest]; [exact Hs |].
    destruct (userData_planet h) as [p |]; [| exact Hs].
    destruct (truthy (Planet.is_oort_cloud p)
              && leb (Vector3.length (position (camera s))) 1800); exact Hs.
  - intros hits s1. unfold onCanvasDblClick.
    destruct hits as [| h rest];
      [cbn [fst]; intros H; injection H as <-; exact Hs |].
    destruct (userData_planet h) as [p |];
      [| cbn [fst]; intros H; injection H as <-; exact Hs].
    destruct (truthy (Planet.is_oort_cloud p));
      [cbn [fst]; intros H; injection H as <-; exact Hs |].
    destruct (zoomDistOf p (minDistance (controls s))); cbn [fst];
      intros H; [injection H as <-; exact Hs | discriminate H].
  - intros ev. destruct ev as [| | touches]; cbn [onCameraStart].
    + unfold onControlsStart. destruct (hoveredPlanet s); exact Hs.
    + exact Hs.
    + unfold onCanvasTouchStart. destruct (2 <=? touches)%nat; exact Hs.
Qed.

End SceneLife.

(* ----------------------------------------------------------------- *)
(** ** Apsides and symmetry of the solved orbit *)

Section Apsides.

Import Kepler.

Lemma newton_fixed (n : nat) (e M : R) :
  sin M = 0 -> newton n e M M = M.
Proof.
  intros Hs. induction n as [| n IH]; [reflexivity |].
  cbn [newton]. rewrite Hs.
  replace (M - (M - e * 0 - M) / (1 - e * cos M)) with M
    by (unfold Rdiv; ring).
  exact IH.
Qed.

Lemma newton_odd (n : nat) (e M E : R) :
  newton n e (- M) (- E) = - newton n e M E.
Proof.
  revert E. induction n as [| n IH]; intros E; [reflexivity |].
  cbn [newton]. rewrite sin_neg, cos_neg.
  replace (- E - (- E - e * - sin E - - M) / (1 - e * cos E))
    with (- (E - (E - e * sin E - M) / (1 - e * cos E)))
    by (unfold Rdiv; ring).
  apply IH.
Qed.

(** X27.  At mean anomaly 0 the solver returns eccentric anomaly 0 and
    puts the body at the perihelion point, [a (1 - e)] along the direction
    of the ascending node; at mean anomaly [PI] it returns [PI] and the
    aphelion point, [a (1 + e)] the opposite way.  Negating the mean
    anomaly negates the eccentric anomaly: the second half of an orbit is
    the mirror image of the first in the orbital plane. *)
Theorem apsides_and_mirror_symmetry (M a b e cN sN cI sI : R) :
  eccentricAnomaly 0 e = 0 /\
  eccentricAnomaly PI e = PI /\
  solveKepler 0 a b e cN sN cI sI
  = Vector3.mk (cN * (a * (1 - e))) 0 (sN * (a * (1 - e))) /\
  solveKepler PI a b e cN sN cI sI
  = Vector3.mk (- (cN * (a * (1 + e)))) 0 (- (sN * (a * (1 + e)))) /\
  eccentricAnomaly (- M) e = - eccentricAnomaly M e /\
  orbitalPlane (- M) a b e
  = (fst (orbitalPlane M a b e), - snd (orbitalPlane M a b e)).
Proof.
  assert (H0 : eccentricAnomaly 0 e = 0)
    by (unfold eccentricAnomaly; apply newton_fixed; apply sin_0).
  assert (Hpi : eccentricAnomaly PI e = PI)
    by (unfold eccentricAnomaly; apply newton_fixed; apply sin_PI).
  assert (Hodd : eccentricAnomaly (- M) e = - eccentricAnomaly M e)
    by (unfold eccentricAnomaly; apply newton_odd).
  split; [exact H0 |]. split; [exact Hpi |].
  split; [| split; [| split; [exact Hodd |]]].
  - rewrite solveKepler_parts, H0. unfold solverPoint. cbv zeta.
    rewrite cos_0, sin_0. f_equal; ring.
  - rewrite solveKepler_parts, Hpi. unfold solverPoint. cbv zeta.
    rewrite cos_PI, sin_PI. f_equal; ring.
  - unfold orbitalPlane. cbv zeta. cbn [fst snd]. rewrite Hodd.
    rewrite cos_neg, sin_neg. f_equal. ring.
Qed.

End Apsides.

(* ----------------------------------------------------------------- *)
(** ** The registered hit objects *)

Section HitRegistry.

Import Scene Interaction Assembly.

Context {Internal : Type}.

Lemma registered_records (planets : list Planet.t) (random : nat -> R) :
  map userData_planet (hitMeshes planets random)
  = map Some (planets ++ [ASTEROID_BELT_PLANET; OORT_CLOUD_PLANET]
              ++ map CometObject.planet Build.createComets).
Proof.
  unfold hitMeshes, buildSolarSystem. cbn [snd].
  rewrite !map_app, buildHitMeshes_records, !map_map.
  reflexivity.
Qed.

(** X28.  Every object registered for hit testing carries a record: the
    records are those handed to the component, then the belt, the Oort
    cloud and the three comets, in that order.  A click whose nearest hit
    is a registered object therefore selects that object's record, unless
    the record is flagged as the Oort cloud and the camera is within 1800
    of the origin. *)
Theorem every_hit_object_is_selectable
    (planets : list Planet.t) (random : nat -> R) :
  map userData_planet (hitMeshes planets random)
  = map Some (planets ++ [ASTEROID_BELT_PLANET; OORT_CLOUD_PLANET]
              ++ map CometObject.planet Build.createComets) /\
  List.length (hitMeshes planets random) = (List.length planets + 5)%nat /\
  (forall (h : HitObject) (rest : list HitObject) (s : State Internal),
      In h (hitMeshes planets random) ->
      exists p : Planet.t,
        userData_planet h = Some p /\
        (onCanvasClick (h :: rest) s = (s, [planetSelected p]) \/
         (truthy (Planet.is_oort_cloud p) = true /\
          Vector3.length (position (camera s)) <= 1800 /\
          onCanvasClick (h :: rest) s = (s, [])))).
Proof.
  pose proof (registered_records planets random) as Hrec.
  split; [exact Hrec |]. split.
  - apply (f_equal (@List.length _)) in Hrec.
    rewrite !length_map, !length_app in Hrec. rewrite Hrec.
    cbn [List.length app map Build.createComets Build.COMET_DEFS]. lia.
  - intros h rest s Hin.
    assert (Hsome : In (userData_planet h)
                       (map userData_planet (hitMeshes planets random)))
      by (apply in_map; exact Hin).
    rewrite Hrec in Hsome. apply in_map_iff in Hsome.
    destruct Hsome as (p & Hp & _). exists p. split; [symmetry; exact Hp |].
    unfold onCanvasClick. rewrite <- Hp. unfold leb.
    destruct (truthy (Planet.is_oort_cloud p)); cbn [andb];
      [| left; reflexivity].
    destruct (Rle_dec (Vector3.length (position (camera s))) 1800)
      as [Hle | Hgt].
    + right. repeat split. exact Hle.
    + left. reflexivity.
Qed.

End HitRegistry.

(* ----------------------------------------------------------------- *)
(** ** Accuracy of the solver for planets *)

Section PlanetSolver.

Import Kepler.

(** X29.  For a planet record with an eccentricity in [[0, 0.4]], which
    covers every planet the data service returns, the cap at 0.70 leaves
    the eccentricity as it is, the solver runs 5 Newton updates, and for
    a mean anomaly between 0 and 100000 the eccentric anomaly it ends with
    satisfies Kepler's equation to within 1e-9.  The mean anomaly is never
    wrapped, so it does grow past any bound; the statement stops at 100000
    because only up to there is the rounding of a number of that size (at
    most 1.5e-11) far below the tolerance, and numbers are reals here. *)
Theorem planet_orbits_solved_to_tolerance (eccentricity : option R) (M : R) :
  0 <= nullish eccentricity 0 <= 0.4 ->
  0 <= M <= 100000 ->
  let e := planetEccentricity eccentricity in
  e = nullish eccentricity 0 /\
  iters e = 5%nat /\
  Rabs (eccentricAnomaly M e - e * sin (eccentricAnomaly M e) - M) < 1e-9.
Proof.
  intros He _ e.
  assert (Hev : e = nullish eccentricity 0).
  { subst e. unfold planetEccentricity, ECCENTRICITY_BOOST.
    rewrite Rmult_1_r. apply Rmin_left. lra. }
  split; [exact Hev |]. split.
  - destruct (iters_cases e) as [[H _] | [_ H]]; [lra | exact H].
  - apply planet_residual_within_tolerance. lra.
Qed.

End PlanetSolver.

(* ----------------------------------------------------------------- *)
(** ** Saturn's ring *)

Section SaturnRing.

Import Scene Frames.

Context {Internal : Type}.
Variable controls_update :
  Camera -> Controls Internal -> Camera * Controls Internal.

Lemma animatePlanet_ring (speed h t : R) (cam : Vec3) (p : PlanetObject.t) :
  PlanetObject.ring_position (animatePlanet speed h t cam p)
  = match PlanetObject.ring_position p with
    | Some _ => Some (PlanetObject.mesh_position (animatePlanet speed h t cam p))
    | None => None
    end.
Proof.
  unfold animatePlanet. destruct (PlanetObject.ring_position p); reflexivity.
Qed.

Lemma frames_rings (n : nat) (s : State Internal) :
  map (fun p => match PlanetObject.ring_position p with
                | Some _ => true
                | None => false
                end)
      (planetObjects (frames controls_update n s))
  = map (fun p => match PlanetObject.ring_position p with
                  | Some _ => true
                  | None => false
                  end)
        (planetObjects s).
Proof.
  induction n as [| n IH]; [reflexivity |].
  rewrite frames_S, animate_planetObjects, map_map, <- IH.
  apply map_ext. intros p. rewrite animatePlanet_ring.
  destruct (PlanetObject.ring_position p); reflexivity.
Qed.

(** X30.  A planet object is built with a ring exactly when its record is
    named Saturn, and the ring, a scene object of its own, is created at
    the origin.  After every frame each ring is at the position that frame
    gave its planet, and no run of frames adds or removes a ring. *)
Theorem saturn_ring_follows_saturn
    (planet : Planet.t) (startM : R) (n : nat) (s : State Internal) :
  PlanetObject.ring_position (Build.newPlanetObject planet startM)
  = (if String.eqb (Planet.name planet) "Saturn"
     then Some (Vector3.mk 0 0 0) else None) /\
  Forall (fun p => match PlanetObject.ring_position p with
                   | Some r => r = PlanetObject.mesh_position p
                   | None => True
                   end)
         (planetObjects (frames controls_update (S n) s)) /\
  map (fun p => match PlanetObject.ring_position p with
                | Some _ => true
                | None => false
                end)
      (planetObjects (frames controls_update n s))
  = map (fun p => match PlanetObject.ring_position p with
                  | Some _ => true
                  | None => false
                  end)
        (planetObjects s).
Proof.
  split; [reflexivity |]. split; [| apply frames_rings].
  rewrite frames_S, animate_planetObjects. apply Forall_forall.
  intros p Hin. apply in_map_iff in Hin. destruct Hin as (q & <- & _).
  rewrite animatePlanet_ring.
  destruct (PlanetObject.ring_position q); [reflexivity | exact I].
Qed.

End SaturnRing.

(* ----------------------------------------------------------------- *)
(** ** The properties at sample inputs *)

Lemma unitComet_OK : Orbit.cometOK Examples.unitComet.
Proof.
  unfold Orbit.cometOK, Orbit.descriptorOK, Examples.unitComet.
  cbn [CometObject.a CometObject.b CometObject.e CometObject.cosNode
       CometObject.sinNode CometObject.cosInc CometObject.sinInc
       CometObject.perihelionVis].
  replace (1 - 0 * 0) with 1 by ring. rewrite sqrt_1.
  repeat match goal with |- _ /\ _ => split end; lra.
Qed.

Lemma unitMoon_OK : Moon.moonOK Examples.unitMoon.
Proof.
  unfold Moon.moonOK, Examples.unitMoon.
  cbn [MoonObject.orbitRadius MoonObject.cosInc MoonObject.sinInc].
  split; lra.
Qed.

Lemma comet_tail_points_away_from_sun_witness :
  Orbit.cometOK Examples.unitComet /\
  CometObject.tailLine_position
    (Scene.animateComet 0 400 1 (Vector3.mk 0 0 5) Examples.unitComet)
  = CometObject.mesh_position
      (Scene.animateComet 0 400 1 (Vector3.mk 0 0 5) Examples.unitComet).
Proof.
  split; [exact unitComet_OK |].
  exact (proj1 (comet_tail_points_away_from_sun 0 400 1 (Vector3.mk 0 0 5)
                  Examples.unitComet unitComet_OK)).
Defined.

Lemma moon_circles_its_parent_witness :
  exists parent : PlanetObject.t,
    nth_error [Examples.unitPlanet]
              (MoonObject.parentPlanetObj Examples.unitMoon)
    = Some parent /\
    MoonObject.angle
      (Scene.animateMoon 2 [Examples.unitPlanet] Examples.unitMoon)
    = MoonObject.angle Examples.unitMoon
      + MoonObject.speed Examples.unitMoon * 2.
Proof.
  destruct (moon_circles_its_parent 2 [Examples.unitPlanet] Examples.unitMoon
              unitMoon_OK ltac:(unfold Moon.parentValid; simpl; lia))
    as (parent & Hp & Ha & _).
  exists parent. split; assumption.
Defined.

Lemma moon_orbit_line_is_its_path_witness :
  List.length (Moon.createMoonOrbitLine 1 1 0) = 64%nat.
Proof.
  exact (proj1 (moon_orbit_line_is_its_path 1 1 0 ltac:(lra) ltac:(lra))).
Defined.

Lemma reachable_speeds_on_ladder_witness :
  SpeedRuns.reachable (Speed.increaseSpeed Speed.initial) /\
  0 <= Speed.increaseSpeed Speed.initial <= 64.
Proof.
  split; [apply SpeedRuns.reach_increase, SpeedRuns.reach_initial |].
  exact (proj1 (proj2 (reachable_speeds_on_ladder _
           (SpeedRuns.reach_increase _ SpeedRuns.reach_initial)))).
Defined.

Lemma zoom_step_interpolates_and_lands_witness :
  0 <= ZoomAnim.t_ Samples.jupiterFlight /\
  Scene.fov (fst (fst (Scene.animateZoom Examples.initialCamera
                         Examples.initialControls (Some Samples.jupiterFlight))))
  = Scene.fov Examples.initialCamera.
Proof.
  assert (H0 : 0 <= ZoomAnim.t_ Samples.jupiterFlight) by (simpl; lra).
  split; [exact H0 |].
  exact (proj1 (proj2 (zoom_step_interpolates_and_lands Examples.initialCamera
                         Examples.initialControls Samples.jupiterFlight H0))).
Defined.

Lemma flight_locks_controls_then_lands_witness :
  exists s1 : Scene.State unit,
    Interaction.onCanvasDblClick
      [Examples.jupiterHit (Vector3.mk 182 0 0)]
      (Examples.bareScene (Vector3.mk 0 450 1100) None)
    = (Some s1, [Interaction.closeInfo]) /\
    Scene.enabled
      (Scene.controls (Frames.frames Examples.stillControls 10 s1)) = false /\
    Scene.enabled
      (Scene.controls (Frames.frames Examples.stillControls 25 s1)) = true.
Proof.
  eexists. split; [reflexivity |].
  match goal with
  | |- Scene.enabled (Scene.controls (Frames.frames _ _ ?s1)) = _ /\ _ =>
      pose proof (flight_locks_controls_then_lands Examples.stillControls
                    s1 _ _ _ _ (fun c ctl => eq_refl) eq_refl eq_refl)
        as [Hlock [_ [Hland _]]]
  end.
  split; [apply Hlock; lia | exact Hland].
Defined.

Lemma dblclick_keeps_the_viewing_side_witness :
  Vector3.mk 0 450 1100 <> Vector3.mk 182 0 0 /\
  snd (Interaction.onCanvasDblClick
         [Examples.jupiterHit (Vector3.mk 182 0 0)]
         (Examples.bareScene (Vector3.mk 0 450 1100) None))
  = [Interaction.closeInfo] /\
  Interaction.onCanvasDblClick
    [Interaction.mkHit (Some Samples.oddlyNamed) true false
                       (Vector3.mk 182 0 0)]
    (Examples.bareScene (Vector3.mk 0 450 1100) None)
  = (None, [Interaction.closeInfo]).
Proof.
  assert (Hne : Vector3.mk 0 450 1100 <> Vector3.mk 182 0 0).
  { intros Heq. injection Heq as Hx _ _. lra. }
  split; [exact Hne |].
  split.
  - exact (proj1 (dblclick_keeps_the_viewing_side
                    (Examples.bareScene (Vector3.mk 0 450 1100) None)
                    (Examples.jupiterHit (Vector3.mk 182 0 0)) []
                    Examples.Jupiter eq_refl eq_refl Hne)).
  - destruct (dblclick_keeps_the_viewing_side
                (Examples.bareScene (Vector3.mk 0 450 1100) None)
                (Interaction.mkHit (Some Samples.oddlyNamed) true false
                                   (Vector3.mk 182 0 0)) []
                Samples.oddlyNamed eq_refl eq_refl Hne)
      as (Hsig & _ & _ & _ & Hnan & _).
    specialize (Hnan eq_refl).
    apply injective_projections; [exact Hnan | exact Hsig].
Defined.

Lemma mouse_coords_normalised_witness :
  -1 <= fst (Pointer.updateMouseCoords Samples.pointerAt Samples.canvasRect)
  <= 1 /\
  -1 <= snd (Pointer.updateMouseCoords Samples.pointerAt Samples.canvasRect)
  <= 1.
Proof.
  pose proof (mouse_coords_normalised Samples.pointerAt Samples.canvasRect
                ltac:(simpl; lra) ltac:(simpl; lra)
                ltac:(simpl; lra) ltac:(simpl; lra)) as (Hx & Hy & _).
  split; assumption.
Defined.

Lemma hover_lights_only_the_nearest_hit_witness :
  Pointer.hoverOK
    (Pointer.initialHover (Examples.bareScene (Vector3.mk 0 450 1100) None)) /\
  Pointer.hoverOK
    (Pointer.onCanvasMouseMove Samples.pointerAt Samples.canvasRect
       [Samples.jupiterPointerHit]
       (Pointer.initialHover
          (Examples.bareScene (Vector3.mk 0 450 1100) None))).
Proof.
  split; [apply initialHover_OK |].
  exact (proj1 (hover_lights_only_the_nearest_hit Samples.pointerAt
                  Samples.canvasRect [Samples.jupiterPointerHit]
                  (Pointer.initialHover
                     (Examples.bareScene (Vector3.mk 0 450 1100) None))
                  (initialHover_OK _))).
Defined.

Lemma tooltip_shown_iff_clickable_witness :
  Scene.hoveredPlanet
    (Pointer.scene
       (Pointer.onCanvasMouseMove Samples.pointerAt Samples.canvasRect
          [Samples.jupiterPointerHit]
          (Pointer.initialHover
             (Examples.bareScene (Vector3.mk 0 450 1100) None))))
  = Some ("Jupiter"%string, "#C88B3A"%string).
Proof.
  destruct (tooltip_shown_iff_clickable Samples.pointerAt Samples.canvasRect
              Samples.jupiterPointerHit []
              (Pointer.initialHover
                 (Examples.bareScene (Vector3.mk 0 450 1100) None))
              Examples.Jupiter eq_refl)
    as [(Hh & _) | (_ & _ & _ & Ho & _)].
  - exact Hh.
  - discriminate Ho.
Defined.

Lemma frontCamera_distance :
  Vector3.distanceTo (Scene.position Samples.frontCamera)
                     (Scene.target Examples.initialControls) = 100.
Proof.
  unfold Vector3.distanceTo. simpl.
  replace ((0 - 0) * (0 - 0) + (0 - 0) * (0 - 0) + (100 - 0) * (100 - 0))
    with (100 * 100) by ring.
  apply sqrt_square. lra.
Qed.

Lemma dolly_scales_distance_within_limits_witness :
  Nav.dollyCamera Examples.stillControls 0.97 Samples.frontCamera
                  Examples.initialControls
  = (Scene.mkCamera
       (Vector3.add (Scene.target Examples.initialControls)
          (Vector3.multiplyScalar
             (Vector3.sub (Scene.position Samples.frontCamera)
                          (Scene.target Examples.initialControls)) 0.97))
       (Scene.fov Samples.frontCamera),
     Examples.initialControls).
Proof.
  refine (proj1 (proj1 (dolly_scales_distance_within_limits
                          Examples.stillControls 0.97 Samples.frontCamera
                          Examples.initialControls ltac:(lra)) _)).
  rewrite frontCamera_distance. simpl. lra.
Defined.

Lemma nav_keeps_at_most_one_interval_witness :
  Nav.navOK Samples.idleNav /\
  Nav.intervals
    (Nav.startNav Examples.stillControls Samples.flatAtan2 "zoomIn"
                  (Vector3.mk 1 0 0) (Vector3.mk 0 1 0) Samples.idleNav)
  = [(0%nat, "zoomIn"%string)].
Proof.
  assert (H0 : Nav.navOK Samples.idleNav) by reflexivity.
  split; [exact H0 |].
  exact (proj1 (proj2 (nav_keeps_at_most_one_interval Examples.stillControls
                         Samples.flatAtan2 "zoomIn" (Vector3.mk 1 0 0)
                         (Vector3.mk 0 1 0) Samples.idleNav H0))).
Defined.

Lemma zeroDraws_range (n : nat) : 0 <= Samples.zeroDraws n < 1.
Proof. unfold Samples.zeroDraws. lra. Qed.

Lemma stars_lie_in_a_thin_shell_witness :
  Forall (fun p => 2400 <= Vector3.length p < 2600)
         (Particles.createStarfield Samples.zeroDraws).
Proof.
  exact (proj1 (proj2 (stars_lie_in_a_thin_shell Samples.zeroDraws
                         zeroDraws_range))).
Defined.

Lemma asteroids_lie_over_the_hit_ring_witness :
  Particles.ring_inner (Particles.createAsteroidBelt Samples.zeroDraws) = 77 /\
  Particles.ring_outer (Particles.createAsteroidBelt Samples.zeroDraws) = 112.
Proof.
  pose proof (asteroids_lie_over_the_hit_ring Samples.zeroDraws
                zeroDraws_range) as (_ & Hi & Ho & _).
  split; assumption.
Defined.

Lemma sample_records_OK :
  Forall (fun p => Planet.is_star p = false ->
                   0 <= Planet.distance_from_sun p /\
                   0 <= nullish (Planet.eccentricity p) 0)
         [Samples.Sun; Examples.Jupiter].
Proof.
  apply Forall_cons; [intros Hs; discriminate Hs |].
  apply Forall_cons; [intros _; simpl; lra | apply Forall_nil].
Qed.

Lemma planets_built_on_their_orbits_witness :
  map PlanetObject.planet
      (fst (Assembly.buildSolarSystem [Samples.Sun; Examples.Jupiter]
                                      Samples.zeroDraws))
  = [Examples.Jupiter].
Proof.
  exact (proj1 (planets_built_on_their_orbits [Samples.Sun; Examples.Jupiter]
                  Samples.zeroDraws zeroDraws_range sample_records_OK)).
Defined.

Lemma built_scene_stays_wellformed_witness :
  Assembly.sceneOK
    (Frames.frames Examples.stillControls 3
       (Assembly.initialScene [Samples.Sun; Examples.Jupiter] 800 tt
                              Samples.zeroDraws Samples.zeroDraws)).
Proof.
  exact (proj1 (proj2 (proj2 (proj2 (proj2
           (built_scene_stays_wellformed Examples.stillControls
              [Samples.Sun; Examples.Jupiter] 800 tt Samples.zeroDraws
              Samples.zeroDraws sample_records_OK))))) 3%nat).
Defined.

Lemma planet_orbits_solved_to_tolerance_witness :
  0 <= nullish (Some 0.2056) 0 <= 0.4 /\
  Kepler.iters (Kepler.planetEccentricity (Some 0.2056)) = 5%nat.
Proof.
  assert (He : 0 <= nullish (Some 0.2056) 0 <= 0.4) by (simpl; lra).
  split; [exact He |].
  exact (proj1 (proj2 (planet_orbits_solved_to_tolerance (Some 0.2056) 1 He
                         ltac:(lra)))).
Defined.
